(** * dataselect: Mini-SEED selection, pruning, splitting and emission

    A shallow embedding of [src/dataselect.c].  Pointer structures become
    lists: a [RecordMap] chain is the list of its [Record_s] entries in
    chain order, the global [filelist] is a list of [Filelink] entries and
    a record's [flp] pointer is the position of its file in that list.
    High precision times ([hptime_t], a signed 64 bit tick count) and the
    [int] counters are integers in [Z]; the code never relies on wrap
    around (signed overflow is undefined in C) and the model does not
    either: it is the program as long as the counters stay within the
    range of their type, and what is stated about the byte counts is
    stated for that range.  Everything that comes from libmseed or from
    the operating system is an operation of an interface class. *)

From Stdlib Require Import ZArith Lia Bool String Ascii Strings.Byte.
From stdpp Require Import base option list.

Local Open Scope Z_scope.

(** ** Data model *)

(** [struct Filelink_s]: the per file bookkeeping.  [infp] and [outfp]
    record whether the stream is open. *)
Record Filelink := mkFilelink {
  infilename    : string;
  infp          : bool;
  outfilename   : option string;
  outfp         : bool;
  reordercount  : Z;
  recsplitcount : Z;
  recrmcount    : Z;
  rectrimcount  : Z;
  earliest      : Z;
  latest        : Z;
  byteswritten  : Z
}.

(** [struct Record_s] without its [prev]/[next] links. *)
Record Record_s := mkRecord {
  flp       : nat;
  offset    : Z;
  reclen    : Z;
  starttime : Z;
  endtime   : Z;
  quality   : ascii;
  newstart  : Z;
  newend    : Z
}.

(** [struct TimeSegment_s]. *)
Record TimeSegment := mkTimeSegment {
  ts_starttime : Z;
  ts_endtime   : Z
}.

(** libmseed's broken down time [BTime]. *)
Record BTime := mkBTime {
  year  : Z;
  day   : Z;
  hour  : Z;
  min   : Z;
  sec   : Z;
  fract : Z
}.

(** What [msr_pack] does: its return value and the packed records it
    hands, in order, to the record handler. *)
Record PackResult := mkPackResult {
  packedrecords : Z;
  handled       : list (list byte)
}.

(** The part of libmseed the program relies on.  [rate] stands for the C
    [double] that holds a sample rate, [sample] for one decoded sample. *)
Class Libmseed := {
  rate   : Type;
  sample : Type;
  (** the C truth value of a [double] *)
  rate_true : rate -> bool;
  (** [(hptime_t) (HPTMODULUS / samprate)] *)
  hpperiod : rate -> Z;
  (** [(int) (secs * samprate + 0.5)] *)
  scale_round : Z -> rate -> Z;
  MS_ISRATETOLERABLE : rate -> rate -> bool;
  HPTERROR   : Z;
  HPTMODULUS : Z;
  ms_hptime2btime : Z -> BTime;
  ms_btime2hptime : BTime -> Z
}.

(** The fields of libmseed's [MSRecord] that [trimrecord] touches. *)
Record MSRecord `{Libmseed} := mkMSRecord {
  msr_starttime   : Z;
  msr_samprate    : rate;
  msr_datasamples : list sample;
  msr_numsamples  : Z;
  msr_samplecnt   : Z
}.

(** The record codec of libmseed: [msr_unpack] gives [None] when its
    return code is not [MS_NOERROR]. *)
Class Codec `{Libmseed} := {
  msr_unpack : list byte -> Z -> option MSRecord;
  msr_pack   : MSRecord -> PackResult
}.

(** The fields of libmseed's [MSTrace] that the program reads.  [network]
    stands for the 44 bytes compared by [memcmp] in [prunetraces];
    [private] is the trace's record map. *)
Record MSTrace `{Libmseed} := mkMSTrace {
  network       : string;
  dataquality   : ascii;
  samprate      : rate;
  mst_starttime : Z;
  mst_endtime   : Z;
  private       : list Record_s
}.

(** The global option variables.  [timetol] is [None] for the default
    [-1.0] and [Some t] when [(hptime_t) (HPTMODULUS * timetol)] is [t].
    The compiled regular expressions are the predicates they decide. *)
Record Options := mkOptions {
  bestquality   : bool;
  prunedata     : ascii;
  timetol       : option Z;
  restampqind   : ascii;
  opt_starttime : Z;
  opt_endtime   : Z;
  splitboundary : ascii;
  opt_match     : option (string -> bool);
  opt_reject    : option (string -> bool);
  replaceinput  : bool;
  nobackups     : bool;
  outputfile    : option string;
  archiveroot   : nat
}.

(** The null character, the "off" value of the [char] flags. *)
Definition NUL : ascii := "000"%char.

(** Field updates. *)
Definition set_reclen (r : Record_s) (v : Z) : Record_s :=
  mkRecord (flp r) (offset r) v (starttime r) (endtime r) (quality r)
           (newstart r) (newend r).

Definition set_newstart (r : Record_s) (v : Z) : Record_s :=
  mkRecord (flp r) (offset r) (reclen r) (starttime r) (endtime r) (quality r)
           v (newend r).

Definition set_newend (r : Record_s) (v : Z) : Record_s :=
  mkRecord (flp r) (offset r) (reclen r) (starttime r) (endtime r) (quality r)
           (newstart r) v.

Definition bump_recrmcount (f : Filelink) : Filelink :=
  mkFilelink (infilename f) (infp f) (outfilename f) (outfp f)
             (reordercount f) (recsplitcount f) (recrmcount f + 1)
             (rectrimcount f) (earliest f) (latest f) (byteswritten f).

Definition bump_rectrimcount (f : Filelink) : Filelink :=
  mkFilelink (infilename f) (infp f) (outfilename f) (outfp f)
             (reordercount f) (recsplitcount f) (recrmcount f)
             (rectrimcount f + 1) (earliest f) (latest f) (byteswritten f).

Definition bump_recsplitcount (f : Filelink) : Filelink :=
  mkFilelink (infilename f) (infp f) (outfilename f) (outfp f)
             (reordercount f) (recsplitcount f + 1) (recrmcount f)
             (rectrimcount f) (earliest f) (latest f) (byteswritten f).


(** [( rec->newstart ) ? rec->newstart : rec->starttime] and its twin. *)
Definition effstarttime (rec : Record_s) : Z :=
  if newstart rec =? 0 then starttime rec else newstart rec.

Definition effendtime (rec : Record_s) : Z :=
  if newend rec =? 0 then endtime rec else newend rec.

(** ** Pruner *)

Section Pruner.
Context `{Libmseed}.

(** [qcompare]. *)
Definition qcompare (quality1 quality2 : ascii) : Z :=
  if Ascii.eqb quality1 quality2 then 0
  else if Ascii.eqb quality1 "R" &&
          (Ascii.eqb quality2 "D" || Ascii.eqb quality2 "Q") then 1
  else if Ascii.eqb quality1 "D" && Ascii.eqb quality2 "Q" then 1
  else -1.

(** The sample period and the time tolerance of [trimtraces], in ticks.
    The division by two is C's, on [hptime_t]. *)
Definition hpdelta_of (hptrace : MSTrace) : Z :=
  if rate_true (samprate hptrace) then hpperiod (samprate hptrace) else 0.

Definition hptimetol_of (opts : Options) (hpdelta : Z) : Z :=
  match timetol opts with
  | None => Z.quot hpdelta 2
  | Some t => t
  end.

(** One turn of the first loop of [trimtraces].  The segment list under
    construction is kept newest first, so its head is [tsp]. *)
Definition cover_step (hpdelta hptimetol : Z)
    (st : list TimeSegment * bool) (rec : Record_s) : list TimeSegment * bool :=
  let '(segs, newsegment) := st in
  if reclen rec =? 0 then st
  else
    let newsegment :=
      match segs with
      | tsp :: _ =>
          if Z.abs ((ts_endtime tsp + hpdelta) - effstarttime rec) >? hptimetol
          then true else newsegment
      | [] => newsegment
      end in
    if newsegment
    then (mkTimeSegment (effstarttime rec) (effendtime rec) :: segs, false)
    else match segs with
         | tsp :: rest =>
             (mkTimeSegment (ts_starttime tsp) (effendtime rec) :: rest, false)
         | [] => (segs, false)
         end.

(** The coverage of the higher priority trace, oldest segment first. *)
Definition coverage (hpdelta hptimetol : Z) (recs : list Record_s)
  : list TimeSegment :=
  rev (fst (fold_left (cover_step hpdelta hptimetol) recs ([], true))).

(** The state threaded through the second loop of [trimtraces]: the file
    list, the record under the cursor and [modcount]. *)
Definition TrimState : Type := list Filelink * Record_s * Z.

(** The test "completely overlapped by HP data" of the second loop. *)
Definition covers (tsp : TimeSegment) (rec : Record_s) : bool :=
  (effstarttime rec >=? ts_starttime tsp) && (effendtime rec <=? ts_endtime tsp).

(** The body of the inner [while ( tsp )] loop: one lower priority record
    against one segment. *)
Definition trim_seg (opts : Options) (hptrace : MSTrace) (hpdelta : Z)
    (st : TrimState) (tsp : TimeSegment) : TrimState :=
  let '(files, rec, modcount) := st in
  let eff1 := effstarttime rec in
  let eff2 := effendtime rec in
  let '(files, rec, modcount) :=
    if covers tsp rec
    then (alter bump_recrmcount (flp rec) files, set_reclen rec 0, modcount + 1)
    else (files, rec, modcount) in
  if Ascii.eqb (prunedata opts) "s" && negb (reclen rec =? 0)
  then
    let '(files, rec, modcount) :=
      if (eff1 <=? mst_starttime hptrace) && (eff2 >=? mst_starttime hptrace)
      then (alter bump_rectrimcount (flp rec) files,
            set_newend rec (mst_starttime hptrace - hpdelta), modcount + 1)
      else (files, rec, modcount) in
    if (eff1 <=? mst_endtime hptrace) && (eff2 >=? mst_endtime hptrace)
    then (alter bump_rectrimcount (flp rec) files,
          set_newstart rec (mst_endtime hptrace + hpdelta), modcount + 1)
    else (files, rec, modcount)
  else (files, rec, modcount).

(** One lower priority record against every segment. *)
Definition trim_rec (opts : Options) (hptrace : MSTrace) (hpdelta : Z)
    (segs : list TimeSegment) (files : list Filelink) (rec : Record_s)
    (modcount : Z) : TrimState :=
  fold_left (trim_seg opts hptrace hpdelta) segs (files, rec, modcount).

(** The outer loop over the lower priority chain; the records keep their
    places in the chain. *)
Fixpoint trim_chain (opts : Options) (hptrace : MSTrace) (hpdelta : Z)
    (segs : list TimeSegment) (files : list Filelink) (recs : list Record_s)
    (modcount : Z) : list Filelink * list Record_s * Z :=
  match recs with
  | [] => (files, [], modcount)
  | rec :: rest =>
      let '(files, rec, modcount) :=
        trim_rec opts hptrace hpdelta segs files rec modcount in
      let '(files, rest, modcount) :=
        trim_chain opts hptrace hpdelta segs files rest modcount in
      (files, rec :: rest, modcount)
  end.

(** [trimtraces]: the updated file list, the updated chain of the lower
    priority trace and the modification count returned. *)
Definition trimtraces (opts : Options) (files : list Filelink)
    (lptrace hptrace : MSTrace) : list Filelink * list Record_s * Z :=
  let hpdelta := hpdelta_of hptrace in
  let hptimetol := hptimetol_of opts hpdelta in
  let ts := coverage hpdelta hptimetol (private hptrace) in
  trim_chain opts hptrace hpdelta ts files (private lptrace) 0.


Definition set_private (mst : MSTrace) (recs : list Record_s) : MSTrace :=
  {| network := network mst; dataquality := dataquality mst;
     samprate := samprate mst; mst_starttime := mst_starttime mst;
     mst_endtime := mst_endtime mst; private := recs |}.

(** The state of [prunetraces]: the file list, the traces of the group in
    group order and the local variable [priority], which is set to zero
    once, before the loops. *)
Record PruneState := mkPruneState {
  ps_files    : list Filelink;
  ps_traces   : list MSTrace;
  ps_priority : Z
}.

(** The body of the inner loop of [prunetraces] for [mst] at position [i]
    and [imst] at position [j]. *)
Definition prune_pair (opts : Options) (i j : nat) (st : PruneState)
  : PruneState :=
  match ps_traces st !! i, ps_traces st !! j with
  | Some mst, Some imst =>
      if negb (String.eqb (network mst) (network imst)) ||
         negb (MS_ISRATETOLERABLE (samprate mst) (samprate imst))
      then st
      else if (mst_endtime mst >? mst_starttime imst) &&
              (mst_starttime mst <? mst_endtime imst)
      then
        let priority :=
          if bestquality opts
          then qcompare (dataquality mst) (dataquality imst)
          else ps_priority st in
        let priority :=
          if priority =? 0
          then if (mst_endtime mst - mst_starttime mst) >?
                  (mst_endtime imst - mst_starttime imst)
               then -1 else 1
          else priority in
        if priority =? 1
        then
          let '(files, recs, _) := trimtraces opts (ps_files st) mst imst in
          mkPruneState files (<[i := set_private mst recs]> (ps_traces st))
                       priority
        else
          let '(files, recs, _) := trimtraces opts (ps_files st) imst mst in
          mkPruneState files (<[j := set_private imst recs]> (ps_traces st))
                       priority
      else st
  | _, _ => st
  end.

(** [prunetraces]: every trace against every later trace of the group. *)
Definition prunetraces (opts : Options) (files : list Filelink)
    (traces : list MSTrace) : Z * list Filelink * list MSTrace :=
  match traces with
  | [] => (-1, files, traces)
  | _ =>
      let n := length traces in
      let st :=
        fold_left
          (fun st i =>
             fold_left (fun st j => prune_pair opts i j st)
                       (seq (S i) (n - S i)%nat) st)
          (seq 0 n) (mkPruneState files traces 0) in
      (0, ps_files st, ps_traces st)
  end.

End Pruner.

(** ** Indexer and splitter *)

Section Indexer.
Context `{Libmseed}.

(** What [ms_readmsr] delivers for one record of the file being read,
    with the values the loop of [readfiles] derives first. *)
Record ReadRecord := mkReadRecord {
  rr_fpos         : Z;
  rr_reclen       : Z;
  rr_recstarttime : Z;
  rr_recendtime   : Z;
  rr_dataquality  : ascii;
  rr_srcname      : string;
  rr_samprate     : rate
}.

(** The trace [mst_addmsrtogroup] returns for the record, as the loop
    sees it: whether it already owns a record map, and its bounds. *)
Record Placement := mkPlacement {
  pl_private   : bool;
  pl_starttime : Z;
  pl_endtime   : Z
}.

(** The two time window tests of [readfiles], in source order. *)
Definition skip_starttime (opts : Options) (recstarttime : Z) : bool :=
  negb (opt_starttime opts =? HPTERROR) && (opt_starttime opts <? recstarttime).

Definition skip_endtime (opts : Options) (recendtime : Z) : bool :=
  negb (opt_endtime opts =? HPTERROR) && (recendtime >? opt_endtime opts).

(** The match and reject tests: [regexec] returns zero on a match. *)
Definition skip_match (opts : Options) (srcname : string) : bool :=
  match opt_match opts with
  | Some re => negb (re srcname)
  | None => false
  end.

Definition skip_reject (opts : Options) (srcname : string) : bool :=
  match opt_reject opts with
  | Some re => re srcname
  | None => false
  end.

(** Where the record fits its trace: 0 new, 1 end, 2 beginning; [None]
    is the error branch that abandons the record. *)
Definition whence_of (pl : Placement) (recstarttime recendtime : Z)
  : option Z :=
  if pl_private pl
  then
    if pl_endtime pl =? recendtime then Some 1
    else if pl_starttime pl =? recstarttime then Some 2
    else if recendtime =? recstarttime
    then if Z.abs (recstarttime - pl_endtime pl) <?
            Z.abs (recstarttime - pl_starttime pl)
         then Some 1 else Some 2
    else None
  else Some 0.

(** The block guarded by [prunedata == 's'] that follows the creation of
    the [Record]. *)
Definition window_trim (opts : Options) (rec : Record_s) : Record_s :=
  if Ascii.eqb (prunedata opts) "s"
  then
    let rec :=
      if negb (opt_starttime opts =? HPTERROR) &&
         (opt_starttime opts >? starttime rec) &&
         (opt_starttime opts <? endtime rec)
      then if negb (newstart rec =? 0) && (newstart rec <? opt_starttime opts)
           then set_newstart rec (opt_starttime opts) else rec
      else rec in
    if negb (opt_endtime opts =? HPTERROR) &&
       (opt_endtime opts >? starttime rec) &&
       (opt_endtime opts <? endtime rec)
    then if negb (newend rec =? 0) && (newend rec >? opt_endtime opts)
         then set_newend rec (opt_endtime opts) else rec
    else rec
  else rec.

(** The next split boundary after [eff]; [None] for an unrecognized
    boundary code. *)
Definition split_boundary (code : ascii) (eff : Z) : option Z :=
  let startbtime := ms_hptime2btime eff in
  if Ascii.eqb code "d"
  then Some (ms_btime2hptime
               (mkBTime (year startbtime) (day startbtime + 1) 0 0 0 0))
  else if Ascii.eqb code "h"
  then Some (ms_btime2hptime
               (mkBTime (year startbtime) (day startbtime)
                        (hour startbtime + 1) 0 0 0))
  else if Ascii.eqb code "m"
  then Some (ms_btime2hptime
               (mkBTime (year startbtime) (day startbtime) (hour startbtime)
                        (min startbtime + 1) 0 0))
  else None.

(** The [for (;;)] loop of the splitter.  [chain] holds the records of
    the new chain that precede the current record [rec]; the result is
    the whole new chain and the file list.  The loop has no bound in the
    source, the model counts its turns down from [fuel]. *)
Fixpoint split_loop (fuel : nat) (code : ascii) (hpdelta : Z)
    (chain : list Record_s) (rec : Record_s) (files : list Filelink)
  : option (list Record_s * list Filelink) :=
  match fuel with
  | O => None
  | S fuel =>
      match split_boundary code (effstarttime rec) with
      | None => Some (chain ++ [rec], files)
      | Some boundary =>
          if endtime rec >? boundary
          then
            let newrec := rec in
            let rec := set_newend rec (boundary - hpdelta) in
            let newrec := set_newstart newrec boundary in
            split_loop fuel code hpdelta (chain ++ [rec]) newrec
                       (alter bump_recsplitcount (flp rec) files)
          else Some (chain ++ [rec], files)
      end
  end.

(** The outcome of the loop body of [readfiles] for one record. *)
Inductive Indexed :=
| Skipped (why : string)
| Placed (whence : Z) (newrecmap : list Record_s) (files : list Filelink).

(** The body of the record loop of [readfiles] for the record [rr] of
    the file at position [fl], up to the completed new record chain.
    The loop that then adds the chain to the record map of the trace is
    [add_records] below, and [readfiles_record] is the two together. *)
Definition index_record (fuel : nat) (opts : Options) (files : list Filelink)
    (fl : nat) (rr : ReadRecord) (pl : Placement) : option Indexed :=
  if skip_starttime opts (rr_recstarttime rr) then Some (Skipped "starttime")
  else if skip_endtime opts (rr_recendtime rr) then Some (Skipped "endtime")
  else if skip_match opts (rr_srcname rr) then Some (Skipped "match")
  else if skip_reject opts (rr_srcname rr) then Some (Skipped "reject")
  else
    match whence_of pl (rr_recstarttime rr) (rr_recendtime rr) with
    | None => Some (Skipped "whence")
    | Some whence =>
        let rec := mkRecord fl (rr_fpos rr) (rr_reclen rr)
                            (rr_recstarttime rr) (rr_recendtime rr)
                            (rr_dataquality rr) 0 0 in
        let rec := window_trim opts rec in
        if Ascii.eqb (splitboundary opts) NUL
        then Some (Placed whence [rec] files)
        else
          let hpdelta :=
            if rate_true (rr_samprate rr) then hpperiod (rr_samprate rr)
            else 0 in
          match split_loop fuel (splitboundary opts) hpdelta [] rec files with
          | Some (chain, files) => Some (Placed whence chain files)
          | None => None
          end
    end.






End Indexer.

(** ** Emitter *)

(** An output stream: standard output or a named file. *)
Inductive Stream :=
| StdoutStream
| FileStream (name : string).

(** What the program does to the outside world, in the order it does
    it.  Only the [ERROR] diagnostics are kept of what goes to standard
    error; the messages that depend on [verbose] are left out. *)
Inductive Event :=
| Stderr (msg : string)
| WriteOutput (to : Stream) (bytes : list byte)
| WriteArchive (arch : nat) (bytes : list byte)
| WriteReplace (file : nat) (bytes : list byte)
| CloseIn (file : nat)
| CloseOut (file : nat)
| Unlink (name : string)
| Rename (from to : string)
| CloseOutput (what : Stream).

(** The file system calls that can fail, as the answers they give. *)
Class FileSys := {
  fopen_ok  : string -> string -> bool;
  fseeko_ok : string -> Z -> bool;
  fread     : string -> Z -> Z -> option (list byte);
  fwrite_ok : Stream -> list byte -> bool;
  unlink_ok : string -> bool;
  rename_ok : string -> string -> bool
}.

Section Emitter.
Context `{Libmseed} `{!Codec} `{FileSys}.

(** [sizeof(recordbuf)], and the conversion of an [int] to the unsigned
    64 bit [size_t] it is compared with. *)
Definition recordbuf_size : Z := 16384.

Definition to_size_t (x : Z) : Z := x mod 2 ^ 64.

(** [memcpy] of a block to the start of the record buffer; this is all
    [record_handler] does. *)
Definition record_handler (recordbuf record : list byte) : list byte :=
  record ++ drop (length record) recordbuf.

(** The sanity test on the new start and end times in [trimrecord]. *)
Definition sanity_violation (rec : Record_s) : bool :=
  (negb (newstart rec =? 0) && negb (newend rec =? 0) &&
   (newstart rec >=? newend rec))
  || (negb (newstart rec =? 0) &&
      ((newstart rec <=? starttime rec) || (newstart rec >=? endtime rec)))
  || (negb (newend rec =? 0) &&
      ((newend rec >=? endtime rec) || (newend rec <=? starttime rec))).

(** Removal of samples from the beginning: the [memmove] keeps the
    array in place and shifts its tail to the front. *)
Definition trim_front (rec : Record_s) (msr : MSRecord) : MSRecord :=
  let trimsamples :=
    scale_round (Z.quot (newstart rec - starttime rec) HPTMODULUS)
                (msr_samprate msr) in
  let keep := Z.to_nat (msr_numsamples msr - trimsamples) in
  {| msr_starttime := newstart rec;
     msr_samprate := msr_samprate msr;
     msr_datasamples :=
       take keep (drop (Z.to_nat trimsamples) (msr_datasamples msr))
       ++ drop keep (msr_datasamples msr);
     msr_numsamples := msr_numsamples msr - trimsamples;
     msr_samplecnt := msr_samplecnt msr - trimsamples |}.

(** Removal of samples from the end: only the counts change. *)
Definition trim_back (rec : Record_s) (msr : MSRecord) : MSRecord :=
  let trimsamples :=
    scale_round (Z.quot (endtime rec - newend rec) HPTMODULUS)
                (msr_samprate msr) in
  {| msr_starttime := msr_starttime msr;
     msr_samprate := msr_samprate msr;
     msr_datasamples := msr_datasamples msr;
     msr_numsamples := msr_numsamples msr - trimsamples;
     msr_samplecnt := msr_samplecnt msr - trimsamples |}.

(** [trimrecord]: the return code, the record buffer afterwards and the
    diagnostics.  The value of [packedrecords] is computed and dropped. *)
Definition trimrecord (rec : Record_s) (recordbuf : list byte)
  : Z * list byte * list Event :=
  let log :=
    if sanity_violation rec
    then [Stderr "ERROR: problem with new start/end record times, skipping."]
    else [] in
  match msr_unpack recordbuf (reclen rec) with
  | None =>
      (-1, recordbuf,
       log ++ [Stderr "ERROR: cannot unpacking Mini-SEED record"])
  | Some msr =>
      let msr := if negb (newstart rec =? 0) then trim_front rec msr else msr in
      let msr := if negb (newend rec =? 0) then trim_back rec msr else msr in
      let packed := msr_pack msr in
      (0, fold_left record_handler (handled packed) recordbuf, log)
  end.

(** The state of [writetraces]: the file list, the global record buffer,
    what has happened so far, [stopflag] and the two static totals, which
    are [int]s in the source. *)
Record WState := mkWState {
  ws_files         : list Filelink;
  ws_recordbuf     : list byte;
  ws_log           : list Event;
  ws_stopflag      : bool;
  ws_totalrecsout  : Z;
  ws_totalbytesout : Z
}.

Definition stop_with (st : WState) (files : list Filelink)
    (recordbuf : list byte) (log : list Event) : WState :=
  mkWState files recordbuf log true
           (ws_totalrecsout st) (ws_totalbytesout st).

Definition open_infp (f : Filelink) : Filelink :=
  mkFilelink (infilename f) true (outfilename f) (outfp f)
             (reordercount f) (recsplitcount f) (recrmcount f)
             (rectrimcount f) (earliest f) (latest f) (byteswritten f).

Definition open_outfp (f : Filelink) : Filelink :=
  mkFilelink (infilename f) (infp f) (outfilename f) true
             (reordercount f) (recsplitcount f) (recrmcount f)
             (rectrimcount f) (earliest f) (latest f) (byteswritten f).

Definition close_both (f : Filelink) : Filelink :=
  mkFilelink (infilename f) false (outfilename f) false
             (reordercount f) (recsplitcount f) (recrmcount f)
             (rectrimcount f) (earliest f) (latest f) (byteswritten f).

(** The update of the time stamps and of the byte count of a file after
    a record has been written.  [byteswritten] is an [int] in the source;
    the sum is the program's as long as it stays in the range of one. *)
Definition stamp_file (mst : MSTrace) (rec : Record_s) (f : Filelink)
  : Filelink :=
  let earliest' :=
    if (earliest f =? 0) || (earliest f >? starttime rec)
    then starttime rec else earliest f in
  let latest' :=
    if (latest f =? 0) || (latest f <? endtime rec)
    then endtime rec +
         (if rate_true (samprate mst) then hpperiod (samprate mst) else 0)
    else latest f in
  mkFilelink (infilename f) (infp f) (outfilename f) (outfp f)
             (reordercount f) (recsplitcount f) (recrmcount f)
             (rectrimcount f) earliest' latest' (byteswritten f + reclen rec).

(** The name [fopen] is given for the output side of a file. *)
Definition outname (f : Filelink) : string :=
  match outfilename f with
  | Some n => n
  | None => EmptyString
  end.

(** The events of handing the buffer to each archive in turn. *)
Definition archive_events (n : nat) (bytes : list byte) : list Event :=
  map (fun a => WriteArchive a bytes) (seq 0 n).

(** The tail of the record loop body, from the quality restamp on.
    [recordbuf] is the buffer as read or as repacked. *)
Definition write_out (opts : Options) (ofp : option Stream) (mst : MSTrace)
    (st : WState) (rec : Record_s) (f : Filelink) (files : list Filelink)
    (recordbuf : list byte) (log : list Event) : WState :=
  let recordbuf :=
    if negb (Ascii.eqb (restampqind opts) NUL)
    then <[6%nat := byte_of_ascii (restampqind opts)]> recordbuf
    else recordbuf in
  let bytes := take (Z.to_nat (reclen rec)) recordbuf in
  let to_ofp :=
    match ofp with
    | Some s =>
        if fwrite_ok s bytes then Some (log ++ [WriteOutput s bytes])
        else None
    | None => Some log
    end in
  match to_ofp with
  | None =>
      stop_with st files recordbuf (log ++ [Stderr "ERROR writing to output"])
  | Some log =>
      let log :=
        if (0 <? archiveroot opts)%nat
        then match msr_unpack recordbuf (reclen rec) with
             | None =>
                 log ++ [Stderr
                   "ERROR unpacking Mini-SEED, cannot write to archive"]
             | Some _ => log ++ archive_events (archiveroot opts) bytes
             end
        else log in
      let replaced :=
        if replaceinput opts
        then
          if outfp f || fopen_ok (outname f) "wb"
          then
            if fwrite_ok (FileStream (outname f)) bytes
            then inl (alter open_outfp (flp rec) files,
                      log ++ [WriteReplace (flp rec) bytes])
            else inr (alter open_outfp (flp rec) files,
                      log ++ [Stderr "ERROR writing to replaced file"])
          else inr (files, log ++ [Stderr "ERROR opening for writing"])
        else inl (files, log) in
      match replaced with
      | inr (files, log) => stop_with st files recordbuf log
      | inl (files, log) =>
          mkWState (alter (stamp_file mst rec) (flp rec) files) recordbuf log
                   false (ws_totalrecsout st + 1)
                   (ws_totalbytesout st + reclen rec)
      end
  end.

(** The body of the record loop of [writetraces], with the loop test on
    [stopflag] in front. *)
Definition write_record (opts : Options) (ofp : option Stream) (mst : MSTrace)
    (st : WState) (rec : Record_s) : WState :=
  if ws_stopflag st then st
  else if reclen rec =? 0 then st
  else if to_size_t (reclen rec) >? recordbuf_size
  then stop_with st (ws_files st) (ws_recordbuf st)
         (ws_log st ++ [Stderr "ERROR Record length larger than buffer"])
  else
    match ws_files st !! flp rec with
    | None => st
    | Some f =>
        if negb (infp f || fopen_ok (infilename f) "rb")
        then stop_with st (ws_files st) (ws_recordbuf st)
               (ws_log st ++ [Stderr "ERROR opening for reading"])
        else
          let files := alter open_infp (flp rec) (ws_files st) in
          if negb (fseeko_ok (infilename f) (offset rec))
          then stop_with st files (ws_recordbuf st)
                 (ws_log st ++ [Stderr "ERROR Cannot seek"])
          else
            match fread (infilename f) (offset rec) (reclen rec) with
            | None =>
                stop_with st files (ws_recordbuf st)
                  (ws_log st ++ [Stderr "ERROR reading"])
            | Some data =>
                let recordbuf := record_handler (ws_recordbuf st) data in
                if negb (newstart rec =? 0) || negb (newend rec =? 0)
                then
                  let '(ret, recordbuf, tlog) := trimrecord rec recordbuf in
                  if negb (ret =? 0)
                  then mkWState files recordbuf (ws_log st ++ tlog) false
                         (ws_totalrecsout st) (ws_totalbytesout st)
                  else write_out opts ofp mst st rec f files recordbuf
                         (ws_log st ++ tlog)
                else write_out opts ofp mst st rec f files recordbuf
                       (ws_log st)
            end
    end.

(** Whether the single output stream [ofp] is set. *)
Definition ofp_set (ofp : option Stream) : bool :=
  match ofp with
  | Some _ => true
  | None => false
  end.

(** The closing loop of [writetraces] for one file of the list. *)
Definition close_file (opts : Options) (ofp : option Stream)
    (acc : list Filelink * list Event * nat) (f : Filelink)
  : list Filelink * list Event * nat :=
  let '(done, log, i) := acc in
  let log := if infp f then log ++ [CloseIn i] else log in
  let log := if outfp f then log ++ [CloseOut i] else log in
  let log :=
    if nobackups opts && negb (ofp_set ofp)
    then if unlink_ok (infilename f)
         then log ++ [Unlink (infilename f)]
         else log ++ [Unlink (infilename f); Stderr "ERROR removing"]
    else log in
  (done ++ [close_both f], log, S i).

(** All records of all traces, in group order and chain order. *)
Definition write_all (opts : Options) (ofp : option Stream)
    (traces : list MSTrace) (st : WState) : WState :=
  fold_left
    (fun st mst => fold_left (write_record opts ofp mst) (private mst) st)
    traces st.

(** [writetraces] on the traces of the group.  [st] carries the file
    list, the record buffer and the two static totals in. *)
Definition writetraces (opts : Options) (traces : list MSTrace) (st : WState)
  : WState :=
  match traces with
  | [] => st
  | _ =>
      let opened :=
        match outputfile opts with
        | None => inl None
        | Some name =>
            if String.eqb name "-" then inl (Some StdoutStream)
            else if fopen_ok name
                      (if ws_totalbytesout st =? 0 then "wb" else "ab")
            then inl (Some (FileStream name))
            else inr tt
        end in
      match opened with
      | inr _ =>
          mkWState (ws_files st) (ws_recordbuf st)
                   (ws_log st ++ [Stderr "ERROR Cannot open output file"])
                   (ws_stopflag st) (ws_totalrecsout st) (ws_totalbytesout st)
      | inl ofp =>
          let st := write_all opts ofp traces
                      (mkWState (ws_files st) (ws_recordbuf st) (ws_log st)
                                false (ws_totalrecsout st)
                                (ws_totalbytesout st)) in
          let '(files, log, _) :=
            fold_left (close_file opts ofp) (ws_files st)
                      ([], ws_log st, O) in
          let log :=
            match ofp with
            | Some s => log ++ [CloseOutput s]
            | None => log
            end in
          mkWState files (ws_recordbuf st) log (ws_stopflag st)
                   (ws_totalrecsout st) (ws_totalbytesout st)
      end
  end.

(** The renaming of one input file at the top of the file loop of
    [readfiles]: [None] when [rename] fails and [readfiles] returns. *)
Definition rename_input (opts : Options) (f : Filelink)
  : option (Filelink * list Event) :=
  if replaceinput opts
  then
    let orig := (infilename f ++ ".orig")%string in
    if rename_ok (infilename f) orig
    then Some (mkFilelink orig (infp f) (Some (infilename f)) (outfp f)
                 (reordercount f) (recsplitcount f) (recrmcount f)
                 (rectrimcount f) (earliest f) (latest f) (byteswritten f),
               [Rename (infilename f) orig])
    else None
  else Some (f, []).

End Emitter.

(** ** POD mode and the open file limit *)

Section Pod.

(** The process as [getrlimit] and [setrlimit] see it: the soft limit on
    open files, whether the query succeeds and which new limits the
    system accepts. *)
Record OS := mkOS {
  rlim_cur     : Z;
  getrlimit_ok : bool;
  setrlimit_ok : Z -> bool
}.

(** The conversions between [int] and the unsigned 64 bit [rlim_t]. *)
Definition to_rlim (x : Z) : Z := x mod 2 ^ 64.

Definition to_int (x : Z) : Z := (x + 2 ^ 31) mod 2 ^ 32 - 2 ^ 31.

(** [setofilelimit]. *)
Definition setofilelimit (os : OS) (limit : Z) : Z * OS * list Event :=
  if negb (getrlimit_ok os)
  then (-1, os, [Stderr "ERROR getrlimit failed to get open file limit"])
  else if rlim_cur os <? to_rlim limit
  then
    if setrlimit_ok os (to_rlim limit)
    then (to_int (to_rlim limit),
          mkOS (to_rlim limit) (getrlimit_ok os) (setrlimit_ok os), [])
    else (-1, os, [Stderr "ERROR setrlimit failed to set open file limit"])
  else (to_int (rlim_cur os), os, []).

(** The calls a run makes on the file list, by name. *)
Inductive Step :=
| ReadFiles
| ProcessTraces
| UpdateRequestTimes
| PrintModSummary
| FreeFileList.

(** What [processpod] does for one channel group of [filecount] files,
    once the files of the group are on the file list. *)
Definition processpod_group (modsummary : bool) (os : OS) (filecount : Z)
  : OS * list Step * list Event :=
  let '(ret, os, log) := setofilelimit os (filecount * 2 + 20) in
  if ret =? -1
  then (os, [FreeFileList], log)
  else (os,
        [ReadFiles; ProcessTraces; UpdateRequestTimes]
        ++ (if modsummary then [PrintModSummary] else [])
        ++ [FreeFileList],
        log).

(** What [main] does with files named on the command line. *)
Definition main_files (modsummary : bool) (os : OS) : OS * list Step :=
  (os,
   [ReadFiles; ProcessTraces]
   ++ (if modsummary then [PrintModSummary] else [])
   ++ [FreeFileList]).

End Pod.

(** ** Request files *)

(** The text of [s] from position [n] on. *)
Fixpoint string_drop (n : nat) (s : string) : string :=
  match n, s with
  | O, _ => s
  | S n, String _ s' => string_drop n s'
  | S _, EmptyString => EmptyString
  end.

(** What [snprintf] leaves of [s] in a buffer of [size] bytes. *)
Fixpoint string_take (n : nat) (s : string) : string :=
  match n, s with
  | S n, String c s' => String c (string_take n s')
  | _, _ => EmptyString
  end.

Definition snprintf (size : nat) (s : string) : string :=
  string_take (size - 1) s.

(** [strstr]: the text of [s] before the first occurrence of [delim] and
    the text after that occurrence; [None] when [delim] does not occur. *)
Fixpoint strstr_cut (delim s : string) : option (string * string) :=
  if String.prefix delim s
  then Some (EmptyString, string_drop (String.length delim) s)
  else match s with
       | EmptyString => None
       | String c s' =>
           match strstr_cut delim s' with
           | Some (before, after) => Some (String c before, after)
           | None => None
           end
       end.

(** The loop of [strparse] from the position [beg] on.  Every turn but
    the last moves [beg] past a delimiter, so the turns are bounded by
    the length of the string; [fuel] counts them down. *)
Fixpoint strparse_from (fuel : nat) (delim beg : string) : list string :=
  match fuel with
  | O => []
  | S fuel =>
      match (if String.eqb delim "" then None else strstr_cut delim beg) with
      | None => [beg]
      | Some (element, rest) => element :: strparse_from fuel delim rest
      end
  end.

(** [strparse] for a string and a delimiter that are not null: the
    elements put on the list, in order; the count returned is the length
    of the list. *)
Definition strparse (str delim : string) : list string :=
  strparse_from (S (String.length str)) delim str.

(** [struct ReqRec_s] without its links and its string list. *)
Record ReqRec := mkReqRec {
  rq_station  : string;
  rq_network  : string;
  rq_channel  : string;
  rq_location : string;
  datastart   : Z;
  dataend     : Z;
  filename    : string;
  headerdir   : string;
  reqstart    : Z;
  reqend      : Z;
  pruned      : bool
}.

(** What [readreqfile] takes from outside: the conversion of a time
    string to epoch seconds,
    [(time_t) (MS_HPTIME2EPOCH (ms_seedtimestr2hptime (s)))], and the
    answer of [access] for a file name. *)
Class PodEnv := {
  seedtime2epoch : string -> Z;
  access_ok      : string -> bool
}.

Section RequestFile.
Context `{PodEnv}.

(** One line of the request file: ten fields separated by tabs, or the
    line is passed over. *)
Definition parse_reqline (poddatadir reqline : string) : option ReqRec :=
  match strparse reqline (String "009" EmptyString) with
  | [sta; net; chan; loc; dstart; dend; fname; hdir; rstart; rend] =>
      Some (mkReqRec sta net chan loc
              (seedtime2epoch dstart) (seedtime2epoch dend)
              fname hdir
              (seedtime2epoch rstart) (seedtime2epoch rend)
              (negb (access_ok
                       (snprintf 1024
                          (poddatadir ++ "/" ++ sta ++ "/" ++ fname)))))
  | _ => None
  end.

(** The update of a record of the list by a new line for the same file:
    the times become the outermost ones. *)
Definition widen (looprr newrr : ReqRec) : ReqRec :=
  mkReqRec (rq_station looprr) (rq_network looprr) (rq_channel looprr)
           (rq_location looprr)
           (if datastart looprr >? datastart newrr
            then datastart newrr else datastart looprr)
           (if dataend looprr <? dataend newrr
            then dataend newrr else dataend looprr)
           (filename looprr) (headerdir looprr)
           (if reqstart looprr >? reqstart newrr
            then reqstart newrr else reqstart looprr)
           (if reqend looprr <? reqend newrr
            then reqend newrr else reqend looprr)
           (pruned looprr).

(** The search of the list for a record with the file name of the new
    one; [None] when the search runs off the end. *)
Fixpoint update_match (newrr : ReqRec) (rrs : list ReqRec)
  : option (list ReqRec) :=
  match rrs with
  | [] => None
  | looprr :: rest =>
      if String.eqb (filename looprr) (filename newrr)
      then Some (widen looprr newrr :: rest)
      else match update_match newrr rest with
           | Some rest' => Some (looprr :: rest')
           | None => None
           end
  end.

Definition add_reqrec (rrs : list ReqRec) (newrr : ReqRec) : list ReqRec :=
  match rrs with
  | [] => [newrr]
  | _ =>
      match update_match newrr rrs with
      | Some rrs' => rrs'
      | None => rrs ++ [newrr]
      end
  end.

(** [readreqfile] on the lines [fgets] delivers; [None] stands for a
    request file that cannot be opened.  The empty list is the null
    pointer returned. *)
Definition readreqfile (poddatadir : string) (lines : option (list string))
  : list ReqRec :=
  match lines with
  | None => []
  | Some lines =>
      fold_left
        (fun rrs reqline =>
           match parse_reqline poddatadir reqline with
           | Some newrr => add_reqrec rrs newrr
           | None => rrs
           end)
        lines []
  end.

End RequestFile.

(** The test on network, station, location and channel of [processpod]. *)
Definition same_nslc (a b : ReqRec) : bool :=
  String.eqb (rq_network a) (rq_network b)
  && String.eqb (rq_station a) (rq_station b)
  && String.eqb (rq_location a) (rq_location b)
  && String.eqb (rq_channel a) (rq_channel b).

Definition set_pruned (r : ReqRec) : ReqRec :=
  mkReqRec (rq_station r) (rq_network r) (rq_channel r) (rq_location r)
           (datastart r) (dataend r) (filename r) (headerdir r)
           (reqstart r) (reqend r) true.

(** The inner loop of [processpod] for the hound at position [h], over
    the records from position [i] on: the records with their marks and
    the positions of the records added to the file list. *)
Fixpoint pod_foxes (hound : ReqRec) (h i : nat) (rest : list ReqRec)
  : list ReqRec * list nat :=
  match rest with
  | [] => ([], [])
  | fox :: rest =>
      let '(rest', added) := pod_foxes hound h (S i) rest in
      if (i =? h)%nat || pruned fox then (fox :: rest', added)
      else if same_nslc hound fox then (set_pruned fox :: rest', i :: added)
      else (fox :: rest', added)
  end.

(** One turn of the outer loop of [processpod]: the records with their
    marks and the groups formed so far, each a list of positions with
    the hound first. *)
Definition pod_step (st : list ReqRec * list (list nat)) (h : nat)
  : list ReqRec * list (list nat) :=
  let '(reqrecs, groups) := st in
  match reqrecs !! h with
  | None => st
  | Some hound =>
      if pruned hound then st
      else
        let reqrecs := <[h := set_pruned hound]> reqrecs in
        let '(reqrecs, added) := pod_foxes hound h 0 reqrecs in
        (reqrecs, groups ++ [h :: added])
  end.

(** The grouping of the request records by [processpod]. *)
Definition pod_groups (reqrecs : list ReqRec)
  : list ReqRec * list (list nat) :=
  fold_left pod_step (seq 0 (length reqrecs)) (reqrecs, []).

(** ** Reference instances

    Executable stand-ins for libmseed and for the file system, used to
    run the model on concrete inputs.  Rates are whole numbers of Hz, a
    sample is a byte, and the calendar counts days on from the first day
    of 1970 without starting a new year. *)

Definition ref_hptime2btime (t : Z) : BTime :=
  let secs := t / 1000000 in
  mkBTime 1970 (secs / 86400 + 1) ((secs / 3600) mod 24) ((secs / 60) mod 60)
          (secs mod 60) ((t mod 1000000) / 100).

Definition ref_btime2hptime (bt : BTime) : Z :=
  ((((day bt - 1) * 24 + hour bt) * 60 + min bt) * 60 + sec bt) * 1000000
  + fract bt * 100.

Definition ref_libmseed : Libmseed :=
  {| rate := Z;
     sample := byte;
     rate_true := fun r => negb (r =? 0);
     hpperiod := fun r => Z.quot 1000000 r;
     scale_round := fun secs r => secs * r;
     MS_ISRATETOLERABLE := fun a b => a =? b;
     HPTERROR := -2145916800000000;
     HPTMODULUS := 1000000;
     ms_hptime2btime := ref_hptime2btime;
     ms_btime2hptime := ref_btime2hptime |}.

(** A codec in which every byte of a record is one sample at 1 Hz and
    packing writes the retained samples back. *)
Definition ref_unpack (recordbuf : list byte) (len : Z)
  : option (@MSRecord ref_libmseed) :=
  Some (@mkMSRecord ref_libmseed 0 1 (take (Z.to_nat len) recordbuf) len len).

Definition ref_codec : @Codec ref_libmseed :=
  {| msr_unpack := ref_unpack;
     msr_pack := fun msr =>
       mkPackResult 1
         [take (Z.to_nat (@msr_numsamples ref_libmseed msr))
               (@msr_datasamples ref_libmseed msr)] |}.

(** The same codec with a packer that fails: it reports [-1] and never
    calls the record handler. *)
Definition failing_pack_codec : @Codec ref_libmseed :=
  {| msr_unpack := ref_unpack;
     msr_pack := fun _ => mkPackResult (-1) [] |}.

(** A file system on which every call succeeds; [disk] gives the content
    of each file. *)
Definition ref_filesys (disk : string -> list byte) : FileSys :=
  {| fopen_ok := fun _ _ => true;
     fseeko_ok := fun _ _ => true;
     fread := fun name off len =>
       let data := take (Z.to_nat len) (drop (Z.to_nat off) (disk name)) in
       if (length data =? Z.to_nat len)%nat then Some data else None;
     fwrite_ok := fun _ _ => true;
     unlink_ok := fun _ => true;
     rename_ok := fun _ _ => true |}.

(** ** Example inputs

    One channel, two files.  All rates are 1 Hz, so the sample period is
    1000000 ticks and the default tolerance 500000. *)

Definition file_a : Filelink :=
  mkFilelink "a.mseed" false None false 0 0 0 0 0 0 0.

Definition file_b : Filelink :=
  mkFilelink "b.mseed" false None false 0 0 0 0 0 0 0.

Definition ex_files : list Filelink := [file_a; file_b].

(** No option given but the pruning mode. *)
Definition ex_opts (mode : ascii) : Options :=
  mkOptions true mode None NUL
            (@HPTERROR ref_libmseed) (@HPTERROR ref_libmseed)
            NUL None None false false None 0.

(** A trace of [ref_libmseed] on the channel of the examples. *)
Definition ex_trace (q : ascii) (t1 t2 : Z) (recs : list Record_s)
  : @MSTrace ref_libmseed :=
  @mkMSTrace ref_libmseed "IU_ANMO_00_BHZ" q 1 t1 t2 recs.

(** Two traces of quality D with the same bounds, one record each. *)
Definition tie_first : @MSTrace ref_libmseed :=
  ex_trace "D" 0 10000000 [mkRecord 0 0 512 0 10000000 "D" 0 0].

Definition tie_second : @MSTrace ref_libmseed :=
  ex_trace "D" 0 10000000 [mkRecord 1 0 512 0 10000000 "D" 0 0].

(** A trace of quality D from 0 s to 20 s whose chain holds a record
    without span at 10 s between its two data records, and a trace of
    quality R with one record from 5 s to 15 s. *)
Definition spanless_hp : @MSTrace ref_libmseed :=
  ex_trace "D" 0 20000000
    [mkRecord 0 0 512 0 10000000 "D" 0 0;
     mkRecord 0 512 512 10000000 10000000 "D" 0 0;
     mkRecord 0 1024 512 11000000 20000000 "D" 0 0].

Definition spanless_lp : @MSTrace ref_libmseed :=
  ex_trace "R" 5000000 15000000 [mkRecord 1 0 512 5000000 15000000 "R" 0 0].

(** Quality D from 10 s to 20 s against a record of quality R from 18 s
    to 25 s. *)
Definition head_hp : @MSTrace ref_libmseed :=
  ex_trace "D" 10000000 20000000 [mkRecord 0 0 512 10000000 20000000 "D" 0 0].

Definition head_lp_rec : Record_s :=
  mkRecord 1 0 512 18000000 25000000 "R" 0 0.

(** The options of the examples with a time window. *)
Definition window_opts (mode : ascii) (ts te : Z) : Options :=
  mkOptions true mode None NUL ts te NUL None None false false None 0.

(** A record of 512 bytes at the start of a file, as read. *)
Definition ex_read (t1 t2 : Z) : @ReadRecord ref_libmseed :=
  @mkReadRecord ref_libmseed 0 512 t1 t2 "D" "IU_ANMO_00_BHZ_D" 1.

(** The record opens a new trace. *)
Definition new_trace (t1 t2 : Z) : Placement := mkPlacement false t1 t2.

(** A record from two seconds before the end of the first day of 1970
    to two seconds after it. *)
Definition midnight_rec : Record_s :=
  mkRecord 0 0 512 86398000000 86402000000 "D" 0 0.

(** A record that spans the first instant of 1970. *)
Definition epoch_rec : Record_s :=
  mkRecord 0 0 512 (-1000000) 1000000 "D" 0 0.

(** Every file of the examples holds the bytes 1 to 16. *)
Definition ex_disk (name : string) : list byte :=
  [x01; x02; x03; x04; x05; x06; x07; x08;
   x09; x0a; x0b; x0c; x0d; x0e; x0f; x10].

(** Everything goes to standard output. *)
Definition stdout_opts : Options :=
  mkOptions true NUL None NUL (@HPTERROR ref_libmseed) (@HPTERROR ref_libmseed)
            NUL None None false false (Some "-"%string) 0.

(** One archive and the option for no backups; the input is not to be
    replaced and there is no single output file. *)
Definition archive_nobackups_opts : Options :=
  mkOptions true NUL None NUL (@HPTERROR ref_libmseed) (@HPTERROR ref_libmseed)
            NUL None None false true None 1.

(** Replacement of the input without backups, with a single output file
    as well. *)
Definition replace_nobackups_output_opts : Options :=
  mkOptions true NUL None NUL (@HPTERROR ref_libmseed) (@HPTERROR ref_libmseed)
            NUL None None true true (Some "-"%string) 0.

(** The emitter's state at the start of a run on one file. *)
Definition ex_wstate (f : Filelink) : WState :=
  mkWState [f] (repeat x00 (Z.to_nat recordbuf_size)) [] false 0 0.

(** Records of eight bytes, that is eight samples at 1 Hz: one with both
    new times at 3 s, one with a new start at 3 s, one without
    adjustment. *)
Definition bad_trim_rec : Record_s :=
  mkRecord 0 0 8 0 7000000 "D" 3000000 3000000.

Definition front_trim_rec : Record_s :=
  mkRecord 0 0 8 0 7000000 "D" 3000000 0.

Definition plain_rec : Record_s :=
  mkRecord 0 8 8 8000000 15000000 "D" 0 0.

(** [file_a] after [readfiles] has renamed it for replacement. *)
Definition file_a_orig : Filelink :=
  mkFilelink "a.mseed.orig" false (Some "a.mseed"%string) false 0 0 0 0 0 0 0.

(** A process with a soft limit of 16 open files whose limit cannot be
    changed, and one whose limit can. *)
Definition os_refusing : OS := mkOS 16 true (fun _ => false).

Definition os_granting : OS := mkOS 16 true (fun _ => true).

(** ** Relations used in the statements *)

(** [marked sample r r']: [r'] is the record [r] after pruning.  Its
    file, offset, times and quality are those of [r]; its length is that
    of [r] or zero; outside sample mode its new start and end are those
    of [r] too. *)
Definition marked (sample : bool) (r r' : Record_s) : Prop :=
  flp r' = flp r /\ offset r' = offset r
  /\ starttime r' = starttime r /\ endtime r' = endtime r
  /\ quality r' = quality r
  /\ (reclen r' = reclen r \/ reclen r' = 0)
  /\ (sample = false -> newstart r' = newstart r /\ newend r' = newend r).

(** [counted f f']: [f'] is the file [f] with its removed and trimmed
    counts possibly higher and nothing else changed. *)
Definition counted (f f' : Filelink) : Prop :=
  infilename f' = infilename f /\ infp f' = infp f
  /\ outfilename f' = outfilename f /\ outfp f' = outfp f
  /\ reordercount f' = reordercount f /\ recsplitcount f' = recsplitcount f
  /\ earliest f' = earliest f /\ latest f' = latest f
  /\ byteswritten f' = byteswritten f
  /\ recrmcount f <= recrmcount f' /\ rectrimcount f <= rectrimcount f'.

(** The removed and trimmed counts of all files together. *)
Definition modifications (files : list Filelink) : Z :=
  fold_right (fun f acc => recrmcount f + rectrimcount f + acc) 0 files.

(** Whether the pruning mode is sample level. *)
Definition sample_mode (opts : Options) : bool := Ascii.eqb (prunedata opts) "s".

(** Records that are not marked as dropped. *)
Definition live (rec : Record_s) : bool := negb (reclen rec =? 0).

(** A chain in which every record starts one sample period after the
    end of the record before it, within the tolerance. *)
Fixpoint contiguous (hpdelta hptimetol : Z) (prev : Record_s)
    (recs : list Record_s) : Prop :=
  match recs with
  | [] => True
  | rec :: rest =>
      Z.abs ((effendtime prev + hpdelta) - effstarttime rec) <= hptimetol
      /\ contiguous hpdelta hptimetol rec rest
  end.

(** [pruned_trace sample t t']: [t'] is the trace [t] after pruning: the
    same header, and a chain of the same records in the same order, each
    possibly marked. *)
Definition pruned_trace `{Libmseed} (sample : bool) (t t' : MSTrace) : Prop :=
  network t' = network t /\ dataquality t' = dataquality t
  /\ samprate t' = samprate t
  /\ mst_starttime t' = mst_starttime t /\ mst_endtime t' = mst_endtime t
  /\ Forall2 (marked sample) (private t) (private t').

(** A trace from 10 s to 20 s whose only record has been dropped, and a
    trace whose record crosses its start. *)
Definition dropped_hp : @MSTrace ref_libmseed :=
  ex_trace "D" 10000000 20000000 [mkRecord 0 0 0 10000000 20000000 "D" 0 0].

Definition crossing_lp : @MSTrace ref_libmseed :=
  ex_trace "R" 5000000 15000000 [mkRecord 1 0 512 5000000 15000000 "R" 0 0].

(** Three records in a row at 1 Hz, the middle one dropped or not. *)
Definition row_rec (len : Z) (t1 t2 : Z) : Record_s :=
  mkRecord 0 0 len t1 t2 "D" 0 0.

(** [same_source rec p]: the descriptor [p] points at the bytes of the
    record [rec]: same file, offset, length, times and quality. *)
Definition same_source (rec p : Record_s) : Prop :=
  flp p = flp rec /\ offset p = offset rec /\ reclen p = reclen rec
  /\ starttime p = starttime rec /\ endtime p = endtime rec
  /\ quality p = quality rec.

(** The options of the examples with a split code. *)
Definition split_opts (code : ascii) : Options :=
  mkOptions true NUL None NUL (@HPTERROR ref_libmseed) (@HPTERROR ref_libmseed)
            code None None false false None 0.

(** The bytes written according to the files, and the difference between
    that sum and the running total of [writetraces]. *)
Definition bytes_written (files : list Filelink) : Z :=
  fold_right (fun f acc => byteswritten f + acc) 0 files.

Definition balance (st : WState) : Z :=
  bytes_written (ws_files st) - ws_totalbytesout st.

(** A trace with its dropped records taken out of the chain. *)
Definition live_only `{Libmseed} (mst : MSTrace) : MSTrace :=
  set_private mst (List.filter live (private mst)).

(** A codec whose unpacking always fails. *)
Definition failing_unpack_codec : @Codec ref_libmseed :=
  {| msr_unpack := fun _ _ => None;
     msr_pack := fun _ => mkPackResult (-1) [] |}.

(** Standard output with a restamp to quality Q. *)
Definition restamp_opts : Options :=
  mkOptions true NUL None "Q" (@HPTERROR ref_libmseed) (@HPTERROR ref_libmseed)
            NUL None None false false (Some "-"%string) 0.

(** The names [unlink] has been called on, in order. *)
Definition unlinked (log : list Event) : list string :=
  List.flat_map (fun e => match e with Unlink name => [name] | _ => [] end) log.

(** What has been written to the single output, archives and replaced
    files, in order. *)
Definition written (log : list Event) : list (list byte) :=
  List.flat_map (fun e => match e with
                          | WriteOutput _ bytes => [bytes]
                          | WriteArchive _ bytes => [bytes]
                          | WriteReplace _ bytes => [bytes]
                          | _ => []
                          end) log.

(** A process whose soft limit is [RLIM_INFINITY]. *)
Definition os_unlimited : OS := mkOS (2 ^ 64 - 1) true (fun _ => true).

(** [outer x r]: the request record [r] is for the file of [x] and its
    data and request times include those of [x]. *)
Definition outer (x r : ReqRec) : Prop :=
  filename r = filename x
  /\ datastart r <= datastart x /\ dataend x <= dataend r
  /\ reqstart r <= reqstart x /\ reqend x <= reqend r.

(** A tab, the delimiter of the request file. *)
Definition tab : string := String "009" EmptyString.

(** The record at position [i] of the request list is not marked as
    pruned. *)
Definition unpruned_at (reqrecs : list ReqRec) (i : nat) : Prop :=
  exists r, reqrecs !! i = Some r /\ pruned r = false.

(** The records at positions [i] and [j] are for the same network,
    station, location and channel. *)
Definition same_channel_at (reqrecs : list ReqRec) (i j : nat) : Prop :=
  exists a b, reqrecs !! i = Some a /\ reqrecs !! j = Some b
              /\ same_nslc a b = true.

(** [more_marks r r']: [r'] is [r], possibly marked as pruned. *)
Definition more_marks (r r' : ReqRec) : Prop := r' = r \/ r' = set_pruned r.

(** Whether the inner loop of [processpod] adds the record [fox] at
    position [j] to the group of the hound at position [h]. *)
Definition joins (hound : ReqRec) (h j : nat) (fox : ReqRec) : bool :=
  negb ((j =? h)%nat || pruned fox) && same_nslc hound fox.

(** Three request records, the first and the last for one channel. *)
Definition ex_reqrecs : list ReqRec :=
  [mkReqRec "ANMO" "IU" "BHZ" "00" 0 10 "f1" "hdr" 0 10 false;
   mkReqRec "ANMO" "IU" "BHE" "00" 0 10 "f2" "hdr" 0 10 false;
   mkReqRec "ANMO" "IU" "BHZ" "00" 5 20 "f3" "hdr" 5 20 false].

(** The trace of [head_lp_rec]. *)
Definition head_lp : @MSTrace ref_libmseed :=
  ex_trace "R" 18000000 25000000 [head_lp_rec].

(** A record of eight samples with a new start at 2 s and a new end at
    5 s, the record of 8 samples unpacked, and a record longer than the
    record buffer. *)
Definition both_trim_rec : Record_s :=
  mkRecord 0 0 8 0 7000000 "D" 2000000 5000000.

Definition eight_samples : @MSRecord ref_libmseed :=
  @mkMSRecord ref_libmseed 0 1 (take 8 (ex_disk "a.mseed")) 8 8.

Definition oversize_rec : Record_s :=
  mkRecord 0 0 20000 0 7000000 "D" 0 0.

(** The trace of [spanless_hp] with the record without span at 11 s,
    where the next sample is due, and a trace of quality R with one
    record from 2 s to 8 s. *)
Definition late_spanless_hp : @MSTrace ref_libmseed :=
  ex_trace "D" 0 20000000
    [mkRecord 0 0 512 0 10000000 "D" 0 0;
     mkRecord 0 512 512 11000000 11000000 "D" 0 0;
     mkRecord 0 1024 512 11000000 20000000 "D" 0 0].

Definition inner_lp : @MSTrace ref_libmseed :=
  ex_trace "R" 2000000 8000000 [mkRecord 1 0 512 2000000 8000000 "R" 0 0].

(** Whether the effective window of a record reaches over the time [t]:
    the test of the sample level trims. *)
Definition crosses (t : Z) (rec : Record_s) : bool :=
  (effstarttime rec <=? t) && (effendtime rec >=? t).

(** The file [f] with [n] more splits, or [n] more reorderings, counted
    and nothing else changed. *)
Definition add_recsplitcount (n : Z) (f : Filelink) : Filelink :=
  mkFilelink (infilename f) (infp f) (outfilename f) (outfp f)
             (reordercount f) (recsplitcount f + n) (recrmcount f)
             (rectrimcount f) (earliest f) (latest f) (byteswritten f).


(** The values of a C [int]. *)
Definition int_range (x : Z) : Prop := - 2 ^ 31 <= x < 2 ^ 31.

(** [grown st st']: no byte count of [st'] is below its value in [st]. *)
Definition grown (st st' : WState) : Prop :=
  ws_totalbytesout st <= ws_totalbytesout st'
  /\ Forall2 (fun f f' => byteswritten f <= byteswritten f')
             (ws_files st) (ws_files st').

(** A trace from 10 s to 30 s whose first record, from 10 s to 20 s, has
    been dropped: its coverage is the one segment from 21 s to 30 s. *)
Definition gapped_hp : @MSTrace ref_libmseed :=
  ex_trace "D" 10000000 30000000
    [mkRecord 0 0 0 10000000 20000000 "D" 0 0;
     mkRecord 0 512 512 21000000 30000000 "D" 0 0].

(** A trace whose record starts with [head_hp], at 10 s, and ends
    before it. *)
Definition inside_lp : @MSTrace ref_libmseed :=
  ex_trace "R" 10000000 15000000
    [mkRecord 1 0 512 10000000 15000000 "R" 0 0].

(** A trace at 1 Hz that starts at 1 s, so that a trim at its start
    falls on tick 0, and a record that crosses its start. *)
Definition second_hp : @MSTrace ref_libmseed :=
  ex_trace "D" 1000000 10000000 [mkRecord 0 0 512 1000000 10000000 "D" 0 0].

Definition epoch_lp : @MSTrace ref_libmseed :=
  ex_trace "R" (-5000000) 5000000
    [mkRecord 1 0 512 (-5000000) 5000000 "R" 0 0].


(** * Properties *)

(** ** Effective times *)

Lemma effstarttime_set_reclen rec v :
  effstarttime (set_reclen rec v) = effstarttime rec.
Proof. reflexivity. Qed.

Lemma effendtime_set_reclen rec v :
  effendtime (set_reclen rec v) = effendtime rec.
Proof. reflexivity. Qed.

Lemma effstarttime_unset rec : newstart rec = 0 -> effstarttime rec = starttime rec.
Proof. intros E. unfold effstarttime. rewrite E. reflexivity. Qed.

Lemma effendtime_unset rec : newend rec = 0 -> effendtime rec = endtime rec.
Proof. intros E. unfold effendtime. rewrite E. reflexivity. Qed.

Lemma effstarttime_set rec v : v <> 0 -> effstarttime (set_newstart rec v) = v.
Proof.
  intros Hv. unfold effstarttime. simpl.
  destruct (Z.eqb_spec v 0); [contradiction | reflexivity].
Qed.

(** ** Pruner *)

Section PrunerFacts.
Context `{Libmseed}.

Lemma covers_set_reclen tsp rec v : covers tsp (set_reclen rec v) = covers tsp rec.
Proof. reflexivity. Qed.

Lemma covers_spec tsp rec :
  covers tsp rec = true <->
  ts_starttime tsp <= effstarttime rec /\ effendtime rec <= ts_endtime tsp.
Proof.
  unfold covers. rewrite andb_true_iff, Z.geb_le, Z.leb_le. tauto.
Qed.

(** A covered record is dropped by the comparison, whatever the pruning
    mode: its length becomes zero, the removed count of its file goes up
    by one and nothing else happens. *)
Lemma trim_seg_covered opts hptrace hpdelta files rec modcount tsp :
  covers tsp rec = true ->
  trim_seg opts hptrace hpdelta (files, rec, modcount) tsp =
  (alter bump_recrmcount (flp rec) files, set_reclen rec 0, modcount + 1).
Proof.
  intros Hc. unfold trim_seg. rewrite Hc. simpl.
  rewrite andb_false_r. reflexivity.
Qed.

(** Outside sample mode an uncovered record is left alone. *)
Lemma trim_seg_record_mode opts hptrace hpdelta files rec modcount tsp :
  prunedata opts <> "s"%char ->
  covers tsp rec = false ->
  trim_seg opts hptrace hpdelta (files, rec, modcount) tsp =
  (files, rec, modcount).
Proof.
  intros Hm Hc. unfold trim_seg. rewrite Hc.
  destruct (Ascii.eqb_spec (prunedata opts) "s"); [contradiction | reflexivity].
Qed.

(** In record mode the walk over the segments only ever zeroes the
    length, and does so exactly when some segment covers the record. *)
Lemma trim_rec_record_mode opts hptrace hpdelta segs :
  prunedata opts <> "s"%char ->
  forall files rec modcount,
    snd (fst (trim_rec opts hptrace hpdelta segs files rec modcount)) =
    if existsb (fun tsp => covers tsp rec) segs then set_reclen rec 0 else rec.
Proof.
  intros Hm. unfold trim_rec.
  assert (Hdropped : forall segs files rec modcount,
             snd (fst (fold_left (trim_seg opts hptrace hpdelta) segs
                                 (files, set_reclen rec 0, modcount)))
             = set_reclen rec 0).
  { clear segs. induction segs as [|tsp segs IH]; intros files rec modcount.
    - reflexivity.
    - cbn [fold_left]. destruct (covers tsp (set_reclen rec 0)) eqn:Hc.
      + rewrite trim_seg_covered by exact Hc. apply (IH _ (set_reclen rec 0)).
      + rewrite trim_seg_record_mode by assumption. apply IH. }
  induction segs as [|tsp segs IH]; intros files rec modcount.
  - reflexivity.
  - cbn [fold_left existsb]. destruct (covers tsp rec) eqn:Hc.
    + rewrite trim_seg_covered by exact Hc. simpl. apply Hdropped.
    + rewrite trim_seg_record_mode by assumption. simpl. apply IH.
Qed.

Lemma trim_chain_record_mode opts hptrace hpdelta segs :
  prunedata opts <> "s"%char ->
  forall recs files modcount,
    snd (fst (trim_chain opts hptrace hpdelta segs files recs modcount)) =
    map (fun rec =>
           if existsb (fun tsp => covers tsp rec) segs
           then set_reclen rec 0 else rec) recs.
Proof.
  intros Hm. induction recs as [|rec recs IH]; intros files modcount.
  - reflexivity.
  - cbn [trim_chain].
    pose proof (trim_rec_record_mode opts hptrace hpdelta segs Hm
                  files rec modcount) as Hr.
    destruct (trim_rec opts hptrace hpdelta segs files rec modcount)
      as [[files1 rec1] m1].
    specialize (IH files1 m1).
    destruct (trim_chain opts hptrace hpdelta segs files1 recs m1)
      as [[files2 recs2] m2].
    simpl in *. subst. reflexivity.
Qed.

(** The containment test is made segment by segment.  A comparison of a
    lower priority record with a coverage segment that contains its
    effective window sets the record's length to zero and counts it as
    removed in its file.  After [trimtraces] in record mode the records
    of the lower priority chain whose effective window lies within one
    segment are exactly the ones marked. *)
Lemma trimtraces_drops_covered opts files lptrace hptrace :
  let hpdelta := hpdelta_of hptrace in
  let segs := coverage hpdelta (hptimetol_of opts hpdelta) (private hptrace) in
  (forall files rec modcount tsp,
      covers tsp rec = true ->
      exists files',
        trim_seg opts hptrace hpdelta (files, rec, modcount) tsp
        = (files', set_reclen rec 0, modcount + 1)
        /\ files' !! flp rec = bump_recrmcount <$> files !! flp rec
        /\ forall k, k <> flp rec -> files' !! k = files !! k)
  /\ (prunedata opts <> "s"%char ->
      let recs' := snd (fst (trimtraces opts files lptrace hptrace)) in
      recs' = map (fun rec =>
                     if existsb (fun tsp => covers tsp rec) segs
                     then set_reclen rec 0 else rec) (private lptrace)
      /\ forall rec' tsp,
          In rec' recs' -> reclen rec' <> 0 -> In tsp segs ->
          ~ (ts_starttime tsp <= effstarttime rec'
             /\ effendtime rec' <= ts_endtime tsp)
          /\ (starttime rec' <= effstarttime rec' ->
              effendtime rec' <= endtime rec' ->
              ~ (ts_starttime tsp <= starttime rec'
                 /\ endtime rec' <= ts_endtime tsp))).
Proof.
  intros hpdelta segs. split.
  - intros fs rec modcount tsp Hc.
    exists (alter bump_recrmcount (flp rec) fs). split; [|split].
    + apply trim_seg_covered, Hc.
    + apply list_lookup_alter_eq.
    + intros k Hk. apply list_lookup_alter_ne. congruence.
  - intros Hm recs'.
    assert (Hmap : recs' = map (fun rec =>
                     if existsb (fun tsp => covers tsp rec) segs
                     then set_reclen rec 0 else rec) (private lptrace)).
    { subst recs'. unfold trimtraces. apply trim_chain_record_mode, Hm. }
    split; [exact Hmap|].
    intros rec' tsp Hin Hlen Hseg.
    rewrite Hmap in Hin. apply in_map_iff in Hin as [rec [Hrec _]].
    destruct (existsb (fun tsp => covers tsp rec) segs) eqn:Hex.
    + subst rec'. simpl in Hlen. contradiction.
    + subst rec'.
      assert (Hnc : covers tsp rec = false).
      { destruct (covers tsp rec) eqn:Hc; [|reflexivity].
        assert (existsb (fun tsp => covers tsp rec) segs = true)
          by (apply existsb_exists; exists tsp; auto).
        congruence. }
      assert (Hno : ~ (ts_starttime tsp <= effstarttime rec
                       /\ effendtime rec <= ts_endtime tsp)).
      { intros Hin. apply covers_spec in Hin. congruence. }
      split; [exact Hno|]. intros H1 H2 [H3 H4]. apply Hno. lia.
Qed.

(** The two crossing tests of sample mode, against a time [t] of the
    higher priority trace. *)
Lemma trim_seg_sample_unfold opts hptrace hpdelta files rec modcount tsp :
  prunedata opts = "s"%char -> reclen rec <> 0 -> covers tsp rec = false ->
  trim_seg opts hptrace hpdelta (files, rec, modcount) tsp =
  let s := (effstarttime rec <=? mst_starttime hptrace) &&
           (effendtime rec >=? mst_starttime hptrace) in
  let e := (effstarttime rec <=? mst_endtime hptrace) &&
           (effendtime rec >=? mst_endtime hptrace) in
  let '(files, rec, modcount) :=
    if s then (alter bump_rectrimcount (flp rec) files,
               set_newend rec (mst_starttime hptrace - hpdelta), modcount + 1)
    else (files, rec, modcount) in
  if e then (alter bump_rectrimcount (flp rec) files,
             set_newstart rec (mst_endtime hptrace + hpdelta), modcount + 1)
  else (files, rec, modcount).
Proof.
  intros Hm Hlen Hc. unfold trim_seg. rewrite Hc, Hm. simpl Ascii.eqb.
  destruct (Z.eqb_spec (reclen rec) 0); [contradiction|]. reflexivity.
Qed.

(** One comparison in sample mode, of a lower priority record that is
    not dropped with a coverage segment: if its effective window crosses
    the start time of the higher priority trace its [newend] becomes that
    start time less the sample period, if it crosses the end time of the
    trace its [newstart] becomes that end time plus the sample period,
    and the trimmed count of its file goes up by one for each of the
    two.  The segment's own bounds play no part. *)
Lemma trim_seg_sample_anchor opts hptrace files rec modcount tsp :
  prunedata opts = "s"%char -> reclen rec <> 0 -> covers tsp rec = false ->
  let hpdelta := hpdelta_of hptrace in
  let s := (effstarttime rec <=? mst_starttime hptrace) &&
           (effendtime rec >=? mst_starttime hptrace) in
  let e := (effstarttime rec <=? mst_endtime hptrace) &&
           (effendtime rec >=? mst_endtime hptrace) in
  exists files' rec',
    trim_seg opts hptrace hpdelta (files, rec, modcount) tsp
    = (files', rec', modcount + Z.b2z s + Z.b2z e)
    /\ newend rec' = (if s then mst_starttime hptrace - hpdelta else newend rec)
    /\ newstart rec' = (if e then mst_endtime hptrace + hpdelta else newstart rec)
    /\ reclen rec' = reclen rec
    /\ (forall f, files !! flp rec = Some f ->
         exists f', files' !! flp rec = Some f'
           /\ rectrimcount f' = rectrimcount f + Z.b2z s + Z.b2z e)
    /\ (forall tsp2, covers tsp2 rec = false ->
         trim_seg opts hptrace hpdelta (files, rec, modcount) tsp2
         = (files', rec', modcount + Z.b2z s + Z.b2z e)).
Proof.
  intros Hm Hlen Hc hpdelta s e.
  pose proof (fun t Ht => trim_seg_sample_unfold opts hptrace hpdelta files rec
                            modcount t Hm Hlen Ht) as Hu.
  cbv zeta in Hu. fold s e in Hu.
  destruct s, e; simpl in Hu; simpl Z.b2z; rewrite ?Z.add_0_r;
    eexists; eexists;
    (split; [apply Hu, Hc|]);
    (split; [reflexivity|]); (split; [reflexivity|]); (split; [reflexivity|]);
    (split; [|intros tsp2 Hc2; apply Hu, Hc2]);
    intros f Hf; simpl flp;
    rewrite ?list_lookup_alter_eq, ?Hf; simpl;
    eexists; (split; [reflexivity|]); simpl; lia.
Qed.

(** The decision of [prunetraces] between two overlapping traces of one
    channel, as the code takes it. *)
Lemma prune_pair_decides opts i j st mst imst :
  ps_traces st !! i = Some mst -> ps_traces st !! j = Some imst ->
  network mst = network imst ->
  MS_ISRATETOLERABLE (samprate mst) (samprate imst) = true ->
  mst_endtime mst > mst_starttime imst ->
  mst_starttime mst < mst_endtime imst ->
  forall priority,
    priority =
      (let p := if bestquality opts
                then qcompare (dataquality mst) (dataquality imst)
                else ps_priority st in
       if p =? 0
       then if (mst_endtime mst - mst_starttime mst) >?
               (mst_endtime imst - mst_starttime imst)
            then -1 else 1
       else p) ->
    prune_pair opts i j st =
    if priority =? 1
    then let '(files, recs, _) := trimtraces opts (ps_files st) mst imst in
         mkPruneState files (<[i := set_private mst recs]> (ps_traces st))
                      priority
    else let '(files, recs, _) := trimtraces opts (ps_files st) imst mst in
         mkPruneState files (<[j := set_private imst recs]> (ps_traces st))
                      priority.
Proof.
  intros Hi Hj Hk Hr Ho1 Ho2 priority ->.
  unfold prune_pair. rewrite Hi, Hj, Hk, Hr, String.eqb_refl. simpl.
  destruct (Z.gtb_spec (mst_endtime mst) (mst_starttime imst)); [|lia].
  destruct (Z.ltb_spec (mst_starttime mst) (mst_endtime imst)); [|lia].
  reflexivity.
Qed.

Lemma qcompare_refl q : qcompare q q = 0.
Proof. unfold qcompare. rewrite Ascii.eqb_refl. reflexivity. Qed.

(** C2 (amended).  For two overlapping traces of one channel with
    tolerable rates, the first before the second in group order: when
    the best quality option is on and their qualities are equal, or when
    it is off and no earlier pair has set the priority, and their bounds
    span the same length, the second trace is the higher priority one and
    the records of the first are the ones trimmed. *)
Theorem prune_pair_tie_favours_second opts i j st mst imst :
  ps_traces st !! i = Some mst -> ps_traces st !! j = Some imst ->
  network mst = network imst ->
  MS_ISRATETOLERABLE (samprate mst) (samprate imst) = true ->
  mst_endtime mst > mst_starttime imst ->
  mst_starttime mst < mst_endtime imst ->
  (bestquality opts = true /\ dataquality mst = dataquality imst)
  \/ (bestquality opts = false /\ ps_priority st = 0) ->
  mst_endtime mst - mst_starttime mst = mst_endtime imst - mst_starttime imst ->
  prune_pair opts i j st =
  let '(files, recs, _) := trimtraces opts (ps_files st) mst imst in
  mkPruneState files (<[i := set_private mst recs]> (ps_traces st)) 1.
Proof.
  intros Hi Hj Hk Hr Ho1 Ho2 Hq Hlen.
  rewrite (prune_pair_decides opts i j st mst imst Hi Hj Hk Hr Ho1 Ho2 1).
  - reflexivity.
  - assert (Hp : (if bestquality opts
                  then qcompare (dataquality mst) (dataquality imst)
                  else ps_priority st) = 0).
    { destruct Hq as [[-> ->] | [-> ->]]; [apply qcompare_refl | reflexivity]. }
    cbv zeta. rewrite Hp, Hlen. simpl.
    destruct (Z.gtb_spec (mst_endtime imst - mst_starttime imst)
                         (mst_endtime imst - mst_starttime imst)); [lia|].
    reflexivity.
Qed.

(** With the best quality option off the priority of the previous pair
    is still in force: once it is -1 the first trace of every later
    overlapping pair has priority, whatever the lengths. *)
Lemma prune_pair_stale_priority opts i j st mst imst :
  ps_traces st !! i = Some mst -> ps_traces st !! j = Some imst ->
  network mst = network imst ->
  MS_ISRATETOLERABLE (samprate mst) (samprate imst) = true ->
  mst_endtime mst > mst_starttime imst ->
  mst_starttime mst < mst_endtime imst ->
  bestquality opts = false -> ps_priority st = -1 ->
  prune_pair opts i j st =
  let '(files, recs, _) := trimtraces opts (ps_files st) imst mst in
  mkPruneState files (<[j := set_private imst recs]> (ps_traces st)) (-1).
Proof.
  intros Hi Hj Hk Hr Ho1 Ho2 Hb Hp.
  rewrite (prune_pair_decides opts i j st mst imst Hi Hj Hk Hr Ho1 Ho2 (-1)).
  - reflexivity.
  - rewrite Hb, Hp. reflexivity.
Qed.

(** A higher priority trace without a live record has no segment, and
    the lower priority records are then not looked at. *)
Lemma trim_rec_no_coverage opts hptrace hpdelta files rec modcount :
  trim_rec opts hptrace hpdelta [] files rec modcount = (files, rec, modcount).
Proof. reflexivity. Qed.

Lemma coverage_all_dropped hpdelta hptimetol recs :
  Forall (fun rec => reclen rec = 0) recs ->
  coverage hpdelta hptimetol recs = [].
Proof.
  intros Hall. unfold coverage.
  assert (Hfold : fold_left (cover_step hpdelta hptimetol) recs ([], true)
                  = ([], true)).
  { induction Hall as [|rec recs Hrec _ IH]; [reflexivity|].
    cbn [fold_left]. unfold cover_step at 2. rewrite Hrec. simpl. exact IH. }
  rewrite Hfold. reflexivity.
Qed.

End PrunerFacts.

(** ** The pruner on the example inputs *)

(** Two traces of equal quality and equal bounds: the premises of the tie
    rule hold, and pruning drops the record of the first trace, counts it
    against the first file and leaves the second trace alone. *)
Lemma tie_first_trace_is_trimmed :
  network tie_first = network tie_second
  /\ dataquality tie_first = dataquality tie_second
  /\ mst_endtime tie_first - mst_starttime tie_first
     = mst_endtime tie_second - mst_starttime tie_second
  /\ prunetraces (ex_opts "r") ex_files [tie_first; tie_second]
     = (0, [bump_recrmcount file_a; file_b],
        [set_private tie_first [mkRecord 0 0 0 0 10000000 "D" 0 0];
         tie_second])
  /\ prunetraces (ex_opts "r") ex_files [tie_first; tie_second]
     <> (0, [file_a; bump_recrmcount file_b],
         [tie_first;
          set_private tie_second [mkRecord 1 0 0 0 10000000 "D" 0 0]]).
Proof.
  repeat split; try reflexivity.
  intros E. apply (f_equal (fun x => snd (fst x))) in E.
  cbv in E. discriminate.
Qed.

Lemma prune_pair_tie_favours_second_witness :
  prune_pair (ex_opts "r") 0 1
             (mkPruneState ex_files [tie_first; tie_second] 0)
  = let '(files, recs, _) :=
      trimtraces (ex_opts "r") ex_files tie_first tie_second in
    mkPruneState files
      (<[0%nat := set_private tie_first recs]> [tie_first; tie_second]) 1.
Proof.
  apply (prune_pair_tie_favours_second (ex_opts "r") 0 1
           (mkPruneState ex_files [tie_first; tie_second] 0)
           tie_first tie_second).
  - reflexivity.
  - reflexivity.
  - reflexivity.
  - reflexivity.
  - simpl. lia.
  - simpl. lia.
  - left. split; reflexivity.
  - reflexivity.
Defined.

(** C3.  The coverage of [spanless_hp] is continuous from 0 s to 20 s,
    but the record without span at 10 s starts a second segment, so that
    the coverage falls into two segments that meet at 10 s.  A lower
    priority record from 2 s to 8 s lies in the first segment: it is
    marked and the removed count of its file becomes 1.  The record of
    [spanless_lp], from 5 s to 15 s, survives record level pruning
    unmarked and uncounted, although every tick of its [start, end] lies
    in one of the segments. *)
Theorem union_coverage_survivor :
  let hpdelta := hpdelta_of spanless_hp in
  let segs := coverage hpdelta (hptimetol_of (ex_opts "r") hpdelta)
                       (private spanless_hp) in
  segs = [mkTimeSegment 0 10000000; mkTimeSegment 10000000 20000000]
  /\ trimtraces (ex_opts "r") ex_files inner_lp spanless_hp
     = ([file_a; mkFilelink "b.mseed" false None false 0 0 1 0 0 0 0],
        [mkRecord 1 0 0 2000000 8000000 "R" 0 0], 1)
  /\ prunetraces (ex_opts "r") ex_files [spanless_hp; spanless_lp]
     = (0, ex_files, [spanless_hp; spanless_lp])
  /\ forall rec, In rec (private spanless_lp) ->
       reclen rec <> 0
       /\ forall t, starttime rec <= t <= endtime rec ->
            exists tsp, In tsp segs
                        /\ ts_starttime tsp <= t <= ts_endtime tsp.
Proof.
  intros hpdelta segs.
  assert (Hsegs : segs = [mkTimeSegment 0 10000000;
                          mkTimeSegment 10000000 20000000]) by reflexivity.
  split; [exact Hsegs|]. split; [reflexivity|]. split; [reflexivity|].
  intros rec [<- | []]. split; [discriminate|].
  intros t Ht. simpl in Ht.
  destruct (Z_le_gt_dec t 10000000).
  - exists (mkTimeSegment 0 10000000).
    split; [rewrite Hsegs; simpl; auto | simpl; lia].
  - exists (mkTimeSegment 10000000 20000000).
    split; [rewrite Hsegs; simpl; auto | simpl; lia].
Qed.

(** The same with the record without span at 11 s, the time at which
    the next sample is due: the segments are then 0 s to 11 s and 11 s
    to 20 s, and the record from 5 s to 15 s survives. *)
Lemma late_spanless_survivor :
  coverage (hpdelta_of late_spanless_hp)
           (hptimetol_of (ex_opts "r") (hpdelta_of late_spanless_hp))
           (private late_spanless_hp)
  = [mkTimeSegment 0 11000000; mkTimeSegment 11000000 20000000]
  /\ prunetraces (ex_opts "r") ex_files [late_spanless_hp; spanless_lp]
     = (0, ex_files, [late_spanless_hp; spanless_lp]).
Proof. split; reflexivity. Qed.

(** ** Indexer and splitter *)

Section IndexerFacts.
Context `{Libmseed}.

(** The start time test skips the records that begin after the window
    start, the end time test those that end after the window end. *)
Lemma skip_starttime_iff opts recstarttime :
  skip_starttime opts recstarttime = true <->
  opt_starttime opts <> HPTERROR /\ opt_starttime opts < recstarttime.
Proof.
  unfold skip_starttime. rewrite andb_true_iff, negb_true_iff.
  rewrite Z.eqb_neq, Z.ltb_lt. tauto.
Qed.

Lemma skip_endtime_iff opts recendtime :
  skip_endtime opts recendtime = true <->
  opt_endtime opts <> HPTERROR /\ opt_endtime opts < recendtime.
Proof.
  unfold skip_endtime. rewrite andb_true_iff, negb_true_iff.
  rewrite Z.eqb_neq, Z.gtb_ltb, Z.ltb_lt. tauto.
Qed.

(** A record that begins before a set window start and passes the other
    tests is indexed, whatever the pruning mode. *)
Lemma early_record_is_indexed fuel opts files fl rr pl :
  opt_starttime opts <> HPTERROR ->
  rr_recstarttime rr < opt_starttime opts ->
  index_record fuel opts files fl rr pl <> Some (Skipped "starttime").
Proof.
  intros Hset Hlt. unfold index_record.
  destruct (skip_starttime opts (rr_recstarttime rr)) eqn:Hs.
  - apply skip_starttime_iff in Hs. lia.
  - repeat match goal with
           | |- context [if ?b then _ else _] => destruct b
           | |- context [match ?o with Some _ => _ | None => _ end] =>
               destruct o
           | |- context [let '(_, _) := ?p in _] => destruct p
           end; discriminate.
Qed.


(** With a calendar whose boundaries lie after the time they are taken
    from, the loop returns for every record whose effective start is not
    before 1970. *)
Lemma split_loop_returns code hpdelta :
  (forall t b, split_boundary code t = Some b -> t < b) ->
  forall n chain rec files,
    0 <= effstarttime rec ->
    endtime rec - effstarttime rec < Z.of_nat n ->
    exists fuel result,
      split_loop fuel code hpdelta chain rec files = Some result.
Proof.
  intros Hafter. induction n as [|n IH]; intros chain rec files Hpos Hn.
  - exists 1%nat. cbn [split_loop].
    destruct (split_boundary code (effstarttime rec)) as [b|] eqn:Hb.
    + apply Hafter in Hb.
      destruct (Z.gtb_spec (endtime rec) b); [lia | eauto].
    + eauto.
  - destruct (split_boundary code (effstarttime rec)) as [b|] eqn:Hb.
    + pose proof (Hafter _ _ Hb) as Hlt.
      destruct (Z.gtb_spec (endtime rec) b) as [Hgt | Hle].
      * destruct (IH (chain ++ [set_newend rec (b - hpdelta)])
                     (set_newstart rec b)
                     (alter bump_recsplitcount (flp rec) files))
          as (fuel & result & Hres).
        { rewrite effstarttime_set by lia. lia. }
        { rewrite effstarttime_set by lia. simpl. lia. }
        exists (S fuel), result. cbn [split_loop]. rewrite Hb.
        destruct (Z.gtb_spec (endtime rec) b); [exact Hres | lia].
      * exists 1%nat. cbn [split_loop]. rewrite Hb.
        destruct (Z.gtb_spec (endtime rec) b); [lia | eauto].
    + exists 1%nat. cbn [split_loop]. rewrite Hb. eauto.
Qed.

(** When the boundary after the start of an unadjusted record is tick 0
    and the record ends later, the copy made at the boundary is again an
    unadjusted record with the same start: the loop never returns. *)
Lemma split_loop_epoch_never_returns code hpdelta rec :
  newstart rec = 0 ->
  split_boundary code (starttime rec) = Some 0 ->
  endtime rec > 0 ->
  forall fuel chain files,
    split_loop fuel code hpdelta chain rec files = None.
Proof.
  intros Hns Hb Hend fuel. revert rec Hns Hb Hend.
  induction fuel as [|fuel IH]; intros rec Hns Hb Hend chain files.
  - reflexivity.
  - cbn [split_loop]. rewrite (effstarttime_unset rec Hns), Hb.
    destruct (Z.gtb_spec (endtime rec) 0); [|lia].
    apply IH.
    + reflexivity.
    + exact Hb.
    + exact Hend.
Qed.

(** With a split code set, every record that passes the tests and fits
    its trace goes through the split loop, alone on its new chain. *)
Lemma index_record_splits fuel opts files fl rr pl whence :
  skip_starttime opts (rr_recstarttime rr) = false ->
  skip_endtime opts (rr_recendtime rr) = false ->
  skip_match opts (rr_srcname rr) = false ->
  skip_reject opts (rr_srcname rr) = false ->
  whence_of pl (rr_recstarttime rr) (rr_recendtime rr) = Some whence ->
  splitboundary opts <> NUL ->
  index_record fuel opts files fl rr pl =
  match split_loop fuel (splitboundary opts)
          (if rate_true (rr_samprate rr) then hpperiod (rr_samprate rr) else 0)
          []
          (window_trim opts
             (mkRecord fl (rr_fpos rr) (rr_reclen rr) (rr_recstarttime rr)
                       (rr_recendtime rr) (rr_dataquality rr) 0 0))
          files with
  | Some (chain, files) => Some (Placed whence chain files)
  | None => None
  end.
Proof.
  intros H1 H2 H3 H4 Hw Hcode. unfold index_record.
  rewrite H1, H2, H3, H4, Hw.
  destruct (Ascii.eqb_spec (splitboundary opts) NUL); [contradiction|].
  reflexivity.
Qed.

(** The window block of sample mode never changes the new record: its
    assignments are guarded by a new start or end that is already set. *)
Lemma window_trim_fresh opts fl fpos len t1 t2 q :
  window_trim opts (mkRecord fl fpos len t1 t2 q 0 0)
  = mkRecord fl fpos len t1 t2 q 0 0.
Proof.
  assert (Hsame : forall (b : bool) (x : Record_s), (if b then x else x) = x)
    by (intros []; reflexivity).
  unfold window_trim.
  destruct (Ascii.eqb (prunedata opts) "s"); [|reflexivity].
  cbn. rewrite Hsame. cbn. rewrite Hsame. reflexivity.
Qed.


End IndexerFacts.

(** C1.  With the window start set to 100 s and record level pruning, a
    record from 50 s to 80 s, which begins before the window start, is
    indexed, and a record from 150 s to 180 s, which begins after it, is
    skipped.  With sample level pruning and the window end set to 100 s,
    a record from 50 s to 150 s is skipped by the end time test. *)
Theorem window_tests_on_examples :
  index_record 1 (window_opts "r" 100000000 (@HPTERROR ref_libmseed)) ex_files
               0 (ex_read 50000000 80000000) (new_trace 50000000 80000000)
  = Some (Placed 0 [mkRecord 0 0 512 50000000 80000000 "D" 0 0] ex_files)
  /\ index_record 1 (window_opts "r" 100000000 (@HPTERROR ref_libmseed))
                  ex_files 0 (ex_read 150000000 180000000)
                  (new_trace 150000000 180000000)
     = Some (Skipped "starttime")
  /\ index_record 1 (window_opts "s" (@HPTERROR ref_libmseed) 100000000)
                  ex_files 0 (ex_read 50000000 150000000)
                  (new_trace 50000000 150000000)
     = Some (Skipped "endtime").
Proof. repeat split; reflexivity. Qed.

(** The calendar of [ref_libmseed] puts every boundary after the time it
    is taken from. *)
Lemma ref_boundary_after code t b :
  @split_boundary ref_libmseed code t = Some b -> t < b.
Proof.
  unfold split_boundary. simpl.
  unfold ref_btime2hptime, ref_hptime2btime. simpl.
  pose proof (Z.div_mod t 1000000 ltac:(lia)) as E0.
  pose proof (Z.mod_pos_bound t 1000000 ltac:(lia)) as B0.
  set (secs := t / 1000000) in *.
  pose proof (Z.div_mod secs 86400 ltac:(lia)) as E1.
  pose proof (Z.mod_pos_bound secs 86400 ltac:(lia)) as B1.
  pose proof (Z.div_mod secs 3600 ltac:(lia)) as E2.
  pose proof (Z.mod_pos_bound secs 3600 ltac:(lia)) as B2.
  pose proof (Z.div_mod secs 60 ltac:(lia)) as E3.
  pose proof (Z.mod_pos_bound secs 60 ltac:(lia)) as B3.
  pose proof (Z.div_mod (secs / 3600) 24 ltac:(lia)) as E4.
  pose proof (Z.mod_pos_bound (secs / 3600) 24 ltac:(lia)) as B4.
  pose proof (Z.div_mod (secs / 60) 60 ltac:(lia)) as E5.
  pose proof (Z.mod_pos_bound (secs / 60) 60 ltac:(lia)) as B5.
  assert (D1 : secs / 3600 / 24 = secs / 86400)
    by (rewrite Z.div_div by lia; reflexivity).
  assert (D2 : secs / 60 / 60 = secs / 3600)
    by (rewrite Z.div_div by lia; reflexivity).
  rewrite D1 in E4. rewrite D2 in E5.
  destruct (Ascii.eqb code "d"); [intros [= <-]; lia|].
  destruct (Ascii.eqb code "h"); [intros [= <-]; lia|].
  destruct (Ascii.eqb code "m"); [intros [= <-]; lia|].
  discriminate.
Qed.


(** On the reference calendar the boundary after the start of
    [epoch_rec] is tick 0, and no amount of fuel splits the record. *)
Lemma epoch_rec_never_splits fuel :
  @split_loop ref_libmseed fuel "d" 1000000 [] epoch_rec ex_files = None.
Proof.
  apply split_loop_epoch_never_returns; [reflexivity | reflexivity |].
  simpl. lia.
Qed.

(** ** Emitter *)

Section EmitterFacts.
Context `{Libmseed} `{!Codec} `{FileSys}.

(** Once a record unpacks, [trimrecord] trims, repacks and returns 0:
    the sanity test only decides whether a diagnostic is written, and
    the result of the packer is not looked at. *)
Lemma trimrecord_after_unpack rec recordbuf msr :
  msr_unpack recordbuf (reclen rec) = Some msr ->
  let msr1 := if negb (newstart rec =? 0) then trim_front rec msr else msr in
  let msr2 := if negb (newend rec =? 0) then trim_back rec msr1 else msr1 in
  trimrecord rec recordbuf =
  (0, fold_left record_handler (handled (msr_pack msr2)) recordbuf,
   if sanity_violation rec
   then [Stderr "ERROR: problem with new start/end record times, skipping."]
   else []).
Proof. intros Hu. unfold trimrecord. rewrite Hu. reflexivity. Qed.

Lemma trimrecord_returns_zero rec recordbuf msr :
  msr_unpack recordbuf (reclen rec) = Some msr ->
  fst (fst (trimrecord rec recordbuf)) = 0.
Proof. intros Hu. rewrite (trimrecord_after_unpack _ _ _ Hu). reflexivity. Qed.

(** A record handler that is never called leaves the buffer alone. *)
Lemma trimrecord_nothing_packed rec recordbuf msr :
  msr_unpack recordbuf (reclen rec) = Some msr ->
  (forall m, handled (msr_pack m) = []) ->
  snd (fst (trimrecord rec recordbuf)) = recordbuf.
Proof.
  intros Hu Hp. rewrite (trimrecord_after_unpack _ _ _ Hu). simpl.
  rewrite Hp. reflexivity.
Qed.

(** The record loop body for a record that is read without trouble and
    carries no adjustment: the buffer goes to the output as read. *)
Lemma write_record_unadjusted opts ofp mst st rec f data :
  newstart rec = 0 -> newend rec = 0 ->
  ws_stopflag st = false ->
  0 < reclen rec <= recordbuf_size ->
  ws_files st !! flp rec = Some f ->
  infp f || fopen_ok (infilename f) "rb" = true ->
  fseeko_ok (infilename f) (offset rec) = true ->
  fread (infilename f) (offset rec) (reclen rec) = Some data ->
  write_record opts ofp mst st rec =
  write_out opts ofp mst st rec f (alter open_infp (flp rec) (ws_files st))
            (record_handler (ws_recordbuf st) data) (ws_log st).
Proof.
  intros Hns Hne Hstop Hlen Hf Hopen Hseek Hread.
  unfold write_record. rewrite Hstop, Hf, Hopen, Hseek, Hread, Hns, Hne.
  assert (Hsz : to_size_t (reclen rec) = reclen rec).
  { unfold to_size_t, recordbuf_size in *. apply Z.mod_small. lia. }
  rewrite Hsz.
  destruct (Z.eqb_spec (reclen rec) 0); [lia|].
  destruct (Z.gtb_spec (reclen rec) recordbuf_size); [lia|].
  reflexivity.
Qed.

(** With no restamp, no archive and no replacement, what reaches the
    single output is the data as read. *)
Lemma write_out_plain opts s mst st rec f files data log :
  restampqind opts = NUL -> archiveroot opts = 0%nat ->
  replaceinput opts = false ->
  length data = Z.to_nat (reclen rec) ->
  fwrite_ok s data = true ->
  ws_log (write_out opts (Some s) mst st rec f files
                    (record_handler (ws_recordbuf st) data) log)
  = log ++ [WriteOutput s data].
Proof.
  intros Hq Ha Hr Hlen Hw. unfold write_out, record_handler.
  rewrite Hq, Ha, Hr. simpl.
  rewrite (take_app_length' data _ _ (eq_sym Hlen)), Hw. reflexivity.
Qed.

(** The closing loop calls [unlink] on the input name of a file exactly
    when the no backups option is on and there is no single output
    stream; the option to replace the input is not consulted. *)
Lemma close_file_unlinks opts ofp (done : list Filelink) (i : nat) f :
  In (Unlink (infilename f))
     (snd (fst (close_file opts ofp (done, [], i) f)))
  <-> nobackups opts = true /\ ofp = None.
Proof.
  unfold close_file.
  destruct (infp f), (outfp f), (nobackups opts), ofp, (unlink_ok (infilename f));
    simpl; split; intros Hx; try tauto;
    repeat match goal with
           | H : _ \/ _ |- _ => destruct H
           | H : _ /\ _ |- _ => destruct H
           end; try discriminate; try contradiction; auto.
Qed.

End EmitterFacts.

(** ** The emitter on the example inputs *)

(** C5.  [bad_trim_rec] has its new start equal to its new end, against
    the sanity test.  The diagnostic is written, and the record is
    trimmed and repacked all the same: what goes out starts with the
    one sample that is left, not with the first byte of the record. *)
Theorem sanity_violation_still_trims :
  sanity_violation bad_trim_rec = true
  /\ ws_log (@writetraces ref_libmseed ref_codec (ref_filesys ex_disk)
               stdout_opts [ex_trace "D" 0 7000000 [bad_trim_rec]]
               (ex_wstate file_a))
     = [Stderr "ERROR: problem with new start/end record times, skipping.";
        WriteOutput StdoutStream [x04; x02; x03; x04; x05; x06; x07; x08];
        CloseIn 0; CloseOutput StdoutStream].
Proof. split; vm_compute; reflexivity. Qed.

(** C7.  With a packer that fails, [trimrecord] still returns 0 for
    [front_trim_rec]; the record is written with the bytes as read, and
    the next record follows. *)
Theorem failed_pack_still_written :
  fst (fst (@trimrecord ref_libmseed failing_pack_codec front_trim_rec
              (take 8 (ex_disk "a.mseed")))) = 0
  /\ ws_log (@writetraces ref_libmseed failing_pack_codec (ref_filesys ex_disk)
               stdout_opts
               [ex_trace "D" 0 15000000 [front_trim_rec; plain_rec]]
               (ex_wstate file_a))
     = [WriteOutput StdoutStream [x01; x02; x03; x04; x05; x06; x07; x08];
        WriteOutput StdoutStream [x09; x0a; x0b; x0c; x0d; x0e; x0f; x10];
        CloseIn 0; CloseOutput StdoutStream].
Proof. split; vm_compute; reflexivity. Qed.

(** C8.  Without replacement of the input, with the no backups option
    and an archive as the only output, the input file itself is
    unlinked after its record has gone to the archive.  With
    replacement, no backups and a single output file, the renamed
    original is not unlinked. *)
Theorem nobackups_unlinks_without_replace :
  ws_log (@writetraces ref_libmseed ref_codec (ref_filesys ex_disk)
            archive_nobackups_opts [ex_trace "D" 8000000 15000000 [plain_rec]]
            (ex_wstate file_a))
  = [WriteArchive 0 [x09; x0a; x0b; x0c; x0d; x0e; x0f; x10];
     CloseIn 0; Unlink "a.mseed"]
  /\ ws_log (@writetraces ref_libmseed ref_codec (ref_filesys ex_disk)
               replace_nobackups_output_opts
               [ex_trace "D" 8000000 15000000 [plain_rec]]
               (ex_wstate file_a_orig))
     = [WriteOutput StdoutStream [x09; x0a; x0b; x0c; x0d; x0e; x0f; x10];
        WriteReplace 0 [x09; x0a; x0b; x0c; x0d; x0e; x0f; x10];
        CloseIn 0; CloseOut 0; CloseOutput StdoutStream].
Proof. split; vm_compute; reflexivity. Qed.

(** ** POD mode and the open file limit *)

Lemma to_rlim_small x : 0 <= x < 2 ^ 64 -> to_rlim x = x.
Proof. intros Hx. unfold to_rlim. apply Z.mod_small. exact Hx. Qed.

Lemma to_int_small x : - 2 ^ 31 <= x < 2 ^ 31 -> to_int x = x.
Proof.
  intros Hx. unfold to_int.
  rewrite Z.mod_small by lia. lia.
Qed.

(** C9 (amended).  In POD mode, for each channel group of [filecount]
    files: if the soft limit on open files is below twice the file count
    plus 20 and the system accepts the change, the limit becomes that
    value and the group is read and processed; if the limit is already
    that high it is left alone.  If the query or the change fails, the
    file list is freed and the group is passed over: its files are
    neither read nor processed.  A run on files named on the command
    line does not touch the limit. *)
Theorem processpod_limit (modsummary : bool) os filecount :
  0 < filecount < 2 ^ 29 ->
  let limit := filecount * 2 + 20 in
  let run := [ReadFiles; ProcessTraces; UpdateRequestTimes]
             ++ (if modsummary then [PrintModSummary] else [])
             ++ [FreeFileList] in
  (getrlimit_ok os = true -> rlim_cur os < limit ->
   setrlimit_ok os limit = true ->
   processpod_group modsummary os filecount
   = (mkOS limit (getrlimit_ok os) (setrlimit_ok os), run, []))
  /\ (getrlimit_ok os = true -> limit <= rlim_cur os ->
      to_int (rlim_cur os) <> -1 ->
      processpod_group modsummary os filecount = (os, run, []))
  /\ (getrlimit_ok os = false
      \/ (rlim_cur os < limit /\ setrlimit_ok os limit = false) ->
      exists msg,
        processpod_group modsummary os filecount
        = (os, [FreeFileList], [Stderr msg]))
  /\ fst (main_files modsummary os) = os.
Proof.
  intros Hfc limit run.
  assert (Hr : to_rlim limit = limit) by (apply to_rlim_small; subst limit; lia).
  assert (Hi : to_int limit = limit) by (apply to_int_small; subst limit; lia).
  unfold processpod_group, setofilelimit. fold limit. rewrite Hr.
  repeat split.
  - intros Hg Hlt Hs. rewrite Hg, Hs. simpl.
    destruct (Z.ltb_spec (rlim_cur os) limit); [|lia].
    rewrite Hi. destruct (Z.eqb_spec limit (-1)); [subst limit; lia|].
    reflexivity.
  - intros Hg Hge Hne. rewrite Hg. simpl.
    destruct (Z.ltb_spec (rlim_cur os) limit); [lia|].
    destruct (Z.eqb_spec (to_int (rlim_cur os)) (-1)); [contradiction|].
    reflexivity.
  - intros [Hg | [Hlt Hs]].
    + rewrite Hg. simpl. eexists. reflexivity.
    + destruct (getrlimit_ok os); simpl.
      * destruct (Z.ltb_spec (rlim_cur os) limit); [|lia].
        rewrite Hs. simpl. eexists. reflexivity.
      * eexists. reflexivity.
Qed.

(** A group of two files in a process that may not change its limit of
    16: the change to 24 is refused, the file list is freed, and the
    group is neither read nor processed. *)
Lemma refused_limit_skips_group :
  processpod_group false os_refusing 2
  = (os_refusing, [FreeFileList],
     [Stderr "ERROR setrlimit failed to set open file limit"])
  /\ ~ In ProcessTraces (snd (fst (processpod_group false os_refusing 2))).
Proof.
  split; [reflexivity|].
  simpl. intros [E | []]. discriminate.
Qed.

Lemma processpod_limit_witness :
  processpod_group false os_granting 2
  = (mkOS 24 true (setrlimit_ok os_granting),
     [ReadFiles; ProcessTraces; UpdateRequestTimes; FreeFileList], []).
Proof.
  assert (Hfc : 0 < 2 < 2 ^ 29) by lia.
  destruct (processpod_limit false os_granting 2 Hfc) as [Hraise _].
  apply Hraise; [reflexivity | simpl; lia | reflexivity].
Defined.

(** * Further properties *)

(** ** Quality order and priority *)

(** X1.  [qcompare] returns 0 exactly for equal codes.  On the codes D,
    R and Q it is antisymmetric and transitive, with Q before D before
    R. *)
Theorem qcompare_order :
  (forall q1 q2, qcompare q1 q2 = 0 <-> q1 = q2)
  /\ (forall q1 q2,
        In q1 ["D"; "R"; "Q"]%char -> In q2 ["D"; "R"; "Q"]%char ->
        qcompare q2 q1 = - qcompare q1 q2)
  /\ (forall q1 q2 q3,
        In q1 ["D"; "R"; "Q"]%char -> In q2 ["D"; "R"; "Q"]%char ->
        In q3 ["D"; "R"; "Q"]%char ->
        qcompare q1 q2 = -1 -> qcompare q2 q3 = -1 -> qcompare q1 q3 = -1)
  /\ qcompare "Q" "D" = -1 /\ qcompare "D" "R" = -1 /\ qcompare "Q" "R" = -1.
Proof.
  split; [|split; [|split]].
  - intros q1 q2. unfold qcompare.
    destruct (Ascii.eqb_spec q1 q2) as [->|Hne]; [tauto|].
    split; [|contradiction].
    repeat match goal with
           | |- context [if ?b then _ else _] => destruct b
           end; discriminate.
  - intros q1 q2 H1 H2. simpl in H1, H2.
    repeat match goal with
           | H : _ \/ _ |- _ => destruct H
           | H : False |- _ => destruct H
           end; subst; reflexivity.
  - intros q1 q2 q3 H1 H2 H3. simpl in H1, H2, H3.
    repeat match goal with
           | H : _ \/ _ |- _ => destruct H
           | H : False |- _ => destruct H
           end; subst; vm_compute; congruence.
  - repeat split.
Qed.

Section PriorityFacts.
Context `{Libmseed}.

(** X2.  With the best quality option on, between two overlapping
    traces of one channel the trace of better quality has priority,
    whichever comes first and whatever the lengths: the records of the
    other one are trimmed.  Between equal qualities a strictly longer
    first trace has priority. *)
Theorem prune_pair_priority opts i j st mst imst :
  ps_traces st !! i = Some mst -> ps_traces st !! j = Some imst ->
  network mst = network imst ->
  MS_ISRATETOLERABLE (samprate mst) (samprate imst) = true ->
  mst_endtime mst > mst_starttime imst ->
  mst_starttime mst < mst_endtime imst ->
  bestquality opts = true ->
  let first_trimmed p :=
    let '(files, recs, _) := trimtraces opts (ps_files st) mst imst in
    mkPruneState files (<[i := set_private mst recs]> (ps_traces st)) p in
  let second_trimmed p :=
    let '(files, recs, _) := trimtraces opts (ps_files st) imst mst in
    mkPruneState files (<[j := set_private imst recs]> (ps_traces st)) p in
  let q1 := dataquality mst in
  let q2 := dataquality imst in
  ((q1 = "Q"%char /\ (q2 = "D"%char \/ q2 = "R"%char))
   \/ (q1 = "D"%char /\ q2 = "R"%char) ->
   prune_pair opts i j st = second_trimmed (-1))
  /\ ((q2 = "Q"%char /\ (q1 = "D"%char \/ q1 = "R"%char))
      \/ (q2 = "D"%char /\ q1 = "R"%char) ->
      prune_pair opts i j st = first_trimmed 1)
  /\ (q1 = q2 ->
      mst_endtime mst - mst_starttime mst
      > mst_endtime imst - mst_starttime imst ->
      prune_pair opts i j st = second_trimmed (-1)).
Proof.
  intros Hi Hj Hk Hr Ho1 Ho2 Hb first_trimmed second_trimmed q1 q2.
  pose proof (prune_pair_decides opts i j st mst imst Hi Hj Hk Hr Ho1 Ho2)
    as Hd.
  rewrite Hb in Hd. cbv zeta in Hd. fold q1 q2 in Hd.
  split; [|split].
  - intros Hq. rewrite (Hd (-1)); [reflexivity|].
    destruct Hq as [[-> [-> | ->]] | [-> ->]]; reflexivity.
  - intros Hq. rewrite (Hd 1); [reflexivity|].
    destruct Hq as [[-> [-> | ->]] | [-> ->]]; reflexivity.
  - intros Hq Hlen. rewrite (Hd (-1)); [reflexivity|].
    rewrite Hq, qcompare_refl. simpl.
    destruct (Z.gtb_spec (mst_endtime mst - mst_starttime mst)
                         (mst_endtime imst - mst_starttime imst)); [|lia].
    reflexivity.
Qed.

End PriorityFacts.

(** ** What pruning leaves alone *)

Lemma marked_refl sample r : marked sample r r.
Proof. unfold marked. tauto. Qed.

Lemma marked_trans sample r1 r2 r3 :
  marked sample r1 r2 -> marked sample r2 r3 -> marked sample r1 r3.
Proof.
  unfold marked.
  intros (A1 & A2 & A3 & A4 & A5 & A6 & A7) (B1 & B2 & B3 & B4 & B5 & B6 & B7).
  repeat split; try congruence.
  - destruct A6, B6; [left | right | right | right]; congruence.
  - specialize (A7 H). specialize (B7 H). destruct A7, B7. congruence.
  - specialize (A7 H). specialize (B7 H). destruct A7, B7. congruence.
Qed.

Lemma counted_refl f : counted f f.
Proof. unfold counted. repeat split; lia. Qed.

Lemma counted_trans f1 f2 f3 : counted f1 f2 -> counted f2 f3 -> counted f1 f3.
Proof.
  unfold counted. intros H12 H23.
  repeat match goal with H : _ /\ _ |- _ => destruct H end.
  repeat split; try congruence; lia.
Qed.

Lemma counted_bump_rm f f' : counted f f' -> counted f (bump_recrmcount f').
Proof.
  intros Hc. apply (counted_trans _ _ _ Hc).
  unfold counted, bump_recrmcount. simpl. repeat split; lia.
Qed.

Lemma counted_bump_trim f f' : counted f f' -> counted f (bump_rectrimcount f').
Proof.
  intros Hc. apply (counted_trans _ _ _ Hc).
  unfold counted, bump_rectrimcount. simpl. repeat split; lia.
Qed.

Lemma Forall2_counted_refl files : Forall2 counted files files.
Proof. induction files; constructor; auto using counted_refl. Qed.

Lemma Forall2_counted_trans l1 l2 l3 :
  Forall2 counted l1 l2 -> Forall2 counted l2 l3 -> Forall2 counted l1 l3.
Proof.
  intros H12. revert l3. induction H12; intros l3 H23; inversion H23; subst.
  - constructor.
  - constructor; eauto using counted_trans.
Qed.

Lemma Forall2_marked_refl sample recs : Forall2 (marked sample) recs recs.
Proof. induction recs; constructor; auto using marked_refl. Qed.

Lemma Forall2_marked_trans sample l1 l2 l3 :
  Forall2 (marked sample) l1 l2 -> Forall2 (marked sample) l2 l3 ->
  Forall2 (marked sample) l1 l3.
Proof.
  intros H12. revert l3. induction H12; intros l3 H23; inversion H23; subst.
  - constructor.
  - constructor; eauto using marked_trans.
Qed.

Section FrameFacts.
Context `{Libmseed}.

Lemma counted_alter_rm files files' i :
  Forall2 counted files files' ->
  Forall2 counted files (alter bump_recrmcount i files').
Proof.
  intros Hf. apply Forall2_alter_r; [exact Hf|].
  intros x y _ _. apply counted_bump_rm.
Qed.

Lemma counted_alter_trim files files' i :
  Forall2 counted files files' ->
  Forall2 counted files (alter bump_rectrimcount i files').
Proof.
  intros Hf. apply Forall2_alter_r; [exact Hf|].
  intros x y _ _. apply counted_bump_trim.
Qed.

(** One comparison only counts in the files, only marks the record and
    never lowers the modification count. *)
Lemma trim_seg_frame opts hptrace hpdelta files rec modcount tsp :
  let '(files', rec', modcount') :=
    trim_seg opts hptrace hpdelta (files, rec, modcount) tsp in
  Forall2 counted files files'
  /\ marked (sample_mode opts) rec rec'
  /\ modcount <= modcount'.
Proof.
  unfold trim_seg, sample_mode.
  destruct (covers tsp rec); cbn [reclen set_reclen].
  - rewrite andb_false_r. split; [|split].
    + apply counted_alter_rm, Forall2_counted_refl.
    + unfold marked. simpl. tauto.
    + lia.
  - destruct (Ascii.eqb (prunedata opts) "s"); simpl.
    + destruct (reclen rec =? 0); simpl.
      * split; [apply Forall2_counted_refl|].
        split; [apply marked_refl | lia].
      * destruct ((effstarttime rec <=? mst_starttime hptrace) &&
                  (effendtime rec >=? mst_starttime hptrace));
          destruct ((effstarttime rec <=? mst_endtime hptrace) &&
                    (effendtime rec >=? mst_endtime hptrace));
          (split; [repeat apply counted_alter_trim; apply Forall2_counted_refl|]);
          (split; [unfold marked; simpl; intuition discriminate | lia]).
    + split; [apply Forall2_counted_refl|].
      split; [apply marked_refl | lia].
Qed.

Lemma trim_rec_frame opts hptrace hpdelta segs :
  forall files rec modcount,
    let '(files', rec', modcount') :=
      trim_rec opts hptrace hpdelta segs files rec modcount in
    Forall2 counted files files'
    /\ marked (sample_mode opts) rec rec'
    /\ modcount <= modcount'.
Proof.
  unfold trim_rec.
  induction segs as [|tsp segs IH]; intros files rec modcount.
  - simpl. split; [apply Forall2_counted_refl|].
    split; [apply marked_refl | lia].
  - cbn [fold_left].
    pose proof (trim_seg_frame opts hptrace hpdelta files rec modcount tsp) as Hs.
    destruct (trim_seg opts hptrace hpdelta (files, rec, modcount) tsp)
      as [[files1 rec1] m1].
    specialize (IH files1 rec1 m1).
    destruct (fold_left (trim_seg opts hptrace hpdelta) segs (files1, rec1, m1))
      as [[files2 rec2] m2].
    destruct Hs as (Hf1 & Hr1 & Hm1). destruct IH as (Hf2 & Hr2 & Hm2).
    split; [eauto using Forall2_counted_trans|].
    split; [eauto using marked_trans | lia].
Qed.

Lemma trim_chain_frame opts hptrace hpdelta segs :
  forall recs files modcount,
    let '(files', recs', modcount') :=
      trim_chain opts hptrace hpdelta segs files recs modcount in
    Forall2 counted files files'
    /\ Forall2 (marked (sample_mode opts)) recs recs'
    /\ modcount <= modcount'.
Proof.
  induction recs as [|rec recs IH]; intros files modcount.
  - simpl. split; [apply Forall2_counted_refl|]. split; [constructor | lia].
  - cbn [trim_chain].
    pose proof (trim_rec_frame opts hptrace hpdelta segs files rec modcount) as Hr.
    destruct (trim_rec opts hptrace hpdelta segs files rec modcount)
      as [[files1 rec1] m1].
    specialize (IH files1 m1).
    destruct (trim_chain opts hptrace hpdelta segs files1 recs m1)
      as [[files2 recs2] m2].
    destruct Hr as (Hf1 & Hr1 & Hm1). destruct IH as (Hf2 & Hr2 & Hm2).
    split; [eauto using Forall2_counted_trans|].
    split; [constructor; assumption | lia].
Qed.

Lemma pruned_trace_refl sample t : pruned_trace sample t t.
Proof. unfold pruned_trace. auto 10 using Forall2_marked_refl. Qed.

Lemma Forall2_pruned_refl sample traces :
  Forall2 (pruned_trace sample) traces traces.
Proof. induction traces; constructor; auto using pruned_trace_refl. Qed.

(** Replacing the chain of the trace at one position by a marked copy
    keeps the group a pruned copy of the original group. *)
Lemma Forall2_pruned_insert sample traces0 traces i t recs :
  Forall2 (pruned_trace sample) traces0 traces ->
  traces !! i = Some t ->
  Forall2 (marked sample) (private t) recs ->
  Forall2 (pruned_trace sample) traces0 (<[i := set_private t recs]> traces).
Proof.
  intros Hall. revert i.
  induction Hall as [|t0 t1 l0 l1 Ht Hl IH]; intros i Hi Hrecs.
  - constructor.
  - destruct i as [|i]; simpl in *.
    + injection Hi as ->. constructor; [|exact Hl].
      unfold pruned_trace in *. simpl.
      destruct Ht as (A1 & A2 & A3 & A4 & A5 & A6).
      repeat split; try assumption.
      eauto using Forall2_marked_trans.
    + constructor; [exact Ht|]. apply IH; assumption.
Qed.

Lemma prune_pair_frame opts files0 traces0 i j st :
  Forall2 counted files0 (ps_files st) ->
  Forall2 (pruned_trace (sample_mode opts)) traces0 (ps_traces st) ->
  Forall2 counted files0 (ps_files (prune_pair opts i j st))
  /\ Forall2 (pruned_trace (sample_mode opts)) traces0
             (ps_traces (prune_pair opts i j st)).
Proof.
  intros Hf Ht. unfold prune_pair.
  destruct (ps_traces st !! i) as [mst|] eqn:Hi; [|auto].
  destruct (ps_traces st !! j) as [imst|] eqn:Hj; [|auto].
  destruct (negb (String.eqb (network mst) (network imst))
            || negb (MS_ISRATETOLERABLE (samprate mst) (samprate imst)));
    [auto|].
  destruct ((mst_endtime mst >? mst_starttime imst)
            && (mst_starttime mst <? mst_endtime imst)); [|auto].
  match goal with
  | |- context [if ?p =? 1 then _ else _] => destruct (p =? 1)
  end.
  - unfold trimtraces.
    match goal with
    | |- context [trim_chain ?o ?h ?d ?s ?f ?r ?m] =>
        pose proof (trim_chain_frame o h d s r f m) as Hc;
        destruct (trim_chain o h d s f r m) as [[files1 recs1] m1]
    end.
    destruct Hc as (Hc1 & Hc2 & _). simpl.
    split; [eauto using Forall2_counted_trans|].
    eapply Forall2_pruned_insert; eassumption.
  - unfold trimtraces.
    match goal with
    | |- context [trim_chain ?o ?h ?d ?s ?f ?r ?m] =>
        pose proof (trim_chain_frame o h d s r f m) as Hc;
        destruct (trim_chain o h d s f r m) as [[files1 recs1] m1]
    end.
    destruct Hc as (Hc1 & Hc2 & _). simpl.
    split; [eauto using Forall2_counted_trans|].
    eapply Forall2_pruned_insert; eassumption.
Qed.

(** X3.  Pruning never adds, removes or reorders traces, records or
    files.  Every trace keeps its header; every record keeps its file,
    offset, times and quality, and its length either stays or becomes
    zero, so a dropped record stays dropped; outside sample mode the new
    start and end stay as well.  In the files only the removed and
    trimmed counts change, and they never go down. *)
Theorem prunetraces_frame opts files traces :
  let '(_, files', traces') := prunetraces opts files traces in
  Forall2 counted files files'
  /\ Forall2 (pruned_trace (sample_mode opts)) traces traces'.
Proof.
  unfold prunetraces. destruct traces as [|t0 rest].
  - split; [apply Forall2_counted_refl | constructor].
  - set (traces := t0 :: rest).
    set (Inv := fun st : PruneState =>
                  Forall2 counted files (ps_files st)
                  /\ Forall2 (pruned_trace (sample_mode opts)) traces
                             (ps_traces st)).
    assert (Hinner : forall i js st, Inv st ->
               Inv (fold_left (fun st j => prune_pair opts i j st) js st)).
    { intros i js. induction js as [|j js IH]; intros st Hst; [exact Hst|].
      cbn [fold_left]. apply IH. destruct Hst as [Hf Ht].
      apply prune_pair_frame; assumption. }
    assert (Houter : forall n idxs st, Inv st ->
               Inv (fold_left
                      (fun st i =>
                         fold_left (fun st j => prune_pair opts i j st)
                                   (seq (S i) (n - S i)%nat) st) idxs st)).
    { intros n idxs. induction idxs as [|i idxs IH]; intros st Hst;
        [exact Hst|].
      cbn [fold_left]. apply IH, Hinner, Hst. }
    apply (Houter (length traces) (seq 0 (length traces))
                  (mkPruneState files traces 0)).
    split; [apply Forall2_counted_refl | apply Forall2_pruned_refl].
Qed.

End FrameFacts.

(** ** Coverage and counts of [trimtraces] *)

Lemma modifications_cons f files :
  modifications (f :: files)
  = recrmcount f + rectrimcount f + modifications files.
Proof. reflexivity. Qed.

Lemma modifications_alter_rm files i :
  (i < length files)%nat ->
  modifications (alter bump_recrmcount i files) = modifications files + 1.
Proof.
  revert i. induction files as [|f files IH]; intros i Hi; simpl in Hi.
  - lia.
  - destruct i as [|i].
    + unfold modifications. simpl. lia.
    + change (alter bump_recrmcount (S i) (f :: files))
        with (f :: alter bump_recrmcount i files).
      rewrite !modifications_cons, (IH i) by lia. lia.
Qed.

Lemma modifications_alter_trim files i :
  (i < length files)%nat ->
  modifications (alter bump_rectrimcount i files) = modifications files + 1.
Proof.
  revert i. induction files as [|f files IH]; intros i Hi; simpl in Hi.
  - lia.
  - destruct i as [|i].
    + unfold modifications. simpl. lia.
    + change (alter bump_rectrimcount (S i) (f :: files))
        with (f :: alter bump_rectrimcount i files).
      rewrite !modifications_cons, (IH i) by lia. lia.
Qed.

Section CoverageFacts.
Context `{Libmseed}.

Lemma trim_seg_modifications opts hptrace hpdelta files rec modcount tsp :
  (flp rec < length files)%nat ->
  let '(files', rec', modcount') :=
    trim_seg opts hptrace hpdelta (files, rec, modcount) tsp in
  modifications files' - modifications files = modcount' - modcount.
Proof.
  intros Hi. unfold trim_seg.
  destruct (covers tsp rec); cbn [reclen set_reclen].
  - rewrite andb_false_r. rewrite modifications_alter_rm by exact Hi. lia.
  - destruct (Ascii.eqb (prunedata opts) "s" && negb (reclen rec =? 0));
      [|lia].
    destruct ((effstarttime rec <=? mst_starttime hptrace) &&
              (effendtime rec >=? mst_starttime hptrace));
      destruct ((effstarttime rec <=? mst_endtime hptrace) &&
                (effendtime rec >=? mst_endtime hptrace));
      cbn [flp set_newend set_newstart];
      rewrite ?modifications_alter_trim by (rewrite ?length_alter; exact Hi);
      lia.
Qed.

Lemma trim_rec_modifications opts hptrace hpdelta segs :
  forall files rec modcount,
    (flp rec < length files)%nat ->
    let '(files', rec', modcount') :=
      trim_rec opts hptrace hpdelta segs files rec modcount in
    modifications files' - modifications files = modcount' - modcount.
Proof.
  unfold trim_rec.
  induction segs as [|tsp segs IH]; intros files rec modcount Hi.
  - simpl. lia.
  - cbn [fold_left].
    pose proof (trim_seg_modifications opts hptrace hpdelta files rec modcount
                  tsp Hi) as Hm.
    pose proof (trim_seg_frame opts hptrace hpdelta files rec modcount tsp) as Hf.
    destruct (trim_seg opts hptrace hpdelta (files, rec, modcount) tsp)
      as [[files1 rec1] m1].
    destruct Hf as (Hlen & Hmk & _).
    apply Forall2_length in Hlen. destruct Hmk as (Hflp & _).
    assert (Hi1 : (flp rec1 < length files1)%nat) by (rewrite Hflp, <- Hlen; exact Hi).
    specialize (IH files1 rec1 m1 Hi1).
    destruct (fold_left (trim_seg opts hptrace hpdelta) segs (files1, rec1, m1))
      as [[files2 rec2] m2].
    lia.
Qed.

Lemma trim_chain_modifications opts hptrace hpdelta segs :
  forall recs files modcount,
    Forall (fun rec => (flp rec < length files)%nat) recs ->
    let '(files', recs', modcount') :=
      trim_chain opts hptrace hpdelta segs files recs modcount in
    modifications files' - modifications files = modcount' - modcount.
Proof.
  induction recs as [|rec recs IH]; intros files modcount Hall.
  - simpl. lia.
  - cbn [trim_chain]. inversion Hall as [|? ? Hi Hrest]; subst.
    pose proof (trim_rec_modifications opts hptrace hpdelta segs files rec
                  modcount Hi) as Hm.
    pose proof (trim_rec_frame opts hptrace hpdelta segs files rec modcount) as Hf.
    destruct (trim_rec opts hptrace hpdelta segs files rec modcount)
      as [[files1 rec1] m1].
    destruct Hf as (Hlen & _). apply Forall2_length in Hlen.
    assert (Hrest1 : Forall (fun rec => (flp rec < length files1)%nat) recs)
      by (rewrite <- Hlen; exact Hrest).
    specialize (IH files1 m1 Hrest1).
    destruct (trim_chain opts hptrace hpdelta segs files1 recs m1)
      as [[files2 recs2] m2].
    lia.
Qed.

(** X4.  The number [trimtraces] returns is the number of modifications
    it has counted in the files: the removed and trimmed counts of all
    files together rise by exactly that number. *)
Theorem trimtraces_counts_modifications opts files lptrace hptrace :
  Forall (fun rec => (flp rec < length files)%nat) (private lptrace) ->
  let '(files', _, modcount) := trimtraces opts files lptrace hptrace in
  modifications files' = modifications files + modcount.
Proof.
  intros Hall. unfold trimtraces.
  match goal with
  | |- context [trim_chain ?o ?h ?d ?s ?f ?r ?m] =>
      pose proof (trim_chain_modifications o h d s r f m Hall) as Hc;
      destruct (trim_chain o h d s f r m) as [[files1 recs1] m1]
  end.
  lia.
Qed.

(** A dropped record does not touch the segment list. *)
Lemma cover_step_dropped hpdelta hptimetol st rec :
  reclen rec = 0 -> cover_step hpdelta hptimetol st rec = st.
Proof.
  intros Hz. unfold cover_step. destruct st as [segs newsegment].
  rewrite Hz. reflexivity.
Qed.

(** X5.  The coverage of a chain is that of its live records: records
    marked as dropped contribute nothing to it. *)
Theorem coverage_skips_dropped hpdelta hptimetol recs :
  coverage hpdelta hptimetol recs
  = coverage hpdelta hptimetol (List.filter live recs).
Proof.
  unfold coverage. do 2 f_equal.
  generalize (@nil TimeSegment, true).
  induction recs as [|rec recs IH]; intros st; [reflexivity|].
  cbn [fold_left List.filter]. unfold live at 1.
  destruct (Z.eqb_spec (reclen rec) 0) as [Hz|Hnz]; simpl.
  - rewrite cover_step_dropped by exact Hz. apply IH.
  - apply IH.
Qed.

Lemma last_default_irrelevant (r : Record_s) recs d d' :
  List.last (r :: recs) d = List.last (r :: recs) d'.
Proof.
  revert r. induction recs as [|x recs IH]; intros r; [reflexivity|].
  change (List.last (r :: x :: recs) d) with (List.last (x :: recs) d).
  change (List.last (r :: x :: recs) d') with (List.last (x :: recs) d').
  apply IH.
Qed.

Lemma cover_fold_contiguous hpdelta hptimetol :
  forall recs prev s rest,
    Forall (fun rec => live rec = true) recs ->
    contiguous hpdelta hptimetol prev recs ->
    fold_left (cover_step hpdelta hptimetol) recs
              (mkTimeSegment s (effendtime prev) :: rest, false)
    = (mkTimeSegment s (effendtime (List.last recs prev)) :: rest, false).
Proof.
  induction recs as [|rec recs IH]; intros prev s rest Hlive Hcont.
  - reflexivity.
  - inversion Hlive as [|? ? Hl Hrest]; subst. destruct Hcont as [Hgap Hcont].
    cbn [fold_left]. unfold cover_step at 2.
    unfold live in Hl. apply negb_true_iff in Hl. rewrite Hl.
    cbn [ts_endtime ts_starttime].
    destruct (Z.gtb_spec (Z.abs (effendtime prev + hpdelta - effstarttime rec))
                         hptimetol); [lia|].
    rewrite (IH rec s rest Hrest Hcont).
    destruct recs as [|r recs']; [reflexivity|].
    change (List.last (rec :: r :: recs') prev)
      with (List.last (r :: recs') prev).
    rewrite (last_default_irrelevant r recs' rec prev). reflexivity.
Qed.

(** X6.  A chain of live records, each starting one sample period after
    the end of the one before it within the tolerance, is covered by a
    single segment from the effective start of the first record to the
    effective end of the last. *)
Theorem coverage_contiguous hpdelta hptimetol rec recs :
  live rec = true ->
  Forall (fun r => live r = true) recs ->
  contiguous hpdelta hptimetol rec recs ->
  coverage hpdelta hptimetol (rec :: recs)
  = [mkTimeSegment (effstarttime rec) (effendtime (List.last recs rec))].
Proof.
  intros Hl Hlive Hcont. unfold coverage. cbn [fold_left].
  unfold cover_step at 2. unfold live in Hl. apply negb_true_iff in Hl.
  rewrite Hl. cbn iota.
  rewrite (cover_fold_contiguous hpdelta hptimetol recs rec _ [] Hlive Hcont).
  reflexivity.
Qed.

Lemma trim_chain_no_segments opts hptrace hpdelta :
  forall recs files modcount,
    trim_chain opts hptrace hpdelta [] files recs modcount
    = (files, recs, modcount).
Proof.
  induction recs as [|rec recs IH]; intros files modcount; [reflexivity|].
  cbn [trim_chain]. unfold trim_rec. cbn [fold_left]. rewrite IH. reflexivity.
Qed.

(** X7.  Against a higher priority trace that has no live record left,
    [trimtraces] changes nothing, in either mode: no record is dropped or
    trimmed, no count moves and the number returned is 0. *)
Theorem trimtraces_no_live_record opts files lptrace hptrace :
  Forall (fun rec => reclen rec = 0) (private hptrace) ->
  trimtraces opts files lptrace hptrace = (files, private lptrace, 0).
Proof.
  intros Hall. unfold trimtraces.
  rewrite (coverage_all_dropped _ _ _ Hall).
  apply trim_chain_no_segments.
Qed.

(** X8.  In record mode a second comparison of the same two traces
    leaves the chain of the lower priority trace as the first one left
    it. *)
Theorem trimtraces_record_mode_idempotent opts files lptrace hptrace :
  prunedata opts <> "s"%char ->
  let '(files', recs', _) := trimtraces opts files lptrace hptrace in
  snd (fst (trimtraces opts files' (set_private lptrace recs') hptrace)) = recs'.
Proof.
  intros Hm.
  pose proof (trim_chain_record_mode opts hptrace (hpdelta_of hptrace)
                (coverage (hpdelta_of hptrace)
                          (hptimetol_of opts (hpdelta_of hptrace))
                          (private hptrace)) Hm) as Hmap.
  unfold trimtraces.
  pose proof (Hmap (private lptrace) files 0) as H1.
  destruct (trim_chain opts hptrace (hpdelta_of hptrace)
              (coverage (hpdelta_of hptrace)
                        (hptimetol_of opts (hpdelta_of hptrace))
                        (private hptrace)) files (private lptrace) 0)
    as [[files1 recs1] m1].
  simpl in H1. cbn [private set_private].
  rewrite (Hmap recs1 files1 0). subst recs1.
  rewrite map_map. apply map_ext. intros rec.
  destruct (existsb (fun tsp => covers tsp rec) _) eqn:Hex.
  - assert (Hex' : existsb (fun tsp => covers tsp (set_reclen rec 0))
                     (coverage (hpdelta_of hptrace)
                        (hptimetol_of opts (hpdelta_of hptrace))
                        (private hptrace)) = true) by exact Hex.
    rewrite Hex'. reflexivity.
  - rewrite Hex. reflexivity.
Qed.

End CoverageFacts.

Lemma trimtraces_counts_modifications_witness :
  let '(files', _, modcount) :=
    trimtraces (ex_opts "r") ex_files tie_first tie_second in
  modifications files' = modifications ex_files + modcount.
Proof.
  apply (@trimtraces_counts_modifications ref_libmseed (ex_opts "r") ex_files
           tie_first tie_second).
  repeat constructor.
Defined.

Lemma coverage_contiguous_witness :
  @coverage 1000000 500000
    [row_rec 512 0 9000000; row_rec 512 10000000 19000000;
     row_rec 512 20000000 29000000]
  = [mkTimeSegment 0 29000000].
Proof.
  apply (coverage_contiguous 1000000 500000 (row_rec 512 0 9000000)
           [row_rec 512 10000000 19000000; row_rec 512 20000000 29000000]).
  - reflexivity.
  - repeat constructor.
  - cbv. repeat split; intros E; discriminate E.
Defined.

Lemma trimtraces_no_live_record_witness :
  trimtraces (ex_opts "s") ex_files crossing_lp dropped_hp
  = (ex_files, private crossing_lp, 0).
Proof.
  apply (@trimtraces_no_live_record ref_libmseed (ex_opts "s") ex_files
           crossing_lp dropped_hp).
  repeat constructor.
Defined.

Lemma trimtraces_record_mode_idempotent_witness :
  let '(files', recs', _) :=
    trimtraces (ex_opts "r") ex_files tie_first tie_second in
  snd (fst (trimtraces (ex_opts "r") files' (set_private tie_first recs')
                       tie_second)) = recs'.
Proof.
  apply (@trimtraces_record_mode_idempotent ref_libmseed (ex_opts "r") ex_files
           tie_first tie_second).
  discriminate.
Defined.

(** ** The chain the splitter builds *)

Lemma same_source_refl rec : same_source rec rec.
Proof. unfold same_source. tauto. Qed.

Lemma add_recsplitcount_0 (files : list Filelink) (i : nat) : alter (add_recsplitcount 0) i files = files.
Proof.
  apply list_alter_id. intros [? ? ? ? ? ? ? ? ? ? ?].
  unfold add_recsplitcount. simpl. f_equal. lia.
Qed.

Lemma add_recsplitcount_bump n (files : list Filelink) (i : nat) :
  alter (add_recsplitcount n) i (alter bump_recsplitcount i files)
  = alter (add_recsplitcount (1 + n)) i files.
Proof.
  revert i. induction files as [|f files IH]; intros [|i]; simpl.
  - reflexivity.
  - reflexivity.
  - f_equal. unfold add_recsplitcount, bump_recsplitcount. simpl.
    f_equal. lia.
  - f_equal. apply IH.
Qed.

Section SplitterFacts.
Context `{Libmseed}.

(** X9.  When the split loop returns, the new chain is the old one
    followed by one or more descriptors of the same record.  The first
    keeps the record's new start and the last its new end; each next
    piece starts at the split boundary after the effective start of the
    piece before it, which ends one sample period earlier, and every
    such boundary lies before the end of the record.  The split count of
    the record's file has gone up once for every piece but the first. *)
Theorem split_loop_chain fuel code hpdelta :
  forall chain rec files chain' files',
    split_loop fuel code hpdelta chain rec files = Some (chain', files') ->
    exists first rest,
      chain' = chain ++ first :: rest
      /\ newstart first = newstart rec
      /\ Forall (same_source rec) (first :: rest)
      /\ (forall p, (first :: rest) !! length rest = Some p ->
                    newend p = newend rec)
      /\ (forall k a b,
            (first :: rest) !! k = Some a ->
            (first :: rest) !! S k = Some b ->
            newend a = newstart b - hpdelta
            /\ split_boundary code (effstarttime a) = Some (newstart b)
            /\ newstart b < endtime rec)
      /\ files' = alter (add_recsplitcount (Z.of_nat (length rest)))
                        (flp rec) files.
Proof.
  induction fuel as [|fuel IH]; intros chain rec files chain' files' Hrun.
  - discriminate.
  - cbn [split_loop] in Hrun.
    assert (Hone : Some (chain ++ [rec], files) = Some (chain', files') ->
              exists first rest,
                chain' = chain ++ first :: rest
                /\ newstart first = newstart rec
                /\ Forall (same_source rec) (first :: rest)
                /\ (forall p, (first :: rest) !! length rest = Some p ->
                              newend p = newend rec)
                /\ (forall k a b,
                      (first :: rest) !! k = Some a ->
                      (first :: rest) !! S k = Some b ->
                      newend a = newstart b - hpdelta
                      /\ split_boundary code (effstarttime a)
                         = Some (newstart b)
                      /\ newstart b < endtime rec)
                /\ files' = alter (add_recsplitcount (Z.of_nat (length rest)))
                                  (flp rec) files).
    { intros [= <- <-]. exists rec, []. repeat split.
      - constructor; [apply same_source_refl | constructor].
      - intros p [= <-]. reflexivity.
      - destruct k; discriminate.
      - destruct k; discriminate.
      - destruct k; discriminate.
      - simpl. symmetry. apply add_recsplitcount_0. }
    destruct (split_boundary code (effstarttime rec)) as [b|] eqn:Hb;
      [|exact (Hone Hrun)].
    destruct (Z.gtb_spec (endtime rec) b) as [Hgt|Hle]; [|exact (Hone Hrun)].
    clear Hone.
    apply IH in Hrun.
    destruct Hrun as (first & rest & Hchain & Hns & Hsrc & Hlast & Hadj & Hfiles).
    exists (set_newend rec (b - hpdelta)), (first :: rest).
    split; [rewrite Hchain, <- app_assoc; reflexivity|].
    split; [reflexivity|].
    split.
    { constructor; [unfold same_source; simpl; tauto|].
      eapply Forall_impl; [exact Hsrc|].
      intros p. unfold same_source. simpl. tauto. }
    split.
    { intros p Hp. cbn [length] in Hp. simpl in Hp.
      rewrite (Hlast p Hp). reflexivity. }
    split.
    { intros k a c Ha Hc. destruct k as [|k].
      - simpl in Ha, Hc. injection Ha as <-. injection Hc as <-.
        simpl in Hns. rewrite Hns.
        split; [reflexivity|]. split; [exact Hb | lia].
      - simpl in Ha, Hc. exact (Hadj k a c Ha Hc). }
    rewrite Hfiles. cbn [length flp set_newstart set_newend].
    rewrite add_recsplitcount_bump. f_equal. f_equal. lia.
Qed.

(** More fuel does not change what the loop returns. *)
Lemma split_loop_more_fuel code hpdelta fuel :
  forall fuel' chain rec files result,
    split_loop fuel code hpdelta chain rec files = Some result ->
    (fuel <= fuel')%nat ->
    split_loop fuel' code hpdelta chain rec files = Some result.
Proof.
  induction fuel as [|fuel IH]; intros fuel' chain rec files result Hrun Hle.
  - discriminate.
  - destruct fuel' as [|fuel']; [lia|].
    cbn [split_loop] in *.
    destruct (split_boundary code (effstarttime rec)) as [b|]; [|exact Hrun].
    destruct (endtime rec >? b); [|exact Hrun].
    apply IH; [exact Hrun | lia].
Qed.

(** X10.  If every split boundary lies after the time it is computed
    from, the split loop returns for every record whose effective start
    is not before tick 0, and what it returns does not depend on the
    number of turns allowed beyond those it needs. *)
Theorem split_loop_total code hpdelta chain rec files :
  (forall t b, split_boundary code t = Some b -> t < b) ->
  0 <= effstarttime rec ->
  exists fuel result,
    split_loop fuel code hpdelta chain rec files = Some result
    /\ forall fuel', (fuel <= fuel')%nat ->
         split_loop fuel' code hpdelta chain rec files = Some result.
Proof.
  intros Hafter Hpos.
  destruct (split_loop_returns code hpdelta Hafter
              (S (Z.to_nat (endtime rec - effstarttime rec)))
              chain rec files Hpos ltac:(lia)) as (fuel & result & Hrun).
  exists fuel, result. split; [exact Hrun|].
  intros fuel' Hle. eapply split_loop_more_fuel; eassumption.
Qed.

(** X11.  A record that passes the tests, has a split code set, ends
    after tick 0 and starts at a time whose next split boundary is tick
    0 is never indexed: the boundary is stored as the new start of the
    copy, reads as unset there, and the same split is made again without
    end. *)
Theorem index_record_epoch_never_returns fuel opts files fl rr pl whence :
  skip_starttime opts (rr_recstarttime rr) = false ->
  skip_endtime opts (rr_recendtime rr) = false ->
  skip_match opts (rr_srcname rr) = false ->
  skip_reject opts (rr_srcname rr) = false ->
  whence_of pl (rr_recstarttime rr) (rr_recendtime rr) = Some whence ->
  splitboundary opts <> NUL ->
  split_boundary (splitboundary opts) (rr_recstarttime rr) = Some 0 ->
  rr_recendtime rr > 0 ->
  index_record fuel opts files fl rr pl = None.
Proof.
  intros H1 H2 H3 H4 Hw Hcode Hb Hend.
  rewrite (index_record_splits fuel opts files fl rr pl whence
             H1 H2 H3 H4 Hw Hcode).
  rewrite window_trim_fresh.
  rewrite split_loop_epoch_never_returns; [reflexivity | reflexivity | | ].
  - exact Hb.
  - exact Hend.
Qed.



End SplitterFacts.

Lemma split_loop_chain_witness :
  exists first rest,
    [set_newend midnight_rec 86399000000;
     set_newstart midnight_rec 86400000000] = [] ++ first :: rest
    /\ newstart first = newstart midnight_rec
    /\ Forall (same_source midnight_rec) (first :: rest)
    /\ (forall p, (first :: rest) !! length rest = Some p ->
                  newend p = newend midnight_rec)
    /\ (forall k a b,
          (first :: rest) !! k = Some a ->
          (first :: rest) !! S k = Some b ->
          newend a = newstart b - 1000000
          /\ @split_boundary ref_libmseed "d" (effstarttime a)
             = Some (newstart b)
          /\ newstart b < endtime midnight_rec)
    /\ [mkFilelink "a.mseed" false None false 0 1 0 0 0 0 0; file_b]
       = alter (add_recsplitcount (Z.of_nat (length rest)))
               (flp midnight_rec) ex_files.
Proof.
  exact (@split_loop_chain ref_libmseed 2 "d" 1000000 [] midnight_rec ex_files
           _ _ eq_refl).
Defined.

Lemma split_loop_total_witness :
  exists fuel result,
    @split_loop ref_libmseed fuel "d" 1000000 [] midnight_rec ex_files
    = Some result
    /\ forall fuel', (fuel <= fuel')%nat ->
         @split_loop ref_libmseed fuel' "d" 1000000 [] midnight_rec ex_files
         = Some result.
Proof.
  apply (@split_loop_total ref_libmseed "d" 1000000 [] midnight_rec ex_files).
  - apply ref_boundary_after.
  - cbv. intros E. discriminate E.
Defined.

Lemma index_record_epoch_never_returns_witness :
  index_record 1000 (split_opts "d") ex_files 0
               (ex_read (-1000000) 1000000) (new_trace (-1000000) 1000000)
  = None.
Proof.
  apply (@index_record_epoch_never_returns ref_libmseed 1000 (split_opts "d")
           ex_files 0 (ex_read (-1000000) 1000000)
           (new_trace (-1000000) 1000000) 0);
    try reflexivity.
  discriminate.
Defined.


(** ** What the emitter writes and counts *)

Lemma bytes_written_cons f files :
  bytes_written (f :: files) = byteswritten f + bytes_written files.
Proof. reflexivity. Qed.

Lemma bytes_written_app l1 l2 :
  bytes_written (l1 ++ l2) = bytes_written l1 + bytes_written l2.
Proof.
  induction l1 as [|f l1 IH]; [reflexivity|].
  change ((f :: l1) ++ l2) with (f :: (l1 ++ l2)).
  rewrite !bytes_written_cons, IH. lia.
Qed.

Lemma bytes_written_alter g d i files :
  (forall f, byteswritten (g f) = byteswritten f + d) ->
  (i < length files)%nat ->
  bytes_written (alter g i files) = bytes_written files + d.
Proof.
  intros Hg. revert i. induction files as [|f files IH]; intros i Hi;
    simpl in Hi; [lia|].
  destruct i as [|i].
  - change (alter g 0%nat (f :: files)) with (g f :: files).
    rewrite !bytes_written_cons, Hg. lia.
  - change (alter g (S i) (f :: files)) with (f :: alter g i files).
    rewrite !bytes_written_cons, (IH i) by lia. lia.
Qed.

Lemma bytes_written_alter_same g i files :
  (forall f, byteswritten (g f) = byteswritten f) ->
  bytes_written (alter g i files) = bytes_written files.
Proof.
  intros Hg. revert i. induction files as [|f files IH]; intros i;
    [reflexivity|].
  destruct i as [|i].
  - change (alter g 0%nat (f :: files)) with (g f :: files).
    rewrite !bytes_written_cons, Hg. reflexivity.
  - change (alter g (S i) (f :: files)) with (f :: alter g i files).
    rewrite !bytes_written_cons, (IH i). reflexivity.
Qed.

Lemma Forall2_bytes_refl files :
  Forall2 (fun f f' : Filelink => byteswritten f <= byteswritten f') files files.
Proof. induction files; constructor; [lia | assumption]. Qed.

Lemma Forall2_bytes_trans l1 l2 l3 :
  Forall2 (fun f f' : Filelink => byteswritten f <= byteswritten f') l1 l2 ->
  Forall2 (fun f f' : Filelink => byteswritten f <= byteswritten f') l2 l3 ->
  Forall2 (fun f f' : Filelink => byteswritten f <= byteswritten f') l1 l3.
Proof.
  intros H12. revert l3. induction H12; intros l3 H23; inversion H23; subst;
    constructor; [lia | auto].
Qed.

Lemma Forall2_bytes_alter g i files files' :
  (forall f, byteswritten f <= byteswritten (g f)) ->
  Forall2 (fun f f' : Filelink => byteswritten f <= byteswritten f') files files' ->
  Forall2 (fun f f' : Filelink => byteswritten f <= byteswritten f')
          files (alter g i files').
Proof.
  intros Hg Hall. revert i. induction Hall as [|f f' l l' Hf Hl IH]; intros i.
  - constructor.
  - destruct i as [|i].
    + change (alter g 0%nat (f' :: l')) with (g f' :: l').
      constructor; [specialize (Hg f'); lia | assumption].
    + change (alter g (S i) (f' :: l')) with (f' :: alter g i l').
      constructor; [assumption | apply IH].
Qed.

Lemma grown_refl st : grown st st.
Proof. split; [lia | apply Forall2_bytes_refl]. Qed.

Lemma grown_trans st1 st2 st3 : grown st1 st2 -> grown st2 st3 -> grown st1 st3.
Proof.
  intros [H1 F1] [H2 F2]. split; [lia | eapply Forall2_bytes_trans; eassumption].
Qed.

(** A length in the range of [int] that passes the test against the
    size of the record buffer is positive. *)
Lemma passed_length_positive len :
  int_range len -> (to_size_t len >? recordbuf_size) = false -> 0 <= len.
Proof.
  unfold int_range, to_size_t, recordbuf_size. intros Hr Hs.
  destruct (Z.gtb_spec (len mod 2 ^ 64) 16384) as [|Hle]; [discriminate|].
  destruct (Z_lt_le_dec len 0) as [Hneg|]; [|assumption].
  assert (E : len mod 2 ^ 64 = len + 2 ^ 64).
  { symmetry. apply (Z.mod_unique_pos _ _ (-1)); lia. }
  lia.
Qed.

Section EmitterCounts.
Context `{Libmseed} `{!Codec} `{FileSys}.

Lemma balance_write_out opts ofp mst st rec f files recordbuf log :
  (flp rec < length files)%nat ->
  balance (write_out opts ofp mst st rec f files recordbuf log)
  = bytes_written files - ws_totalbytesout st.
Proof.
  intros Hi. unfold write_out.
  repeat match goal with
         | |- context [match ?o with Some _ => _ | None => _ end] =>
             destruct o
         | |- context [if ?b then _ else _] => destruct b
         end;
    unfold balance, stop_with; cbn [ws_files ws_totalbytesout];
    rewrite ?(bytes_written_alter (stamp_file mst rec) (reclen rec))
      by (try reflexivity; rewrite ?length_alter; exact Hi);
    rewrite ?(bytes_written_alter_same open_outfp) by reflexivity;
    lia.
Qed.

Lemma balance_write_record opts ofp mst st rec :
  balance (write_record opts ofp mst st rec) = balance st.
Proof.
  unfold write_record.
  destruct (ws_stopflag st); [reflexivity|].
  destruct (reclen rec =? 0); [reflexivity|].
  destruct (to_size_t (reclen rec) >? recordbuf_size); [reflexivity|].
  destruct (ws_files st !! flp rec) as [f|] eqn:Hf; [|reflexivity].
  assert (Hi : (flp rec < length (alter open_infp (flp rec) (ws_files st)))%nat).
  { rewrite length_alter. eapply lookup_lt_Some. exact Hf. }
  assert (Hb : bytes_written (alter open_infp (flp rec) (ws_files st))
               = bytes_written (ws_files st))
    by (apply bytes_written_alter_same; reflexivity).
  destruct (negb (infp f || fopen_ok (infilename f) "rb")); [reflexivity|].
  destruct (negb (fseeko_ok (infilename f) (offset rec)));
    [unfold balance, stop_with; cbn [ws_files ws_totalbytesout]; lia|].
  destruct (fread (infilename f) (offset rec) (reclen rec)) as [data|];
    [|unfold balance, stop_with; cbn [ws_files ws_totalbytesout]; lia].
  destruct (negb (newstart rec =? 0) || negb (newend rec =? 0)).
  - destruct (trimrecord rec (record_handler (ws_recordbuf st) data))
      as [[ret buf] tlog].
    destruct (negb (ret =? 0)).
    + unfold balance. cbn [ws_files ws_totalbytesout]. lia.
    + rewrite balance_write_out by exact Hi. unfold balance. lia.
  - rewrite balance_write_out by exact Hi. unfold balance. lia.
Qed.

Lemma balance_write_all opts ofp traces :
  forall st, balance (write_all opts ofp traces st) = balance st.
Proof.
  unfold write_all.
  induction traces as [|mst traces IH]; intros st; [reflexivity|].
  cbn [fold_left]. rewrite IH.
  generalize (private mst). intros recs. revert st.
  induction recs as [|rec recs IHr]; intros st; [reflexivity|].
  cbn [fold_left]. rewrite IHr. apply balance_write_record.
Qed.

(** The closing loop closes every file and keeps the list otherwise. *)
Lemma close_files_result opts ofp files :
  forall done log i,
    fst (fst (fold_left (close_file opts ofp) files (done, log, i)))
    = done ++ map close_both files.
Proof.
  induction files as [|f files IH]; intros done log i.
  - simpl. rewrite app_nil_r. reflexivity.
  - cbn [fold_left]. unfold close_file at 2.
    rewrite IH, <- app_assoc. reflexivity.
Qed.

Lemma bytes_written_closed files :
  bytes_written (map close_both files) = bytes_written files.
Proof.
  induction files as [|f files IH]; [reflexivity|].
  cbn [map]. rewrite !bytes_written_cons, IH. reflexivity.
Qed.

Lemma grown_write_out opts ofp mst st rec f files recordbuf log :
  0 <= reclen rec ->
  Forall2 (fun f f' : Filelink => byteswritten f <= byteswritten f')
          (ws_files st) files ->
  grown st (write_out opts ofp mst st rec f files recordbuf log).
Proof.
  intros Hlen Hfiles. unfold write_out, grown.
  repeat match goal with
         | |- context [match ?o with Some _ => _ | None => _ end] =>
             destruct o
         | |- context [if ?b then _ else _] => destruct b
         end;
    unfold stop_with; cbn [ws_files ws_totalbytesout];
    (split; [lia|]);
    repeat (apply Forall2_bytes_alter; [intros f0; simpl; lia|]);
    exact Hfiles.
Qed.

Lemma grown_write_record opts ofp mst st rec :
  int_range (reclen rec) -> grown st (write_record opts ofp mst st rec).
Proof.
  intros Hr. unfold write_record.
  destruct (ws_stopflag st); [apply grown_refl|].
  destruct (reclen rec =? 0); [apply grown_refl|].
  assert (Hsame : forall b l, grown st (stop_with st (ws_files st) b l))
    by (intros b l; split; [simpl; lia | apply Forall2_bytes_refl]).
  destruct (to_size_t (reclen rec) >? recordbuf_size) eqn:Hs;
    [apply Hsame|].
  pose proof (passed_length_positive _ Hr Hs) as Hpos.
  destruct (ws_files st !! flp rec) as [f|]; [|apply grown_refl].
  assert (Hopen : Forall2 (fun f f' : Filelink =>
                             byteswritten f <= byteswritten f')
                          (ws_files st)
                          (alter open_infp (flp rec) (ws_files st))).
  { apply Forall2_bytes_alter; [intros f0; simpl; lia|].
    apply Forall2_bytes_refl. }
  assert (Hstop : forall b l,
             grown st (stop_with st (alter open_infp (flp rec) (ws_files st))
                                 b l)).
  { intros b l. split; [simpl; lia | exact Hopen]. }
  destruct (negb (infp f || fopen_ok (infilename f) "rb")); [apply Hsame|].
  destruct (negb (fseeko_ok (infilename f) (offset rec))); [apply Hstop|].
  destruct (fread (infilename f) (offset rec) (reclen rec)) as [data|];
    [|apply Hstop].
  destruct (negb (newstart rec =? 0) || negb (newend rec =? 0)).
  - destruct (trimrecord rec (record_handler (ws_recordbuf st) data))
      as [[ret buf] tlog].
    destruct (negb (ret =? 0)).
    + split; [simpl; lia | exact Hopen].
    + apply grown_write_out; assumption.
  - apply grown_write_out; assumption.
Qed.

Lemma grown_write_chain opts ofp mst recs :
  Forall (fun rec => int_range (reclen rec)) recs ->
  forall st, grown st (fold_left (write_record opts ofp mst) recs st).
Proof.
  induction 1 as [|rec recs Hr _ IH]; intros st; [apply grown_refl|].
  cbn [fold_left]. eapply grown_trans; [|apply IH].
  apply grown_write_record, Hr.
Qed.

Lemma grown_write_all opts ofp traces :
  Forall (fun mst => Forall (fun rec => int_range (reclen rec)) (private mst))
         traces ->
  forall st, grown st (write_all opts ofp traces st).
Proof.
  unfold write_all.
  induction 1 as [|mst traces Hm _ IH]; intros st; [apply grown_refl|].
  cbn [fold_left]. eapply grown_trans; [|apply IH].
  apply grown_write_chain, Hm.
Qed.

(** X13.  As long as the byte counts stay within the range of an
    [int], [writetraces] keeps them in step: the bytes written summed
    over the files and the running total of bytes put out rise by the
    same amount, whatever is written, skipped or fails, and neither the
    total nor the count of any file ever goes down. *)
Theorem writetraces_byte_counts_agree opts traces st :
  Forall (fun mst => Forall (fun rec => int_range (reclen rec)) (private mst))
         traces ->
  let st' := writetraces opts traces st in
  int_range (ws_totalbytesout st') ->
  Forall (fun f => int_range (byteswritten f)) (ws_files st') ->
  balance st' = balance st /\ grown st st'.
Proof.
  intros Hlens st' _ _. subst st'.
  unfold writetraces. destruct traces as [|t0 rest];
    [split; [reflexivity | apply grown_refl]|].
  set (traces := t0 :: rest) in *.
  match goal with
  | |- context [match ?o with inl _ => _ | inr _ => _ end] =>
      destruct o as [ofp|]
  end; [|split; [reflexivity|];
         split; [simpl; lia | apply Forall2_bytes_refl]].
  set (st0 := mkWState (ws_files st) (ws_recordbuf st) (ws_log st) false
                       (ws_totalrecsout st) (ws_totalbytesout st)).
  pose proof (balance_write_all opts ofp traces st0) as Hb.
  pose proof (grown_write_all opts ofp traces Hlens st0) as Hg.
  set (st1 := write_all opts ofp traces st0) in *.
  pose proof (close_files_result opts ofp (ws_files st1) [] (ws_log st1) O)
    as Hc.
  destruct (fold_left (close_file opts ofp) (ws_files st1) ([], ws_log st1, O))
    as [[files log] n].
  simpl in Hc. subst files. split.
  - unfold balance in *. cbn [ws_files ws_totalbytesout].
    rewrite bytes_written_closed. exact Hb.
  - destruct Hg as [Ht Hf]. split; [exact Ht|].
    cbn [ws_files]. cbn [ws_files st0] in Hf.
    eapply Forall2_bytes_trans; [exact Hf|].
    clear. induction (ws_files st1); constructor; [simpl; lia | assumption].
Qed.

Lemma write_record_dropped opts ofp mst st rec :
  live rec = false -> write_record opts ofp mst st rec = st.
Proof.
  unfold live. intros Hl. apply negb_false_iff in Hl.
  unfold write_record. rewrite Hl. destruct (ws_stopflag st); reflexivity.
Qed.

Lemma write_chain_live opts ofp mst recs :
  forall st,
    fold_left (write_record opts ofp mst) recs st
    = fold_left (write_record opts ofp mst) (List.filter live recs) st.
Proof.
  induction recs as [|rec recs IH]; intros st; [reflexivity|].
  cbn [fold_left List.filter]. destruct (live rec) eqn:Hl.
  - cbn [fold_left]. apply IH.
  - rewrite write_record_dropped by exact Hl. apply IH.
Qed.

Lemma write_all_live opts ofp traces :
  forall st,
    write_all opts ofp traces st = write_all opts ofp (map live_only traces) st.
Proof.
  unfold write_all.
  induction traces as [|mst traces IH]; intros st; [reflexivity|].
  cbn [fold_left map]. rewrite IH. f_equal.
  rewrite write_chain_live. reflexivity.
Qed.

(** X14.  Dropped records are never emitted and leave no trace in the
    run: [writetraces] on a group does what it does on the same group
    with every record of length zero taken out of its chain. *)
Theorem writetraces_ignores_dropped opts traces st :
  writetraces opts traces st = writetraces opts (map live_only traces) st.
Proof.
  unfold writetraces. destruct traces as [|t0 rest]; [reflexivity|].
  cbn [map].
  match goal with
  | |- context [match ?o with inl _ => _ | inr _ => _ end] =>
      destruct o as [ofp|]
  end; [|reflexivity].
  rewrite (write_all_live opts ofp (t0 :: rest)). reflexivity.
Qed.

End EmitterCounts.

Lemma writetraces_byte_counts_agree_witness :
  balance (@writetraces ref_libmseed ref_codec (ref_filesys ex_disk)
             stdout_opts [ex_trace "D" 8000000 15000000 [plain_rec]]
             (ex_wstate file_a))
  = balance (ex_wstate file_a)
  /\ grown (ex_wstate file_a)
           (@writetraces ref_libmseed ref_codec (ref_filesys ex_disk)
              stdout_opts [ex_trace "D" 8000000 15000000 [plain_rec]]
              (ex_wstate file_a)).
Proof.
  apply (@writetraces_byte_counts_agree ref_libmseed ref_codec
           (ref_filesys ex_disk)).
  - repeat constructor; cbv; intros E; discriminate E.
  - cbv. split; [intros E; discriminate E | reflexivity].
  - repeat constructor; cbv; intros E; discriminate E.
Defined.

(** ** What the emitter unlinks, skips and restamps *)

Lemma unlinked_app l1 l2 : unlinked (l1 ++ l2) = unlinked l1 ++ unlinked l2.
Proof. apply flat_map_app. Qed.

Lemma written_app l1 l2 : written (l1 ++ l2) = written l1 ++ written l2.
Proof. apply flat_map_app. Qed.

Lemma unlinked_archive_events n bytes : unlinked (archive_events n bytes) = [].
Proof.
  unfold archive_events. generalize (seq 0 n). intros l.
  induction l as [|a l IH]; [reflexivity | exact IH].
Qed.

Section EmitterLog.
Context `{Libmseed} `{!Codec} `{FileSys}.

Lemma unlinked_trimrecord rec recordbuf :
  unlinked (snd (trimrecord rec recordbuf)) = [].
Proof.
  unfold trimrecord.
  destruct (sanity_violation rec), (msr_unpack recordbuf (reclen rec));
    reflexivity.
Qed.

Lemma unlinked_write_out opts ofp mst st rec f files recordbuf log :
  unlinked (ws_log (write_out opts ofp mst st rec f files recordbuf log))
  = unlinked log.
Proof.
  unfold write_out.
  destruct ofp as [s|]; [destruct (fwrite_ok s _)|]; cbn iota beta;
    repeat match goal with
           | |- context [if ?b then _ else _] => destruct b
           | |- context [match msr_unpack ?b ?n with _ => _ end] =>
               destruct (msr_unpack b n)
           end;
    cbn [ws_log stop_with];
    rewrite ?unlinked_app, ?unlinked_archive_events; simpl;
    rewrite ?app_nil_r; reflexivity.
Qed.

Lemma unlinked_write_record opts ofp mst st rec :
  unlinked (ws_log (write_record opts ofp mst st rec)) = unlinked (ws_log st).
Proof.
  unfold write_record.
  destruct (ws_stopflag st); [reflexivity|].
  destruct (reclen rec =? 0); [reflexivity|].
  destruct (to_size_t (reclen rec) >? recordbuf_size);
    [cbn [ws_log stop_with]; rewrite unlinked_app; simpl;
     rewrite app_nil_r; reflexivity|].
  destruct (ws_files st !! flp rec) as [f|]; [|reflexivity].
  destruct (negb (infp f || fopen_ok (infilename f) "rb"));
    [cbn [ws_log stop_with]; rewrite unlinked_app; simpl;
     rewrite app_nil_r; reflexivity|].
  destruct (negb (fseeko_ok (infilename f) (offset rec)));
    [cbn [ws_log stop_with]; rewrite unlinked_app; simpl;
     rewrite app_nil_r; reflexivity|].
  destruct (fread (infilename f) (offset rec) (reclen rec)) as [data|];
    [|cbn [ws_log stop_with]; rewrite unlinked_app; simpl;
      rewrite app_nil_r; reflexivity].
  destruct (negb (newstart rec =? 0) || negb (newend rec =? 0)).
  - pose proof (unlinked_trimrecord rec
                  (record_handler (ws_recordbuf st) data)) as Ht.
    destruct (trimrecord rec (record_handler (ws_recordbuf st) data))
      as [[ret buf] tlog].
    simpl in Ht.
    destruct (negb (ret =? 0)).
    + cbn [ws_log]. rewrite unlinked_app, Ht, app_nil_r. reflexivity.
    + rewrite unlinked_write_out, unlinked_app, Ht, app_nil_r. reflexivity.
  - apply unlinked_write_out.
Qed.

Lemma unlinked_write_all opts ofp traces :
  forall st,
    unlinked (ws_log (write_all opts ofp traces st)) = unlinked (ws_log st).
Proof.
  unfold write_all.
  induction traces as [|mst traces IH]; intros st; [reflexivity|].
  cbn [fold_left]. rewrite IH.
  generalize (private mst). intros recs. revert st.
  induction recs as [|rec recs IHr]; intros st; [reflexivity|].
  cbn [fold_left]. rewrite IHr. apply unlinked_write_record.
Qed.

Lemma names_alter g i (files : list Filelink) :
  (forall f, infilename (g f) = infilename f) ->
  map infilename (alter g i files) = map infilename files.
Proof.
  intros Hg. revert i. induction files as [|f files IH]; intros i;
    [reflexivity|].
  destruct i as [|i].
  - change (alter g 0%nat (f :: files)) with (g f :: files).
    cbn [map]. rewrite Hg. reflexivity.
  - change (alter g (S i) (f :: files)) with (f :: alter g i files).
    cbn [map]. rewrite (IH i). reflexivity.
Qed.

Lemma names_write_out opts ofp mst st rec f files recordbuf log :
  map infilename
      (ws_files (write_out opts ofp mst st rec f files recordbuf log))
  = map infilename files.
Proof.
  unfold write_out.
  repeat match goal with
         | |- context [match ?o with Some _ => _ | None => _ end] =>
             destruct o
         | |- context [if ?b then _ else _] => destruct b
         end;
    cbn [ws_files stop_with];
    rewrite ?(names_alter (stamp_file mst rec)) by reflexivity;
    rewrite ?(names_alter open_outfp) by reflexivity;
    reflexivity.
Qed.

Lemma names_write_record opts ofp mst st rec :
  map infilename (ws_files (write_record opts ofp mst st rec))
  = map infilename (ws_files st).
Proof.
  unfold write_record.
  destruct (ws_stopflag st); [reflexivity|].
  destruct (reclen rec =? 0); [reflexivity|].
  destruct (to_size_t (reclen rec) >? recordbuf_size); [reflexivity|].
  destruct (ws_files st !! flp rec) as [f|]; [|reflexivity].
  destruct (negb (infp f || fopen_ok (infilename f) "rb")); [reflexivity|].
  assert (Hn : map infilename (alter open_infp (flp rec) (ws_files st))
               = map infilename (ws_files st))
    by (apply names_alter; reflexivity).
  destruct (negb (fseeko_ok (infilename f) (offset rec))); [exact Hn|].
  destruct (fread (infilename f) (offset rec) (reclen rec)) as [data|];
    [|exact Hn].
  destruct (negb (newstart rec =? 0) || negb (newend rec =? 0)).
  - destruct (trimrecord rec (record_handler (ws_recordbuf st) data))
      as [[ret buf] tlog].
    destruct (negb (ret =? 0)); [exact Hn|].
    rewrite names_write_out. exact Hn.
  - rewrite names_write_out. exact Hn.
Qed.

Lemma names_write_all opts ofp traces :
  forall st,
    map infilename (ws_files (write_all opts ofp traces st))
    = map infilename (ws_files st).
Proof.
  unfold write_all.
  induction traces as [|mst traces IH]; intros st; [reflexivity|].
  cbn [fold_left]. rewrite IH.
  generalize (private mst). intros recs. revert st.
  induction recs as [|rec recs IHr]; intros st; [reflexivity|].
  cbn [fold_left]. rewrite IHr. apply names_write_record.
Qed.

Lemma unlinked_close_files opts ofp files :
  forall done log i,
    unlinked (snd (fst (fold_left (close_file opts ofp) files (done, log, i))))
    = unlinked log
      ++ (if nobackups opts && negb (ofp_set ofp)
          then map infilename files else []).
Proof.
  induction files as [|f files IH]; intros done log i.
  - simpl. destruct (nobackups opts && negb (ofp_set ofp));
      rewrite app_nil_r; reflexivity.
  - cbn [fold_left]. unfold close_file at 2. rewrite IH.
    destruct (infp f), (outfp f), (nobackups opts && negb (ofp_set ofp)),
      (unlink_ok (infilename f));
      rewrite ?unlinked_app; simpl; rewrite ?app_nil_r, <- ?app_assoc;
      reflexivity.
Qed.

(** X15.  The names [writetraces] unlinks are the input names of all
    files of the list, in list order, when the group is not empty, no
    single output file is set and the no backups option is on, and none
    at all otherwise.  Neither the option to replace the input nor an
    error that stopped the record loop makes a difference.  In the same
    runs every file of the list ends up closed. *)
Theorem writetraces_unlinks opts traces st :
  unlinked (ws_log (writetraces opts traces st))
  = unlinked (ws_log st)
    ++ match traces, outputfile opts with
       | _ :: _, None =>
           if nobackups opts then map infilename (ws_files st) else []
       | _, _ => []
       end
  /\ (traces <> [] -> outputfile opts = None ->
      Forall (fun f => infp f = false /\ outfp f = false)
             (ws_files (writetraces opts traces st))).
Proof.
  unfold writetraces. destruct traces as [|t0 rest].
  - split; [rewrite app_nil_r; reflexivity | congruence].
  - set (traces := t0 :: rest).
    set (st0 := mkWState (ws_files st) (ws_recordbuf st) (ws_log st) false
                         (ws_totalrecsout st) (ws_totalbytesout st)).
    assert (Hclose : forall ofp,
               let st1 := write_all opts ofp traces st0 in
               let '(files, log, _) :=
                 fold_left (close_file opts ofp) (ws_files st1)
                           ([], ws_log st1, O) in
               unlinked log
               = unlinked (ws_log st)
                 ++ (if nobackups opts && negb (ofp_set ofp)
                     then map infilename (ws_files st) else [])
               /\ files = map close_both (ws_files st1)).
    { intros ofp st1.
      pose proof (unlinked_close_files opts ofp (ws_files st1) []
                    (ws_log st1) O) as Hu.
      pose proof (close_files_result opts ofp (ws_files st1) []
                    (ws_log st1) O) as Hc.
      destruct (fold_left (close_file opts ofp) (ws_files st1)
                          ([], ws_log st1, O)) as [[files log] n].
      simpl in Hu, Hc. split; [|exact Hc].
      rewrite Hu. subst st1.
      rewrite unlinked_write_all, names_write_all. reflexivity. }
    destruct (outputfile opts) as [name|].
    + split; [|discriminate].
      destruct (String.eqb name "-").
      * specialize (Hclose (Some StdoutStream)). cbv zeta in Hclose.
        destruct (fold_left (close_file opts (Some StdoutStream)) _ _)
          as [[files log] n].
        destruct Hclose as [Hu _]. cbn [ws_log].
        rewrite unlinked_app, Hu. simpl. rewrite andb_false_r.
        rewrite !app_nil_r. reflexivity.
      * destruct (fopen_ok name _).
        -- specialize (Hclose (Some (FileStream name))). cbv zeta in Hclose.
           destruct (fold_left (close_file opts (Some (FileStream name))) _ _)
             as [[files log] n].
           destruct Hclose as [Hu _]. cbn [ws_log].
           rewrite unlinked_app, Hu. simpl. rewrite andb_false_r.
           rewrite !app_nil_r. reflexivity.
        -- cbn [ws_log]. rewrite unlinked_app. reflexivity.
    + specialize (Hclose None). cbv zeta in Hclose.
      destruct (fold_left (close_file opts None) _ _) as [[files log] n].
      destruct Hclose as [Hu Hc]. cbn [ws_log ws_files]. split.
      * rewrite Hu. simpl. rewrite andb_true_r. reflexivity.
      * intros _ _. subst files. apply Forall_map.
        apply Forall_forall. intros f _. split; reflexivity.
Qed.

(** X16.  A record with a new start or end that cannot be unpacked for
    trimming is passed over: nothing is written for it, the counts do
    not move, only diagnostics are added, and the record loop goes on
    with [stopflag] clear. *)
Theorem write_record_unpack_failure opts ofp mst st rec f data :
  ws_stopflag st = false ->
  0 < reclen rec <= recordbuf_size ->
  ws_files st !! flp rec = Some f ->
  infp f || fopen_ok (infilename f) "rb" = true ->
  fseeko_ok (infilename f) (offset rec) = true ->
  fread (infilename f) (offset rec) (reclen rec) = Some data ->
  newstart rec <> 0 \/ newend rec <> 0 ->
  msr_unpack (record_handler (ws_recordbuf st) data) (reclen rec) = None ->
  let st' := write_record opts ofp mst st rec in
  written (ws_log st') = written (ws_log st)
  /\ ws_stopflag st' = false
  /\ ws_totalrecsout st' = ws_totalrecsout st
  /\ ws_totalbytesout st' = ws_totalbytesout st
  /\ ws_files st' = alter open_infp (flp rec) (ws_files st)
  /\ exists msgs, ws_log st' = ws_log st ++ map Stderr msgs.
Proof.
  intros Hstop Hlen Hf Hopen Hseek Hread Hadj Hun st'. subst st'.
  unfold write_record. rewrite Hstop, Hf, Hopen, Hseek, Hread.
  assert (Hsz : to_size_t (reclen rec) = reclen rec).
  { unfold to_size_t, recordbuf_size in *. apply Z.mod_small. lia. }
  rewrite Hsz.
  destruct (Z.eqb_spec (reclen rec) 0); [lia|].
  destruct (Z.gtb_spec (reclen rec) recordbuf_size); [lia|].
  assert (Hflag : negb (newstart rec =? 0) || negb (newend rec =? 0) = true).
  { destruct Hadj as [Hn | Hn]; apply Z.eqb_neq in Hn; rewrite Hn; simpl;
      [reflexivity | apply orb_true_r]. }
  cbn [negb]. rewrite Hflag. unfold trimrecord. rewrite Hun.
  cbn [negb Z.eqb ws_log ws_stopflag ws_totalrecsout ws_totalbytesout ws_files].
  destruct (sanity_violation rec).
  - repeat split.
    + rewrite written_app. simpl. rewrite app_nil_r. reflexivity.
    + exists ["ERROR: problem with new start/end record times, skipping.";
              "ERROR: cannot unpacking Mini-SEED record"]%string.
      reflexivity.
  - repeat split.
    + rewrite written_app. simpl. rewrite app_nil_r. reflexivity.
    + exists ["ERROR: cannot unpacking Mini-SEED record"%string].
      reflexivity.
Qed.

(** X17.  With a restamp code set, an unadjusted record goes to the
    single output as read, except that the byte at offset 6 holds the
    restamp code; a record shorter than seven bytes goes out as read. *)
Theorem write_record_restamp opts s mst st rec f data :
  newstart rec = 0 -> newend rec = 0 ->
  ws_stopflag st = false ->
  0 < reclen rec <= recordbuf_size ->
  ws_files st !! flp rec = Some f ->
  infp f || fopen_ok (infilename f) "rb" = true ->
  fseeko_ok (infilename f) (offset rec) = true ->
  fread (infilename f) (offset rec) (reclen rec) = Some data ->
  length data = Z.to_nat (reclen rec) ->
  restampqind opts <> NUL ->
  archiveroot opts = 0%nat -> replaceinput opts = false ->
  fwrite_ok s (<[6%nat := byte_of_ascii (restampqind opts)]> data) = true ->
  ws_log (write_record opts (Some s) mst st rec)
  = ws_log st
    ++ [WriteOutput s (<[6%nat := byte_of_ascii (restampqind opts)]> data)].
Proof.
  intros Hns Hne Hstop Hlen Hf Hopen Hseek Hread Hdata Hq Ha Hr Hw.
  rewrite (write_record_unadjusted opts (Some s) mst st rec f data
             Hns Hne Hstop Hlen Hf Hopen Hseek Hread).
  unfold write_out, record_handler. rewrite Ha, Hr.
  destruct (Ascii.eqb_spec (restampqind opts) NUL); [contradiction|].
  cbn [negb].
  assert (Hbytes :
            take (Z.to_nat (reclen rec))
                 (<[6%nat := byte_of_ascii (restampqind opts)]>
                    (data ++ drop (length data) (ws_recordbuf st)))
            = <[6%nat := byte_of_ascii (restampqind opts)]> data).
  { rewrite <- Hdata.
    destruct (Nat.lt_ge_cases 6 (length data)) as [Hlt|Hge].
    - rewrite take_insert_lt by exact Hlt. rewrite take_app_length.
      reflexivity.
    - rewrite take_insert_ge by exact Hge. rewrite take_app_length.
      rewrite list_insert_ge by exact Hge. reflexivity. }
  rewrite Hbytes, Hw. reflexivity.
Qed.

End EmitterLog.

Lemma write_record_unpack_failure_witness :
  let st' := @write_record ref_libmseed failing_unpack_codec
               (ref_filesys ex_disk) stdout_opts (Some StdoutStream)
               (ex_trace "D" 0 7000000 [front_trim_rec]) (ex_wstate file_a)
               front_trim_rec in
  written (ws_log st') = written (ws_log (ex_wstate file_a))
  /\ ws_stopflag st' = false
  /\ ws_totalrecsout st' = ws_totalrecsout (ex_wstate file_a)
  /\ ws_totalbytesout st' = ws_totalbytesout (ex_wstate file_a)
  /\ ws_files st' = alter open_infp (flp front_trim_rec)
                          (ws_files (ex_wstate file_a))
  /\ exists msgs, ws_log st' = ws_log (ex_wstate file_a) ++ map Stderr msgs.
Proof.
  assert (Hlen : 0 < reclen front_trim_rec <= recordbuf_size)
    by (unfold recordbuf_size; simpl; lia).
  assert (Hadj : newstart front_trim_rec <> 0 \/ newend front_trim_rec <> 0)
    by (left; discriminate).
  exact (@write_record_unpack_failure ref_libmseed failing_unpack_codec
           (ref_filesys ex_disk) stdout_opts (Some StdoutStream)
           (ex_trace "D" 0 7000000 [front_trim_rec]) (ex_wstate file_a)
           front_trim_rec file_a [x01; x02; x03; x04; x05; x06; x07; x08]
           eq_refl Hlen eq_refl eq_refl eq_refl eq_refl Hadj eq_refl).
Defined.

Lemma write_record_restamp_witness :
  ws_log (@write_record ref_libmseed ref_codec (ref_filesys ex_disk)
            restamp_opts (Some StdoutStream)
            (ex_trace "D" 8000000 15000000 [plain_rec])
            (ex_wstate file_a) plain_rec)
  = [WriteOutput StdoutStream [x09; x0a; x0b; x0c; x0d; x0e; x51; x10]].
Proof.
  assert (Hlen : 0 < reclen plain_rec <= recordbuf_size)
    by (unfold recordbuf_size; simpl; lia).
  assert (Hq : restampqind restamp_opts <> NUL) by discriminate.
  exact (@write_record_restamp ref_libmseed ref_codec (ref_filesys ex_disk)
           restamp_opts StdoutStream
           (ex_trace "D" 8000000 15000000 [plain_rec]) (ex_wstate file_a)
           plain_rec file_a [x09; x0a; x0b; x0c; x0d; x0e; x0f; x10]
           eq_refl eq_refl eq_refl Hlen eq_refl eq_refl eq_refl eq_refl
           eq_refl Hq eq_refl eq_refl eq_refl).
Defined.

(** ** The open file limit *)

(** X18.  [setofilelimit] never lowers the soft limit and changes
    nothing else of the process.  When it does not return -1 the soft
    limit is at least the limit asked for, the value returned is the
    soft limit as an [int], and no diagnostic is written; when it
    returns -1 the process is as it was. *)
Theorem setofilelimit_post os limit :
  0 <= limit < 2 ^ 31 ->
  let '(ret, os', log) := setofilelimit os limit in
  rlim_cur os <= rlim_cur os'
  /\ getrlimit_ok os' = getrlimit_ok os
  /\ setrlimit_ok os' = setrlimit_ok os
  /\ (ret <> -1 ->
      limit <= rlim_cur os' /\ ret = to_int (rlim_cur os') /\ log = [])
  /\ (ret = -1 -> os' = os).
Proof.
  intros Hl.
  assert (Hr : to_rlim limit = limit) by (apply to_rlim_small; lia).
  assert (Hi : to_int limit = limit) by (apply to_int_small; lia).
  unfold setofilelimit. rewrite Hr, Hi.
  destruct (getrlimit_ok os) eqn:Hg; simpl.
  - destruct (Z.ltb_spec (rlim_cur os) limit).
    + destruct (setrlimit_ok os limit); simpl;
        repeat split; try lia; try congruence.
    + repeat split; try lia; try congruence.
  - repeat split; try lia; try congruence.
Qed.

(** X19.  When the soft limit is high enough and its conversion to
    [int] gives -1, as it does for [RLIM_INFINITY], [processpod] takes
    the value returned for an error: the group is passed over, without a
    diagnostic, although nothing has failed. *)
Theorem processpod_group_silent_skip (modsummary : bool) os filecount :
  0 < filecount < 2 ^ 29 ->
  getrlimit_ok os = true ->
  filecount * 2 + 20 <= rlim_cur os ->
  to_int (rlim_cur os) = -1 ->
  processpod_group modsummary os filecount = (os, [FreeFileList], []).
Proof.
  intros Hfc Hg Hge Hint.
  unfold processpod_group, setofilelimit.
  rewrite to_rlim_small by lia. rewrite Hg. simpl.
  destruct (Z.ltb_spec (rlim_cur os) (filecount * 2 + 20)); [lia|].
  rewrite Hint. reflexivity.
Qed.

Lemma setofilelimit_post_witness :
  let '(ret, os', log) := setofilelimit os_granting 24 in
  rlim_cur os_granting <= rlim_cur os'
  /\ getrlimit_ok os' = getrlimit_ok os_granting
  /\ setrlimit_ok os' = setrlimit_ok os_granting
  /\ (ret <> -1 ->
      24 <= rlim_cur os' /\ ret = to_int (rlim_cur os') /\ log = [])
  /\ (ret = -1 -> os' = os_granting).
Proof.
  assert (Hl : 0 <= 24 < 2 ^ 31) by lia.
  exact (setofilelimit_post os_granting 24 Hl).
Defined.

Lemma processpod_group_silent_skip_witness :
  processpod_group false os_unlimited 2 = (os_unlimited, [FreeFileList], []).
Proof.
  assert (Hfc : 0 < 2 < 2 ^ 29) by lia.
  apply (processpod_group_silent_skip false os_unlimited 2 Hfc).
  - reflexivity.
  - simpl. lia.
  - reflexivity.
Defined.

(** ** Splitting of strings *)

Lemma string_length_app (a b : string) :
  String.length (a ++ b) = (String.length a + String.length b)%nat.
Proof. induction a as [|c a IH]; simpl; [reflexivity | rewrite IH; reflexivity]. Qed.

Lemma prefix_split d : forall s,
  String.prefix d s = true ->
  s = (d ++ string_drop (String.length d) s)%string.
Proof.
  induction d as [|a d IH]; intros s Hp; [reflexivity|].
  destruct s as [|b s]; [discriminate|]. simpl in Hp.
  destruct (ascii_dec a b) as [->|]; [|discriminate].
  simpl. f_equal. apply IH, Hp.
Qed.

Lemma prefix_app d : forall p x,
  String.prefix d p = true -> String.prefix d (p ++ x) = true.
Proof.
  induction d as [|a d IH]; intros p x Hp.
  - destruct (p ++ x)%string; reflexivity.
  - destruct p as [|b p]; [discriminate|]. simpl in *.
    destruct (ascii_dec a b); [|discriminate]. apply IH, Hp.
Qed.

Lemma prefix_empty d : d <> EmptyString -> String.prefix d EmptyString = false.
Proof. destruct d; [congruence | reflexivity]. Qed.

Lemma strstr_cut_unfold delim s :
  strstr_cut delim s =
  if String.prefix delim s
  then Some (EmptyString, string_drop (String.length delim) s)
  else match s with
       | EmptyString => None
       | String c s' =>
           match strstr_cut delim s' with
           | Some (before, after) => Some (String c before, after)
           | None => None
           end
       end.
Proof. destruct s; reflexivity. Qed.

(** What [strstr] finds: the string is the text before the match, the
    delimiter and the text after it. *)
Lemma strstr_cut_spec delim : forall s before after,
  strstr_cut delim s = Some (before, after) ->
  s = (before ++ delim ++ after)%string.
Proof.
  induction s as [|c s IH]; intros before after Hcut;
    rewrite strstr_cut_unfold in Hcut.
  - destruct (String.prefix delim EmptyString) eqn:Hp; [|discriminate].
    injection Hcut as <- <-. apply (prefix_split delim EmptyString Hp).
  - destruct (String.prefix delim (String c s)) eqn:Hp.
    + injection Hcut as <- <-. apply (prefix_split delim _ Hp).
    + destruct (strstr_cut delim s) as [[b a]|] eqn:Hs; [|discriminate].
      injection Hcut as <- <-. simpl. f_equal. apply IH. reflexivity.
Qed.

(** The text before the first match holds no match itself. *)
Lemma strstr_cut_before delim :
  delim <> EmptyString ->
  forall s before after,
    strstr_cut delim s = Some (before, after) ->
    strstr_cut delim before = None.
Proof.
  intros Hd. induction s as [|c s IH]; intros before after Hcut;
    pose proof (strstr_cut_spec delim _ _ _ Hcut) as Heq;
    rewrite strstr_cut_unfold in Hcut.
  - rewrite (prefix_empty delim Hd) in Hcut. discriminate.
  - destruct (String.prefix delim (String c s)) eqn:Hp.
    + injection Hcut as <- <-. rewrite strstr_cut_unfold.
      rewrite (prefix_empty delim Hd). reflexivity.
    + destruct (strstr_cut delim s) as [[b a]|] eqn:Hs; [|discriminate].
      injection Hcut as <- <-. rewrite strstr_cut_unfold.
      destruct (String.prefix delim (String c b)) eqn:Hpb.
      * apply (prefix_app delim _ (delim ++ a)%string) in Hpb.
        rewrite <- Heq in Hpb. congruence.
      * rewrite (IH b a eq_refl). reflexivity.
Qed.

Lemma strparse_from_roundtrip delim :
  delim <> EmptyString ->
  forall fuel beg,
    (String.length beg < fuel)%nat ->
    String.concat delim (strparse_from fuel delim beg) = beg
    /\ Forall (fun element => strstr_cut delim element = None)
              (strparse_from fuel delim beg)
    /\ strparse_from fuel delim beg <> [].
Proof.
  intros Hd. induction fuel as [|fuel IH]; intros beg Hlen; [lia|].
  cbn [strparse_from].
  destruct (String.eqb_spec delim EmptyString) as [|_]; [contradiction|].
  destruct (strstr_cut delim beg) as [[element rest]|] eqn:Hcut.
  - pose proof (strstr_cut_spec delim _ _ _ Hcut) as Heq.
    assert (Hrest : (String.length rest < fuel)%nat).
    { rewrite Heq, !string_length_app in Hlen.
      destruct delim; [congruence|]. simpl in Hlen. lia. }
    destruct (IH rest Hrest) as (Hcat & Hall & Hne).
    split; [|split].
    + destruct (strparse_from fuel delim rest) as [|x xs] eqn:Hp;
        [congruence|].
      change (String.concat delim (element :: x :: xs))
        with (element ++ delim ++ String.concat delim (x :: xs))%string.
      rewrite Hcat. symmetry. exact Heq.
    + constructor; [|exact Hall].
      eapply strstr_cut_before; eassumption.
    + discriminate.
  - split; [reflexivity|]. split; [|discriminate].
    constructor; [exact Hcut | constructor].
Qed.

(** X20.  [strparse] with a delimiter that is not empty cuts the string
    at every occurrence of the delimiter, from the left: the elements
    joined by the delimiter give the string back, no element holds the
    delimiter, and there is at least one element. *)
Theorem strparse_roundtrip str delim :
  delim <> EmptyString ->
  String.concat delim (strparse str delim) = str
  /\ Forall (fun element => strstr_cut delim element = None)
            (strparse str delim)
  /\ (1 <= length (strparse str delim))%nat.
Proof.
  intros Hd. unfold strparse.
  destruct (strparse_from_roundtrip delim Hd (S (String.length str)) str
              ltac:(lia)) as (Hcat & Hall & Hne).
  split; [exact Hcat|]. split; [exact Hall|].
  destruct (strparse_from (S (String.length str)) delim str);
    [congruence | simpl; lia].
Qed.

Lemma strparse_roundtrip_witness :
  String.concat tab (strparse "ANMO	IU		BHZ" tab) = "ANMO	IU		BHZ"%string
  /\ Forall (fun element => strstr_cut tab element = None)
            (strparse "ANMO	IU		BHZ" tab)
  /\ (1 <= length (strparse "ANMO	IU		BHZ" tab))%nat.
Proof.
  apply (strparse_roundtrip "ANMO	IU		BHZ" tab). discriminate.
Defined.

(** ** Request records *)

Lemma outer_refl x : outer x x.
Proof. unfold outer. repeat split; lia. Qed.

Lemma outer_trans x r r' : outer x r -> outer r r' -> outer x r'.
Proof.
  unfold outer. intros (A1 & A2 & A3 & A4 & A5) (B1 & B2 & B3 & B4 & B5).
  repeat split; try congruence; lia.
Qed.

Section RequestFacts.
Context `{PodEnv}.

Lemma widen_outer_old looprr newrr : outer looprr (widen looprr newrr).
Proof.
  unfold outer, widen. simpl.
  destruct (Z.gtb_spec (datastart looprr) (datastart newrr));
    destruct (Z.ltb_spec (dataend looprr) (dataend newrr));
    destruct (Z.gtb_spec (reqstart looprr) (reqstart newrr));
    destruct (Z.ltb_spec (reqend looprr) (reqend newrr));
    repeat split; lia.
Qed.

Lemma widen_outer_new looprr newrr :
  filename looprr = filename newrr -> outer newrr (widen looprr newrr).
Proof.
  intros Hn. unfold outer, widen. simpl.
  destruct (Z.gtb_spec (datastart looprr) (datastart newrr));
    destruct (Z.ltb_spec (dataend looprr) (dataend newrr));
    destruct (Z.gtb_spec (reqstart looprr) (reqstart newrr));
    destruct (Z.ltb_spec (reqend looprr) (reqend newrr));
    repeat split; try assumption; lia.
Qed.

Lemma update_match_some newrr : forall rrs rrs',
  update_match newrr rrs = Some rrs' ->
  map filename rrs' = map filename rrs
  /\ (exists r', In r' rrs' /\ outer newrr r')
  /\ (forall r, In r rrs -> exists r', In r' rrs' /\ outer r r').
Proof.
  induction rrs as [|looprr rest IH]; intros rrs' Hu; [discriminate|].
  cbn [update_match] in Hu.
  destruct (String.eqb_spec (filename looprr) (filename newrr)) as [Hn|Hn].
  - injection Hu as <-. split; [reflexivity|]. split.
    + exists (widen looprr newrr). split; [left; reflexivity|].
      apply widen_outer_new, Hn.
    + intros r [<- | Hin].
      * exists (widen looprr newrr). split; [left; reflexivity|].
        apply widen_outer_old.
      * exists r. split; [right; exact Hin | apply outer_refl].
  - destruct (update_match newrr rest) as [rest'|] eqn:Hr; [|discriminate].
    injection Hu as <-. destruct (IH rest' eq_refl) as (Hnames & Hnew & Hold).
    split; [cbn [map]; rewrite Hnames; reflexivity|]. split.
    + destruct Hnew as (r' & Hin & Ho). exists r'. split; [right|]; assumption.
    + intros r [<- | Hin].
      * exists looprr. split; [left; reflexivity | apply outer_refl].
      * destruct (Hold r Hin) as (r' & Hin' & Ho).
        exists r'. split; [right|]; assumption.
Qed.

Lemma update_match_none newrr : forall rrs,
  update_match newrr rrs = None -> ~ In (filename newrr) (map filename rrs).
Proof.
  induction rrs as [|looprr rest IH]; intros Hu; [intros []|].
  cbn [update_match] in Hu.
  destruct (String.eqb_spec (filename looprr) (filename newrr)) as [Hn|Hn];
    [discriminate|].
  destruct (update_match newrr rest) eqn:Hr; [discriminate|].
  intros [Hin | Hin]; [congruence | exact (IH eq_refl Hin)].
Qed.

Lemma add_reqrec_keeps rrs newrr :
  NoDup (map filename rrs) ->
  NoDup (map filename (add_reqrec rrs newrr))
  /\ (exists r', In r' (add_reqrec rrs newrr) /\ outer newrr r')
  /\ (forall r, In r rrs ->
        exists r', In r' (add_reqrec rrs newrr) /\ outer r r')
  /\ (forall r', In r' (add_reqrec rrs newrr) ->
        In (filename r') (map filename rrs) \/ filename r' = filename newrr).
Proof.
  intros Hnd. unfold add_reqrec.
  destruct rrs as [|r0 rest].
  - split; [apply NoDup_singleton|]. split.
    + exists newrr. split; [left; reflexivity | apply outer_refl].
    + split; [intros r []|]. intros r' [<- | []]. right. reflexivity.
  - set (rrs := r0 :: rest) in *.
    destruct (update_match newrr rrs) as [rrs'|] eqn:Hu.
    + destruct (update_match_some newrr rrs rrs' Hu) as (Hn & Hnew & Hold).
      split; [rewrite Hn; exact Hnd|]. split; [exact Hnew|].
      split; [exact Hold|].
      intros r' Hin. left. rewrite <- Hn. apply in_map, Hin.
    + pose proof (update_match_none newrr rrs Hu) as Hfresh.
      split.
      { rewrite map_app. apply NoDup_app. split; [exact Hnd|].
        split; [|apply NoDup_singleton].
        intros x Hx Hx'. apply list_elem_of_In in Hx, Hx'.
        destruct Hx' as [<- | []]. exact (Hfresh Hx). }
      split.
      { exists newrr. split; [apply in_or_app; right; left; reflexivity|].
        apply outer_refl. }
      split.
      { intros r Hin. exists r.
        split; [apply in_or_app; left; exact Hin | apply outer_refl]. }
      intros r' Hin. apply in_app_or in Hin as [Hin | [<- | []]].
      * left. apply in_map, Hin.
      * right. reflexivity.
Qed.

(** X21.  [readreqfile] keeps one request record per file name, and for
    every line of ten fields the record for its file has data and
    request times that include those of the line.  Every record is for
    the file of some such line.  A request file that cannot be opened
    gives the null list. *)
Theorem readreqfile_merges poddatadir lines :
  NoDup (map filename (readreqfile poddatadir (Some lines)))
  /\ (forall reqline rr,
        In reqline lines -> parse_reqline poddatadir reqline = Some rr ->
        exists r, In r (readreqfile poddatadir (Some lines)) /\ outer rr r)
  /\ (forall r,
        In r (readreqfile poddatadir (Some lines)) ->
        exists reqline rr,
          In reqline lines /\ parse_reqline poddatadir reqline = Some rr
          /\ filename rr = filename r)
  /\ readreqfile poddatadir None = [].
Proof.
  unfold readreqfile.
  set (step := fun rrs reqline =>
                 match parse_reqline poddatadir reqline with
                 | Some newrr => add_reqrec rrs newrr
                 | None => rrs
                 end).
  assert (Hfold : forall lines rrs,
             NoDup (map filename rrs) ->
             let result := fold_left step lines rrs in
             NoDup (map filename result)
             /\ (forall x,
                   (exists r, In r rrs /\ outer x r)
                   \/ (exists reqline, In reqline lines
                        /\ parse_reqline poddatadir reqline = Some x) ->
                   exists r, In r result /\ outer x r)
             /\ (forall r, In r result ->
                   In (filename r) (map filename rrs)
                   \/ exists reqline rr,
                       In reqline lines
                       /\ parse_reqline poddatadir reqline = Some rr
                       /\ filename rr = filename r)).
  { clear lines. induction lines as [|reqline lines IH]; intros rrs Hnd result.
    - subst result. simpl. split; [exact Hnd|]. split.
      + intros x [Hx | (l & [] & _)]. exact Hx.
      + intros r Hin. left. apply in_map, Hin.
    - subst result. cbn [fold_left].
      assert (Hstep : NoDup (map filename (step rrs reqline))
                /\ (forall r, In r rrs ->
                      exists r', In r' (step rrs reqline) /\ outer r r')
                /\ (forall x, parse_reqline poddatadir reqline = Some x ->
                      exists r', In r' (step rrs reqline) /\ outer x r')
                /\ (forall r', In r' (step rrs reqline) ->
                      In (filename r') (map filename rrs)
                      \/ exists rr, parse_reqline poddatadir reqline = Some rr
                                    /\ filename rr = filename r')).
      { unfold step.
        destruct (parse_reqline poddatadir reqline) as [newrr|].
        - destruct (add_reqrec_keeps rrs newrr Hnd) as (A & B & C & D).
          split; [exact A|]. split; [exact C|]. split.
          + intros x [= <-]. exact B.
          + intros r' Hin. destruct (D r' Hin) as [Hd | Hd]; [left; exact Hd|].
            right. exists newrr. split; [reflexivity | symmetry; exact Hd].
        - split; [exact Hnd|]. split.
          + intros r Hin. exists r. split; [exact Hin | apply outer_refl].
          + split; [discriminate|].
            intros r' Hin. left. apply in_map, Hin. }
      destruct Hstep as (S1 & S2 & S3 & S4).
      destruct (IH (step rrs reqline) S1) as (I1 & I2 & I3).
      split; [exact I1|]. split.
      + intros x [(r & Hin & Ho) | (l & [<- | Hl] & Hp)].
        * destruct (S2 r Hin) as (r' & Hin' & Ho').
          apply I2. left. exists r'. split; [exact Hin'|].
          eapply outer_trans; eassumption.
        * apply I2. left. exact (S3 x Hp).
        * apply I2. right. exists l. split; assumption.
      + intros r Hin. destruct (I3 r Hin) as [Hn | (l & rr & Hl & Hp & Hf)].
        * apply in_map_iff in Hn as (r' & Hf & Hin').
          destruct (S4 r' Hin') as [Hd | (rr & Hp & Hfr)].
          -- left. rewrite <- Hf. exact Hd.
          -- right. exists reqline, rr.
             split; [left; reflexivity|]. split; [exact Hp | congruence].
        * right. exists l, rr. split; [right; exact Hl|]. split; assumption. }
  destruct (Hfold lines [] ltac:(constructor)) as (F1 & F2 & F3).
  split; [exact F1|]. split.
  - intros reqline rr Hin Hp. apply F2. right. exists reqline.
    split; assumption.
  - split; [|reflexivity].
    intros r Hin. destruct (F3 r Hin) as [[] | Hx]. exact Hx.
Qed.

End RequestFacts.

(** ** The channel groups of POD mode *)

Lemma same_nslc_iff a b :
  same_nslc a b = true <->
  rq_network a = rq_network b /\ rq_station a = rq_station b
  /\ rq_location a = rq_location b /\ rq_channel a = rq_channel b.
Proof.
  unfold same_nslc. rewrite !andb_true_iff, !String.eqb_eq. tauto.
Qed.

Lemma same_nslc_refl a : same_nslc a a = true.
Proof. apply same_nslc_iff. tauto. Qed.

Lemma same_nslc_sym a b : same_nslc a b = true -> same_nslc b a = true.
Proof. rewrite !same_nslc_iff. intuition congruence. Qed.

Lemma same_nslc_trans a b c :
  same_nslc a b = true -> same_nslc b c = true -> same_nslc a c = true.
Proof. rewrite !same_nslc_iff. intuition congruence. Qed.

Lemma pod_foxes_spec hound h : forall rest i,
  let '(rest', added) := pod_foxes hound h i rest in
  length rest' = length rest
  /\ (forall k fox, rest !! k = Some fox ->
        rest' !! k
        = Some (if joins hound h (i + k) fox then set_pruned fox else fox))
  /\ (forall j, In j added <->
        exists k fox, j = (i + k)%nat /\ rest !! k = Some fox
                      /\ joins hound h j fox = true)
  /\ List.NoDup added
  /\ (forall j, In j added -> (i <= j)%nat).
Proof.
  induction rest as [|fox rest IH]; intros i.
  - simpl. split; [reflexivity|]. split; [intros k fox Hk; discriminate|].
    split; [|split; [constructor | intros j []]].
    intros j. split; [intros [] | intros (k & fox & _ & Hk & _); discriminate].
  - cbn [pod_foxes]. specialize (IH (S i)).
    destruct (pod_foxes hound h (S i) rest) as [rest' added].
    destruct IH as (Hlen & Hlook & Hadd & Hnd & Hge).
    assert (Hlook' : forall k fox0, rest !! k = Some fox0 ->
              rest' !! k = Some (if joins hound h (i + S k) fox0
                                 then set_pruned fox0 else fox0)).
    { intros k fox0 Hk. rewrite (Hlook k fox0 Hk).
      replace (S i + k)%nat with (i + S k)%nat by lia. reflexivity. }
    assert (Hadd' : forall j, In j added <->
              exists k fox0, j = (i + S k)%nat /\ rest !! k = Some fox0
                             /\ joins hound h j fox0 = true).
    { intros j. rewrite Hadd. split; intros (k & fox0 & Hj & Hk & Hjoin);
        exists k, fox0; (split; [lia | split; assumption]). }
    assert (Hjoin0 : joins hound h (i + 0) fox
                     = negb ((i =? h)%nat || pruned fox) && same_nslc hound fox).
    { unfold joins. rewrite Nat.add_0_r. reflexivity. }
    destruct ((i =? h)%nat || pruned fox) eqn:Hskip;
      [|destruct (same_nslc hound fox) eqn:Hsame]; simpl in Hjoin0.
    + split; [simpl; lia|]. split.
      { intros [|k] fox0 Hk; simpl in Hk.
        - injection Hk as <-. rewrite Hjoin0. reflexivity.
        - simpl. apply Hlook', Hk. }
      split; [|split; [exact Hnd | intros j Hj; specialize (Hge j Hj); lia]].
      intros j. rewrite Hadd'. split.
      * intros (k & fox0 & Hj & Hk & Hjoin). exists (S k), fox0. auto.
      * intros ([|k] & fox0 & Hj & Hk & Hjoin); simpl in Hk.
        -- injection Hk as <-. subst j. congruence.
        -- exists k, fox0. auto.
    + split; [simpl; lia|]. split.
      { intros [|k] fox0 Hk; simpl in Hk.
        - injection Hk as <-. rewrite Hjoin0. reflexivity.
        - simpl. apply Hlook', Hk. }
      split; [|split].
      * intros j. simpl. rewrite Hadd'. split.
        -- intros [<- | (k & fox0 & Hj & Hk & Hjoin)].
           ++ exists 0%nat, fox. rewrite Nat.add_0_r in *. auto.
           ++ exists (S k), fox0. auto.
        -- intros ([|k] & fox0 & Hj & Hk & Hjoin); simpl in Hk.
           ++ left. lia.
           ++ right. exists k, fox0. auto.
      * constructor; [|exact Hnd]. intros Hin. specialize (Hge i Hin). lia.
      * intros j [<- | Hj]; [lia | specialize (Hge j Hj); lia].
    + split; [simpl; lia|]. split.
      { intros [|k] fox0 Hk; simpl in Hk.
        - injection Hk as <-. rewrite Hjoin0. reflexivity.
        - simpl. apply Hlook', Hk. }
      split; [|split; [exact Hnd | intros j Hj; specialize (Hge j Hj); lia]].
      intros j. rewrite Hadd'. split.
      * intros (k & fox0 & Hj & Hk & Hjoin). exists (S k), fox0. auto.
      * intros ([|k] & fox0 & Hj & Hk & Hjoin); simpl in Hk.
        -- injection Hk as <-. subst j. congruence.
        -- exists k, fox0. auto.
Qed.

Lemma more_marks_unpruned r r' :
  more_marks r r' -> pruned r' = false -> r' = r /\ pruned r = false.
Proof. intros [-> | ->] Hp; [auto | discriminate]. Qed.

Lemma more_marks_set_pruned r r' : more_marks r r' -> more_marks r (set_pruned r').
Proof. intros [-> | ->]; right; reflexivity. Qed.

(** The invariant of the outer loop of [processpod] before the turn for
    position [h]. *)
Lemma pod_step_invariant init h cur groups :
  Forall2 more_marks init cur ->
  (forall i r', cur !! i = Some r' ->
     (pruned r' = true <->
      (exists r, init !! i = Some r /\ pruned r = true)
      \/ In i (concat groups))) ->
  List.NoDup (concat groups) ->
  (forall i r', (i < h)%nat -> cur !! i = Some r' -> pruned r' = true) ->
  (forall g, In g groups ->
     exists hd tl, g = hd :: tl /\
       forall i, In i g -> unpruned_at init i /\ same_channel_at init hd i) ->
  (forall g hd tl j, In g groups -> g = hd :: tl ->
     unpruned_at init j -> same_channel_at init hd j -> In j g) ->
  let '(cur', groups') := pod_step (cur, groups) h in
  Forall2 more_marks init cur'
  /\ (forall i r', cur' !! i = Some r' ->
        (pruned r' = true <->
         (exists r, init !! i = Some r /\ pruned r = true)
         \/ In i (concat groups')))
  /\ List.NoDup (concat groups')
  /\ (forall i r', (i < S h)%nat -> cur' !! i = Some r' -> pruned r' = true)
  /\ (forall g, In g groups' ->
        exists hd tl, g = hd :: tl /\
          forall i, In i g -> unpruned_at init i /\ same_channel_at init hd i)
  /\ (forall g hd tl j, In g groups' -> g = hd :: tl ->
        unpruned_at init j -> same_channel_at init hd j -> In j g).
Proof.
  intros I1 I2 I3 I4 I5 I6. unfold pod_step.
  destruct (cur !! h) as [hound|] eqn:Hh.
  2:{ split; [exact I1|]. split; [exact I2|]. split; [exact I3|].
      split; [|split; [exact I5 | exact I6]].
      intros i r' Hi Hc. destruct (decide (i = h)) as [->|]; [congruence|].
      apply (I4 i r'); [lia | exact Hc]. }
  destruct (pruned hound) eqn:Hp.
  { split; [exact I1|]. split; [exact I2|]. split; [exact I3|].
    split; [|split; [exact I5 | exact I6]].
    intros i r' Hi Hc. destruct (decide (i = h)) as [->|].
    - congruence.
    - apply (I4 i r'); [lia | exact Hc]. }
  (* the hound opens a new group *)
  assert (Hhlt : (h < length cur)%nat) by (eapply lookup_lt_Some; exact Hh).
  set (cur1 := <[h := set_pruned hound]> cur).
  pose proof (pod_foxes_spec hound h cur1 0%nat) as Hspec.
  destruct (pod_foxes hound h 0 cur1) as [cur2 added].
  destruct Hspec as (Hlen & Hlook & Hadd & Hnd & _).
  (* the hound is the original record *)
  destruct (Forall2_lookup_r _ _ _ _ _ I1 Hh) as (hound0 & Hh0 & Hm0).
  destruct (more_marks_unpruned _ _ Hm0 Hp) as [<- Hp0].
  (* the members of the new group *)
  assert (Hmember : forall j, In j added <->
            j <> h /\ exists fox, cur !! j = Some fox /\ pruned fox = false
                                  /\ same_nslc hound fox = true).
  { intros j. rewrite Hadd. split.
    - intros (k & fox & -> & Hk & Hjoin). simpl in *.
      unfold joins in Hjoin. apply andb_true_iff in Hjoin as [Hj1 Hj2].
      apply negb_true_iff, orb_false_iff in Hj1 as [Hne Hpf].
      apply Nat.eqb_neq in Hne. split; [exact Hne|].
      exists fox. subst cur1.
      rewrite list_lookup_insert_ne in Hk by congruence. auto.
    - intros (Hne & fox & Hk & Hpf & Hs). exists j, fox.
      split; [reflexivity|]. split.
      + subst cur1. rewrite list_lookup_insert_ne by congruence. exact Hk.
      + unfold joins. rewrite Hpf, Hs.
        apply Nat.eqb_neq in Hne. rewrite Hne. reflexivity. }
  assert (Hcur2 : forall i, cur2 !! i =
            match cur !! i with
            | Some r => Some (if decide (i = h) then set_pruned r
                              else if joins hound h i r then set_pruned r else r)
            | None => None
            end).
  { intros i. destruct (cur !! i) as [r|] eqn:Hi.
    - destruct (decide (i = h)) as [->|Hne].
      + assert (Hc1 : cur1 !! h = Some (set_pruned hound))
          by (subst cur1; apply list_lookup_insert_eq; exact Hhlt).
        rewrite (Hlook h _ Hc1). simpl. unfold joins.
        rewrite Nat.eqb_refl. simpl. congruence.
      + assert (Hc1 : cur1 !! i = Some r)
          by (subst cur1; rewrite list_lookup_insert_ne by congruence; exact Hi).
        rewrite (Hlook i _ Hc1). reflexivity.
    - apply lookup_ge_None. rewrite Hlen. subst cur1. rewrite length_insert.
      apply lookup_ge_None. exact Hi. }
  assert (Hgroup : forall i, In i (h :: added) ->
            unpruned_at init i /\ same_channel_at init h i
            /\ exists r, cur !! i = Some r /\ pruned r = false).
  { intros i [<- | Hin].
    - split; [exists hound; auto|]. split; [|exists hound; auto].
      exists hound, hound. auto using same_nslc_refl.
    - apply Hmember in Hin as (Hne & fox & Hk & Hpf & Hs).
      destruct (Forall2_lookup_r _ _ _ _ _ I1 Hk) as (fox0 & Hk0 & Hmk).
      destruct (more_marks_unpruned _ _ Hmk Hpf) as [<- Hpf0].
      split; [exists fox; auto|]. split; [|exists fox; auto].
      exists hound, fox. auto. }
  assert (Hconcat : forall i, In i (concat (groups ++ [h :: added])) <->
            In i (concat groups) \/ In i (h :: added)).
  { intros i. rewrite concat_app, in_app_iff. simpl. rewrite app_nil_r.
    reflexivity. }
  split; [|split; [|split; [|split; [|split]]]].
  - (* the marks *)
    apply Forall2_same_length_lookup. split.
    + rewrite Hlen. subst cur1. rewrite length_insert.
      eapply Forall2_length; exact I1.
    + intros i r r' Hi0 Hi2. rewrite Hcur2 in Hi2.
      destruct (cur !! i) as [rc|] eqn:Hic; [|discriminate].
      pose proof (Forall2_lookup_lr _ _ _ _ _ _ I1 Hi0 Hic) as Hm.
      injection Hi2 as <-.
      destruct (decide (i = h)); [apply more_marks_set_pruned, Hm|].
      destruct (joins hound h i rc);
        [apply more_marks_set_pruned, Hm | exact Hm].
  - (* which records are marked *)
    intros i r' Hi2. rewrite Hconcat. rewrite Hcur2 in Hi2.
    destruct (cur !! i) as [rc|] eqn:Hic; [|discriminate].
    injection Hi2 as <-. specialize (I2 i rc Hic).
    destruct (decide (i = h)) as [->|Hne].
    + simpl. split; [intros _; right; right; left; reflexivity | reflexivity].
    + destruct (joins hound h i rc) eqn:Hj.
      * simpl. split; [intros _ | reflexivity].
        right. right. right. apply Hmember. split; [exact Hne|].
        unfold joins in Hj. apply andb_true_iff in Hj as [Hj1 Hj2].
        apply negb_true_iff, orb_false_iff in Hj1 as [_ Hpf].
        exists rc. auto.
      * rewrite I2. split; [tauto|].
        intros [Hx | [Hx | [Hx | Hx]]]; [tauto | tauto | congruence |].
        apply Hmember in Hx as (_ & fox & Hk & Hpf & Hs).
        assert (fox = rc) by congruence. subst fox.
        unfold joins in Hj. rewrite Hpf, Hs in Hj.
        apply Nat.eqb_neq in Hne. rewrite Hne in Hj. discriminate.
  - (* no position in two groups *)
    rewrite concat_app. simpl. rewrite app_nil_r.
    apply List.NoDup_app; [exact I3 | |].
    + constructor; [|exact Hnd].
      intros Hin. apply Hmember in Hin as [Hne _]. congruence.
    + intros i Hin Hin'.
      destruct (Hgroup i Hin') as (_ & _ & r & Hr & Hpr).
      pose proof (proj2 (I2 i r Hr) (or_intror Hin)). congruence.
  - (* everything up to the hound is marked *)
    intros i r' Hi Hi2. rewrite Hcur2 in Hi2.
    destruct (cur !! i) as [rc|] eqn:Hic; [|discriminate].
    injection Hi2 as <-.
    destruct (decide (i = h)); [reflexivity|].
    assert (pruned rc = true) by (apply (I4 i rc); [lia | exact Hic]).
    destruct (joins hound h i rc); [reflexivity | assumption].
  - (* one channel for each group *)
    intros g Hg. apply in_app_iff in Hg as [Hg | [<- | []]].
    + apply I5, Hg.
    + exists h, added. split; [reflexivity|].
      intros i Hin. destruct (Hgroup i Hin) as (A & B & _). auto.
  - (* one group for each channel *)
    intros g hd tl j Hg Heq Hj Hch.
    apply in_app_iff in Hg as [Hg | [<- | []]].
    + eapply I6; eassumption.
    + injection Heq as <- <-.
      destruct (decide (j = h)) as [->|Hne]; [left; reflexivity|].
      right. apply Hmember. split; [exact Hne|].
      destruct Hj as (rj & Hrj & Hprj).
      destruct Hch as (a & b & Ha & Hb & Hs).
      assert (a = hound) by congruence. assert (b = rj) by congruence.
      subst a b.
      destruct (Forall2_lookup_l _ _ _ _ _ I1 Hrj) as (cj & Hcj & Hmj).
      destruct (pruned cj) eqn:Hpc.
      * exfalso.
        destruct (proj1 (I2 j cj Hcj) Hpc) as [(r & Hr & Hpr) | Hin];
          [congruence|].
        apply in_concat in Hin as (g' & Hg' & Hjg').
        destruct (I5 g' Hg') as (hd' & tl' & Heq' & Hmem).
        destruct (Hmem j Hjg') as (_ & (a' & b' & Ha' & Hb' & Hs')).
        assert (b' = rj) by congruence. subst b'.
        assert (Hh_in : In h g').
        { apply (I6 g' hd' tl' h Hg' Heq').
          - exists hound. auto.
          - exists a', hound. split; [exact Ha'|]. split; [exact Hh0|].
            eapply same_nslc_trans; [exact Hs'|]. apply same_nslc_sym, Hs. }
        assert (Hh_marked : pruned hound = true).
        { apply (I2 h hound Hh). right. apply in_concat. eauto. }
        congruence.
      * destruct Hmj as [-> | ->]; [|discriminate].
        exists rj. auto.
Qed.

Lemma pod_loop_invariant init : forall k h cur groups,
  Forall2 more_marks init cur ->
  (forall i r', cur !! i = Some r' ->
     (pruned r' = true <->
      (exists r, init !! i = Some r /\ pruned r = true)
      \/ In i (concat groups))) ->
  List.NoDup (concat groups) ->
  (forall i r', (i < h)%nat -> cur !! i = Some r' -> pruned r' = true) ->
  (forall g, In g groups ->
     exists hd tl, g = hd :: tl /\
       forall i, In i g -> unpruned_at init i /\ same_channel_at init hd i) ->
  (forall g hd tl j, In g groups -> g = hd :: tl ->
     unpruned_at init j -> same_channel_at init hd j -> In j g) ->
  let '(cur', groups') := fold_left pod_step (seq h k) (cur, groups) in
  Forall2 more_marks init cur'
  /\ (forall i r', cur' !! i = Some r' ->
        (pruned r' = true <->
         (exists r, init !! i = Some r /\ pruned r = true)
         \/ In i (concat groups')))
  /\ List.NoDup (concat groups')
  /\ (forall i r', (i < h + k)%nat -> cur' !! i = Some r' -> pruned r' = true)
  /\ (forall g, In g groups' ->
        exists hd tl, g = hd :: tl /\
          forall i, In i g -> unpruned_at init i /\ same_channel_at init hd i)
  /\ (forall g hd tl j, In g groups' -> g = hd :: tl ->
        unpruned_at init j -> same_channel_at init hd j -> In j g).
Proof.
  induction k as [|k IH]; intros h cur groups I1 I2 I3 I4 I5 I6.
  - simpl. rewrite Nat.add_0_r. auto 10.
  - cbn [seq fold_left].
    pose proof (pod_step_invariant init h cur groups I1 I2 I3 I4 I5 I6) as Hs.
    destruct (pod_step (cur, groups) h) as [cur1 groups1].
    destruct Hs as (J1 & J2 & J3 & J4 & J5 & J6).
    specialize (IH (S h) cur1 groups1 J1 J2 J3 J4 J5 J6).
    destruct (fold_left pod_step (seq (S h) k) (cur1, groups1))
      as [cur2 groups2].
    replace (h + S k)%nat with (S h + k)%nat by lia. exact IH.
Qed.

(** X22.  The grouping of [processpod] marks every request record as
    pruned and changes nothing else in the records.  The groups hold
    exactly the positions of the records that were not marked before,
    each position once.  The records of a group are all for one channel,
    and every unmarked record of that channel is in the group. *)
Theorem pod_groups_partition reqrecs :
  let '(marked, groups) := pod_groups reqrecs in
  Forall (fun r => pruned r = true) marked
  /\ Forall2 more_marks reqrecs marked
  /\ List.NoDup (concat groups)
  /\ (forall i, In i (concat groups) <-> unpruned_at reqrecs i)
  /\ (forall g i j, In g groups -> In i g -> In j g ->
        same_channel_at reqrecs i j)
  /\ (forall g i j, In g groups -> In i g ->
        unpruned_at reqrecs j -> same_channel_at reqrecs i j -> In j g).
Proof.
  unfold pod_groups.
  pose proof (pod_loop_invariant reqrecs (length reqrecs) 0 reqrecs []) as Hinv.
  destruct (fold_left pod_step (seq 0 (length reqrecs)) (reqrecs, []))
    as [marked groups].
  destruct Hinv as (I1 & I2 & I3 & I4 & I5 & I6).
  - apply Forall2_same_length_lookup. split; [reflexivity|].
    intros i r r' Hr Hr'. left. congruence.
  - intros i r' Hi. simpl. split; [intros Hp; left; eauto|].
    intros [(r & Hr & Hp) | []]. congruence.
  - constructor.
  - intros i r' Hi. lia.
  - intros g [].
  - intros g hd tl j [].
  - assert (Hsym : forall i j, same_channel_at reqrecs i j ->
                               same_channel_at reqrecs j i).
    { intros i j (a & b & Ha & Hb & Hs). exists b, a.
      auto using same_nslc_sym. }
    assert (Htrans : forall i j k, same_channel_at reqrecs i j ->
                same_channel_at reqrecs j k -> same_channel_at reqrecs i k).
    { intros i j k (a & b & Ha & Hb & Hs) (b' & c & Hb' & Hc & Hs').
      assert (b' = b) by congruence. subst b'.
      exists a, c. eauto using same_nslc_trans. }
    split; [|split; [exact I1|split; [exact I3|split; [|split]]]].
    + apply Forall_lookup. intros i r' Hi.
      apply (I4 i r'); [|exact Hi].
      apply lookup_lt_Some in Hi.
      rewrite <- (Forall2_length _ _ _ I1) in Hi. simpl. exact Hi.
    + intros i. split.
      * intros Hin. apply in_concat in Hin as (g & Hg & Hig).
        destruct (I5 g Hg) as (hd & tl & _ & Hmem).
        apply (Hmem i Hig).
      * intros (r & Hr & Hp).
        destruct (Forall2_lookup_l _ _ _ _ _ I1 Hr) as (r' & Hr' & _).
        assert (Hmarked : pruned r' = true).
        { apply (I4 i r'); [|exact Hr']. apply lookup_lt_Some in Hr. exact Hr. }
        destruct (proj1 (I2 i r' Hr') Hmarked) as [(r0 & Hr0 & Hp0) | Hin];
          [congruence | exact Hin].
    + intros g i j Hg Hi Hj.
      destruct (I5 g Hg) as (hd & tl & _ & Hmem).
      destruct (Hmem i Hi) as [_ Hci]. destruct (Hmem j Hj) as [_ Hcj].
      eauto.
    + intros g i j Hg Hi Hj Hch.
      destruct (I5 g Hg) as (hd & tl & Heq & Hmem).
      destruct (Hmem i Hi) as [_ Hci].
      apply (I6 g hd tl j Hg Heq Hj). eauto.
Qed.

Lemma prune_pair_priority_witness :
  prune_pair (ex_opts "r") 0 1 (mkPruneState ex_files [head_hp; head_lp] 0)
  = let '(files, recs, _) :=
      trimtraces (ex_opts "r") ex_files head_lp head_hp in
    mkPruneState files
      (<[1%nat := set_private head_lp recs]> [head_hp; head_lp]) (-1).
Proof.
  assert (Ho1 : mst_endtime head_hp > mst_starttime head_lp) by reflexivity.
  assert (Ho2 : mst_starttime head_hp < mst_endtime head_lp) by reflexivity.
  destruct (@prune_pair_priority ref_libmseed (ex_opts "r") 0 1
              (mkPruneState ex_files [head_hp; head_lp] 0) head_hp head_lp
              eq_refl eq_refl eq_refl eq_refl Ho1 Ho2 eq_refl)
    as [Hbetter _].
  apply Hbetter. right. split; reflexivity.
Defined.

(** ** Samples kept by a trim, and the end of emission *)

Section TrimFacts.
Context `{Libmseed} `{!Codec} `{FileSys}.

(** X23.  When [trimrecord] trims a record at both ends, with [t1]
    samples to go at the head and [t2] at the tail, the samples the
    repacked record is made of are the original ones from position [t1]
    on, less the last [t2], in order; the counts drop by [t1 + t2] and
    the start time becomes the new start. *)
Theorem trim_keeps_middle rec msr :
  let t1 := scale_round (Z.quot (newstart rec - starttime rec) HPTMODULUS)
                        (msr_samprate msr) in
  let t2 := scale_round (Z.quot (endtime rec - newend rec) HPTMODULUS)
                        (msr_samprate msr) in
  let msr2 := trim_back rec (trim_front rec msr) in
  0 <= t1 -> 0 <= t2 -> t1 + t2 <= msr_numsamples msr ->
  length (msr_datasamples msr) = Z.to_nat (msr_numsamples msr) ->
  take (Z.to_nat (msr_numsamples msr2)) (msr_datasamples msr2)
  = take (Z.to_nat (msr_numsamples msr - t1 - t2))
         (drop (Z.to_nat t1) (msr_datasamples msr))
  /\ msr_numsamples msr2 = msr_numsamples msr - t1 - t2
  /\ msr_samplecnt msr2 = msr_samplecnt msr - t1 - t2
  /\ msr_starttime msr2 = newstart rec
  /\ length (msr_datasamples msr2) = length (msr_datasamples msr).
Proof.
  intros t1 t2 msr2 Ht1 Ht2 Hsum Hlen.
  subst msr2. unfold trim_back, trim_front.
  cbn [msr_numsamples msr_datasamples msr_samplecnt msr_starttime msr_samprate].
  fold t1 t2.
  set (ds := msr_datasamples msr) in *.
  set (n := msr_numsamples msr) in *.
  assert (Hdrop : length (drop (Z.to_nat t1) ds) = Z.to_nat (n - t1)).
  { rewrite length_drop, Hlen. lia. }
  assert (Htake : take (Z.to_nat (n - t1)) (drop (Z.to_nat t1) ds)
                  = drop (Z.to_nat t1) ds).
  { apply take_ge. lia. }
  rewrite Htake.
  split; [|split; [reflexivity|split; [reflexivity|split; [reflexivity|]]]].
  - rewrite take_app_le by (rewrite Hdrop; lia). reflexivity.
  - rewrite length_app, Hdrop, length_drop, Hlen. lia.
Qed.

Lemma stopped_chain opts ofp mst recs :
  forall st, ws_stopflag st = true ->
             fold_left (write_record opts ofp mst) recs st = st.
Proof.
  induction recs as [|rec recs IH]; intros st Hs; [reflexivity|].
  cbn [fold_left].
  assert (Hw : write_record opts ofp mst st rec = st)
    by (unfold write_record; rewrite Hs; reflexivity).
  rewrite Hw. apply IH, Hs.
Qed.

Lemma stopped_group opts ofp traces :
  forall st, ws_stopflag st = true -> write_all opts ofp traces st = st.
Proof.
  unfold write_all.
  induction traces as [|mst traces IH]; intros st Hs; [reflexivity|].
  cbn [fold_left]. rewrite stopped_chain by exact Hs. apply IH, Hs.
Qed.

(** X24.  A live record longer than the record buffer ends the
    emission: nothing is written for it, [stopflag] is set, and no later
    record of its chain or of any later trace is read or written. *)
Theorem oversize_record_ends_emission opts ofp mst st rec recs traces :
  reclen rec <> 0 ->
  to_size_t (reclen rec) > recordbuf_size ->
  let st' := write_record opts ofp mst st rec in
  ws_stopflag st' = true
  /\ written (ws_log st') = written (ws_log st)
  /\ ws_files st' = ws_files st
  /\ fold_left (write_record opts ofp mst) recs st' = st'
  /\ write_all opts ofp traces st' = st'.
Proof.
  intros Hlen Hbig st'.
  assert (Hst : ws_stopflag st' = true
                /\ written (ws_log st') = written (ws_log st)
                /\ ws_files st' = ws_files st).
  { subst st'. unfold write_record.
    destruct (ws_stopflag st) eqn:Hs; [auto|].
    destruct (Z.eqb_spec (reclen rec) 0); [contradiction|].
    destruct (Z.gtb_spec (to_size_t (reclen rec)) recordbuf_size); [|lia].
    cbn [stop_with ws_stopflag ws_log ws_files].
    rewrite written_app. simpl. rewrite app_nil_r. auto. }
  destruct Hst as (Hs & Hw & Hf).
  split; [exact Hs|]. split; [exact Hw|]. split; [exact Hf|].
  split; [apply stopped_chain, Hs | apply stopped_group, Hs].
Qed.

End TrimFacts.

Lemma trim_keeps_middle_witness :
  take (Z.to_nat (@msr_numsamples ref_libmseed
                    (@trim_back ref_libmseed both_trim_rec
                       (@trim_front ref_libmseed both_trim_rec eight_samples))))
       (@msr_datasamples ref_libmseed
          (@trim_back ref_libmseed both_trim_rec
             (@trim_front ref_libmseed both_trim_rec eight_samples)))
  = take (Z.to_nat (8 - 2 - 2)) (drop (Z.to_nat 2) (take 8 (ex_disk "a.mseed")))
  /\ @msr_numsamples ref_libmseed
       (@trim_back ref_libmseed both_trim_rec
          (@trim_front ref_libmseed both_trim_rec eight_samples)) = 8 - 2 - 2
  /\ @msr_samplecnt ref_libmseed
       (@trim_back ref_libmseed both_trim_rec
          (@trim_front ref_libmseed both_trim_rec eight_samples)) = 8 - 2 - 2
  /\ @msr_starttime ref_libmseed
       (@trim_back ref_libmseed both_trim_rec
          (@trim_front ref_libmseed both_trim_rec eight_samples))
     = newstart both_trim_rec
  /\ length (@msr_datasamples ref_libmseed
               (@trim_back ref_libmseed both_trim_rec
                  (@trim_front ref_libmseed both_trim_rec eight_samples)))
     = length (take 8 (ex_disk "a.mseed")).
Proof.
  apply (@trim_keeps_middle ref_libmseed both_trim_rec eight_samples).
  - cbv. intros E. discriminate E.
  - cbv. intros E. discriminate E.
  - cbv. intros E. discriminate E.
  - reflexivity.
Defined.

Lemma oversize_record_ends_emission_witness :
  let st' := @write_record ref_libmseed ref_codec (ref_filesys ex_disk)
               stdout_opts (Some StdoutStream)
               (ex_trace "D" 0 15000000 [oversize_rec; plain_rec])
               (ex_wstate file_a) oversize_rec in
  ws_stopflag st' = true
  /\ written (ws_log st') = written (ws_log (ex_wstate file_a))
  /\ ws_files st' = ws_files (ex_wstate file_a)
  /\ fold_left (@write_record ref_libmseed ref_codec (ref_filesys ex_disk)
                  stdout_opts (Some StdoutStream)
                  (ex_trace "D" 0 15000000 [oversize_rec; plain_rec]))
               [plain_rec] st' = st'
  /\ @write_all ref_libmseed ref_codec (ref_filesys ex_disk)
       stdout_opts (Some StdoutStream)
       [ex_trace "D" 8000000 15000000 [plain_rec]] st' = st'.
Proof.
  apply (@oversize_record_ends_emission ref_libmseed ref_codec
           (ref_filesys ex_disk)).
  - discriminate.
  - reflexivity.
Defined.

(** ** The sample level trims of [trimtraces] *)

Section SampleTrims.
Context `{Libmseed}.

Lemma trim_chain_app opts hptrace hpdelta segs pre rec post :
  forall files modcount,
    trim_chain opts hptrace hpdelta segs files (pre ++ rec :: post) modcount
    = let '(files1, pre', m1) :=
        trim_chain opts hptrace hpdelta segs files pre modcount in
      let '(files2, rec', m2) :=
        trim_rec opts hptrace hpdelta segs files1 rec m1 in
      let '(files3, post', m3) :=
        trim_chain opts hptrace hpdelta segs files2 post m2 in
      (files3, pre' ++ rec' :: post', m3).
Proof.
  induction pre as [|p pre IH]; intros files modcount.
  - reflexivity.
  - cbn [app trim_chain].
    destruct (trim_rec opts hptrace hpdelta segs files p modcount)
      as [[files0 p'] m0].
    rewrite IH.
    destruct (trim_chain opts hptrace hpdelta segs files0 pre m0)
      as [[files1 pre'] m1].
    destruct (trim_rec opts hptrace hpdelta segs files1 rec m1)
      as [[files2 rec'] m2].
    destruct (trim_chain opts hptrace hpdelta segs files2 post m2)
      as [[files3 post'] m3].
    reflexivity.
Qed.

(** A comparison leaves the new end alone or sets it to the start of the
    higher priority trace less the sample period, and likewise the new
    start. *)
Lemma trim_seg_anchors opts hptrace hpdelta files rec modcount tsp :
  let '(_, rec', _) :=
    trim_seg opts hptrace hpdelta (files, rec, modcount) tsp in
  (newend rec' = newend rec \/ newend rec' = mst_starttime hptrace - hpdelta)
  /\ (newstart rec' = newstart rec
      \/ newstart rec' = mst_endtime hptrace + hpdelta).
Proof.
  unfold trim_seg.
  destruct (covers tsp rec); cbn [reclen set_reclen].
  - rewrite andb_false_r. simpl. auto.
  - destruct (Ascii.eqb (prunedata opts) "s" && negb (reclen rec =? 0));
      [|auto].
    destruct ((effstarttime rec <=? mst_starttime hptrace) &&
              (effendtime rec >=? mst_starttime hptrace));
      destruct ((effstarttime rec <=? mst_endtime hptrace) &&
                (effendtime rec >=? mst_endtime hptrace)); simpl; auto.
Qed.

Lemma trim_rec_anchors opts hptrace hpdelta segs :
  forall files rec modcount,
    let '(_, rec', _) :=
      trim_rec opts hptrace hpdelta segs files rec modcount in
    (newend rec' = newend rec \/ newend rec' = mst_starttime hptrace - hpdelta)
    /\ (newstart rec' = newstart rec
        \/ newstart rec' = mst_endtime hptrace + hpdelta).
Proof.
  unfold trim_rec.
  induction segs as [|tsp segs IH]; intros files rec modcount.
  - simpl. auto.
  - cbn [fold_left].
    pose proof (trim_seg_anchors opts hptrace hpdelta files rec modcount tsp)
      as Hs.
    destruct (trim_seg opts hptrace hpdelta (files, rec, modcount) tsp)
      as [[files1 rec1] m1].
    specialize (IH files1 rec1 m1).
    destruct (fold_left (trim_seg opts hptrace hpdelta) segs (files1, rec1, m1))
      as [[files2 rec2] m2].
    intuition congruence.
Qed.

(** A record that crosses neither bound keeps its new start and end. *)
Lemma trim_seg_no_crossing opts hptrace hpdelta files rec modcount tsp :
  crosses (mst_starttime hptrace) rec = false ->
  crosses (mst_endtime hptrace) rec = false ->
  let '(_, rec', _) :=
    trim_seg opts hptrace hpdelta (files, rec, modcount) tsp in
  newstart rec' = newstart rec /\ newend rec' = newend rec
  /\ starttime rec' = starttime rec /\ endtime rec' = endtime rec.
Proof.
  unfold crosses, trim_seg. intros Hs He.
  destruct (covers tsp rec); cbn [reclen set_reclen].
  - rewrite andb_false_r. simpl. auto.
  - rewrite Hs, He.
    destruct (Ascii.eqb (prunedata opts) "s" && negb (reclen rec =? 0)); auto.
Qed.

Lemma trim_rec_no_crossing opts hptrace hpdelta segs :
  forall files rec modcount,
    crosses (mst_starttime hptrace) rec = false ->
    crosses (mst_endtime hptrace) rec = false ->
    let '(_, rec', _) :=
      trim_rec opts hptrace hpdelta segs files rec modcount in
    newstart rec' = newstart rec /\ newend rec' = newend rec.
Proof.
  unfold trim_rec.
  induction segs as [|tsp segs IH]; intros files rec modcount Hs He.
  - simpl. auto.
  - cbn [fold_left].
    pose proof (trim_seg_no_crossing opts hptrace hpdelta files rec modcount
                  tsp Hs He) as Hstep.
    destruct (trim_seg opts hptrace hpdelta (files, rec, modcount) tsp)
      as [[files1 rec1] m1].
    destruct Hstep as (E1 & E2 & E3 & E4).
    assert (Hs1 : crosses (mst_starttime hptrace) rec1 = false).
    { unfold crosses, effstarttime, effendtime in *.
      rewrite E1, E2, E3, E4. exact Hs. }
    assert (He1 : crosses (mst_endtime hptrace) rec1 = false).
    { unfold crosses, effstarttime, effendtime in *.
      rewrite E1, E2, E3, E4. exact He. }
    specialize (IH files1 rec1 m1 Hs1 He1).
    destruct (fold_left (trim_seg opts hptrace hpdelta) segs (files1, rec1, m1))
      as [[files2 rec2] m2].
    destruct IH as [-> ->]. auto.
Qed.

Lemma counted_lookup files files' k f :
  Forall2 counted files files' -> files !! k = Some f ->
  exists f', files' !! k = Some f' /\ rectrimcount f <= rectrimcount f'.
Proof.
  intros Hall Hf.
  destruct (Forall2_lookup_l _ _ _ _ _ Hall Hf) as (f' & Hf' & Hc).
  exists f'. split; [exact Hf'|]. unfold counted in Hc. tauto.
Qed.

(** C4 (amended).  In sample mode, when the coverage of the higher
    priority trace has a segment, every record of the lower priority
    chain that is not dropped and does not lie within the first segment
    is trimmed against the bounds of the trace itself: if its effective
    window crosses the start time of the trace its [newend] is that start
    time less the sample period when [trimtraces] returns, if it crosses
    the end time its [newstart] is that end time plus the sample period,
    and the trimmed count of its file has gone up at least once for each
    of the two.  A record that crosses neither keeps its new start and
    end.  The bounds of the segments play no part. *)
Theorem trimtraces_sample_anchor opts files lptrace hptrace i rec tsp segs :
  prunedata opts = "s"%char ->
  coverage (hpdelta_of hptrace) (hptimetol_of opts (hpdelta_of hptrace))
           (private hptrace) = tsp :: segs ->
  private lptrace !! i = Some rec ->
  reclen rec <> 0 ->
  covers tsp rec = false ->
  let hpdelta := hpdelta_of hptrace in
  let s := crosses (mst_starttime hptrace) rec in
  let e := crosses (mst_endtime hptrace) rec in
  exists rec',
    snd (fst (trimtraces opts files lptrace hptrace)) !! i = Some rec'
    /\ (s = true -> newend rec' = mst_starttime hptrace - hpdelta)
    /\ (e = true -> newstart rec' = mst_endtime hptrace + hpdelta)
    /\ (s = false -> e = false ->
        newend rec' = newend rec /\ newstart rec' = newstart rec)
    /\ forall f,
        files !! flp rec = Some f ->
        exists f',
          fst (fst (trimtraces opts files lptrace hptrace)) !! flp rec
          = Some f'
          /\ rectrimcount f + Z.b2z s + Z.b2z e <= rectrimcount f'.
Proof.
  intros Hm Hcov Hi Hlen Hc hpdelta s e.
  unfold trimtraces. cbv zeta. rewrite Hcov. fold hpdelta.
  rewrite <- (take_drop_middle _ _ _ Hi).
  rewrite trim_chain_app.
  pose proof (trim_chain_frame opts hptrace hpdelta (tsp :: segs)
                (take i (private lptrace)) files 0) as Hpre.
  destruct (trim_chain opts hptrace hpdelta (tsp :: segs) files
              (take i (private lptrace)) 0) as [[files1 pre'] m1].
  destruct Hpre as (Hf1 & Hpre & _).
  pose proof (trim_rec_anchors opts hptrace hpdelta (tsp :: segs) files1 rec m1)
    as Hanch.
  pose proof (trim_rec_no_crossing opts hptrace hpdelta (tsp :: segs)
                files1 rec m1) as Hnone.
  unfold trim_rec in *. cbn [fold_left] in *.
  destruct (trim_seg_sample_anchor opts hptrace files1 rec m1 tsp Hm Hlen Hc)
    as (files1a & rec1 & Hstep & Hne1 & Hns1 & _ & Hcnt1 & _).
  fold hpdelta in Hstep, Hne1, Hns1, Hcnt1.
  unfold crosses in s, e. fold s e in Hstep, Hne1, Hns1, Hcnt1.
  rewrite Hstep in *.
  pose proof (trim_rec_anchors opts hptrace hpdelta segs files1a rec1
                (m1 + Z.b2z s + Z.b2z e)) as Hrest.
  pose proof (trim_rec_frame opts hptrace hpdelta segs files1a rec1
                (m1 + Z.b2z s + Z.b2z e)) as Hfr.
  unfold trim_rec in Hrest, Hfr.
  destruct (fold_left (trim_seg opts hptrace hpdelta) segs
              (files1a, rec1, m1 + Z.b2z s + Z.b2z e)) as [[files2 rec2] m2].
  destruct Hfr as (Hf2 & _ & _).
  pose proof (trim_chain_frame opts hptrace hpdelta (tsp :: segs)
                (drop (S i) (private lptrace)) files2 m2) as Hpost.
  destruct (trim_chain opts hptrace hpdelta (tsp :: segs) files2
              (drop (S i) (private lptrace)) m2) as [[files3 post'] m3].
  destruct Hpost as (Hf3 & _ & _).
  cbn [fst snd].
  exists rec2. split.
  { assert (Hl : length pre' = i).
    { rewrite <- (Forall2_length _ _ _ Hpre), length_take.
      apply lookup_lt_Some in Hi. lia. }
    rewrite <- Hl. apply list_lookup_middle. reflexivity. }
  split.
  { intros Hs. rewrite Hs in Hne1. destruct Hrest as [[-> | ->] _]; auto. }
  split.
  { intros He. rewrite He in Hns1. destruct Hrest as [_ [-> | ->]]; auto. }
  split.
  { intros Hs He. destruct (Hnone Hs He) as [E1 E2]. auto. }
  intros f Hf.
  destruct (counted_lookup _ _ _ _ Hf1 Hf) as (fa & Hfa & Ha).
  destruct (Hcnt1 fa Hfa) as (fb & Hfb & Hb).
  destruct (counted_lookup _ _ _ _ Hf2 Hfb) as (fc & Hfc & Hcc).
  destruct (counted_lookup _ _ _ _ Hf3 Hfc) as (fd & Hfd & Hd).
  exists fd. split; [exact Hfd | lia].
Qed.

End SampleTrims.

(** The trace [dropped_hp] has no live record and so no coverage: the
    record of [crossing_lp], which is not dropped and crosses its start
    at 10 s, is not trimmed and nothing is counted.  The record of
    [inside_lp] is not dropped either when [trimtraces] is called and
    crosses the start of [head_hp]; it lies within the one coverage
    segment, so it is dropped and counted as removed, and its new end is
    not set. *)
Lemma no_coverage_no_trim :
  reclen (mkRecord 1 0 512 5000000 15000000 "R" 0 0) <> 0
  /\ private crossing_lp = [mkRecord 1 0 512 5000000 15000000 "R" 0 0]
  /\ crosses (mst_starttime dropped_hp)
             (mkRecord 1 0 512 5000000 15000000 "R" 0 0) = true
  /\ trimtraces (ex_opts "s") ex_files crossing_lp dropped_hp
     = (ex_files, [mkRecord 1 0 512 5000000 15000000 "R" 0 0], 0)
  /\ private inside_lp = [mkRecord 1 0 512 10000000 15000000 "R" 0 0]
  /\ crosses (mst_starttime head_hp)
             (mkRecord 1 0 512 10000000 15000000 "R" 0 0) = true
  /\ trimtraces (ex_opts "s") ex_files inside_lp head_hp
     = ([file_a; mkFilelink "b.mseed" false None false 0 0 1 0 0 0 0],
        [mkRecord 1 0 0 10000000 15000000 "R" 0 0], 1).
Proof. repeat split; try reflexivity. discriminate. Qed.

(** The coverage of [gapped_hp] starts at 21 s, the trace at 10 s: the
    record of [crossing_lp] gets its new end one second before 10 s. *)
Lemma trimtraces_sample_anchor_witness :
  exists rec',
    snd (fst (trimtraces (ex_opts "s") ex_files crossing_lp gapped_hp)) !! 0%nat
    = Some rec'
    /\ newend rec' = 9000000
    /\ newstart rec' = 0
    /\ forall f,
        ex_files !! 1%nat = Some f ->
        exists f',
          fst (fst (trimtraces (ex_opts "s") ex_files crossing_lp gapped_hp))
            !! 1%nat = Some f'
          /\ rectrimcount f + 1 <= rectrimcount f'.
Proof.
  destruct (@trimtraces_sample_anchor ref_libmseed (ex_opts "s") ex_files
              crossing_lp gapped_hp 0
              (mkRecord 1 0 512 5000000 15000000 "R" 0 0)
              (mkTimeSegment 21000000 30000000) []
              eq_refl eq_refl eq_refl ltac:(discriminate) eq_refl)
    as (rec' & Hrec & Hs & _ & _ & Hcnt).
  exists rec'. split; [exact Hrec|].
  split; [exact (Hs eq_refl)|].
  split.
  - vm_compute in Hrec. injection Hrec as <-. reflexivity.
  - intros f Hf. destruct (Hcnt f Hf) as (f' & Hf' & Hle).
    exists f'. split; [exact Hf'|].
    change (rectrimcount f + 1 + 0 <= rectrimcount f') in Hle. lia.
Defined.

(** ** Records without adjustment *)

Lemma written_archive_events n bytes :
  written (archive_events n bytes) = replicate n bytes.
Proof.
  unfold archive_events. generalize 0%nat.
  induction n as [|n IH]; intros k; [reflexivity|].
  cbn [seq map]. change (written (WriteArchive k bytes :: ?l))
    with (bytes :: written l). simpl. rewrite IH. reflexivity.
Qed.

Lemma replicate_snoc {A} (x : A) n : replicate n x ++ [x] = replicate (S n) x.
Proof. induction n as [|n IH]; simpl; [reflexivity|]. rewrite IH. reflexivity. Qed.

(** The quality byte written over the start of a record as long as the
    record is, or as read when the record has fewer than seven bytes. *)
Lemma take_insert_handler (data buf : list byte) (b : byte) (n : nat) :
  length data = n ->
  take n (<[6%nat := b]> (record_handler buf data)) = <[6%nat := b]> data.
Proof.
  intros Hlen. unfold record_handler.
  destruct (decide (6 < length data)%nat) as [Hlt|Hge].
  - rewrite insert_app_l by exact Hlt.
    apply take_app_length'. rewrite length_insert. symmetry. exact Hlen.
  - rewrite take_insert_ge by lia.
    rewrite (list_insert_ge data) by lia.
    apply take_app_length'. symmetry. exact Hlen.
Qed.

Lemma take_handler (data buf : list byte) (n : nat) :
  length data = n -> take n (record_handler buf data) = data.
Proof.
  intros Hlen. unfold record_handler. apply take_app_length'. symmetry.
  exact Hlen.
Qed.

Section ZeroMarksEmitter.
Context `{Libmseed} `{FileSys}.

(** What [write_out] hands to the outputs is the first [reclen] bytes of
    the buffer, restamped if asked for, to each output that is reached:
    first without a single output, then with one. *)
Lemma written_write_out_none `{!Codec} opts mst st rec f files recordbuf log :
  exists n,
    written (ws_log (write_out opts None mst st rec f files recordbuf log))
    = written log
      ++ replicate n
           (take (Z.to_nat (reclen rec))
                 (if negb (Ascii.eqb (restampqind opts) NUL)
                  then <[6%nat := byte_of_ascii (restampqind opts)]> recordbuf
                  else recordbuf)).
Proof.
  unfold write_out.
  set (buf := if negb (Ascii.eqb (restampqind opts) NUL)
              then <[6%nat := byte_of_ascii (restampqind opts)]> recordbuf
              else recordbuf).
  set (bytes := take (Z.to_nat (reclen rec)) buf).
  set (P := fun l : list Event =>
              exists n, written l = written log ++ replicate n bytes).
  assert (P0 : P log) by (exists 0%nat; simpl; rewrite app_nil_r; reflexivity).
  assert (Perr : forall l msg, P l -> P (l ++ [Stderr msg])).
  { intros l msg [n Hn]. exists n. rewrite written_app, Hn. simpl.
    apply app_nil_r. }
  assert (Pone : forall l e,
             written [e] = [bytes] -> P l -> P (l ++ [e])).
  { intros l e He [n Hn]. exists (S n).
    rewrite written_app, Hn, He, <- app_assoc, replicate_snoc. reflexivity. }
  assert (Parch : forall l k, P l -> P (l ++ archive_events k bytes)).
  { intros l k [n Hn]. exists (n + k)%nat.
    rewrite written_app, Hn, written_archive_events, <- app_assoc.
    rewrite replicate_add. reflexivity. }
  match goal with
  | |- exists n, written (ws_log ?w) = _ => change (P (ws_log w))
  end.
  set (log1 := if (0 <? archiveroot opts)%nat
               then match msr_unpack buf (reclen rec) with
                    | Some _ => log ++ archive_events (archiveroot opts) bytes
                    | None => log ++ [Stderr "ERROR unpacking Mini-SEED, cannot write to archive"]
                    end
               else log).
  assert (P1 : P log1).
  { subst log1. destruct (0 <? archiveroot opts)%nat; [|exact P0].
    destruct (msr_unpack buf (reclen rec)); [apply Parch | apply Perr];
      exact P0. }
  clearbody log1.
  destruct (replaceinput opts); [|exact P1].
  destruct (outfp f || fopen_ok (outname f) "wb"); [|apply Perr, P1].
  destruct (fwrite_ok (FileStream (outname f)) bytes);
    [apply Pone; [reflexivity | exact P1] | apply Perr, P1].
Qed.

Lemma written_write_out `{!Codec} opts ofp mst st rec f files recordbuf log :
  exists n,
    written (ws_log (write_out opts ofp mst st rec f files recordbuf log))
    = written log
      ++ replicate n
           (take (Z.to_nat (reclen rec))
                 (if negb (Ascii.eqb (restampqind opts) NUL)
                  then <[6%nat := byte_of_ascii (restampqind opts)]> recordbuf
                  else recordbuf)).
Proof.
  destruct ofp as [s|]; [|apply written_write_out_none].
  set (bytes := take (Z.to_nat (reclen rec))
                  (if negb (Ascii.eqb (restampqind opts) NUL)
                   then <[6%nat := byte_of_ascii (restampqind opts)]> recordbuf
                   else recordbuf)).
  destruct (fwrite_ok s bytes) eqn:Hw.
  - destruct (written_write_out_none opts mst st rec f files recordbuf
                (log ++ [WriteOutput s bytes])) as [n Hn].
    exists (S n).
    assert (E : write_out opts (Some s) mst st rec f files recordbuf log
                = write_out opts None mst st rec f files recordbuf
                    (log ++ [WriteOutput s bytes])).
    { unfold write_out. fold bytes. rewrite Hw. reflexivity. }
    rewrite E, Hn, written_app. fold bytes. simpl. rewrite <- app_assoc.
    reflexivity.
  - exists 0%nat. unfold write_out. fold bytes. rewrite Hw.
    cbn [ws_log stop_with]. rewrite written_app. simpl.
    rewrite !app_nil_r. reflexivity.
Qed.

(** [write_out] reads the codec only through [msr_unpack]. *)
Lemma write_out_codec (c1 c2 : Codec) opts ofp mst st rec f files recordbuf log :
  (forall buf len, @msr_unpack _ c1 buf len = @msr_unpack _ c2 buf len) ->
  @write_out _ c1 _ opts ofp mst st rec f files recordbuf log
  = @write_out _ c2 _ opts ofp mst st rec f files recordbuf log.
Proof. intros Hu. unfold write_out. rewrite Hu. reflexivity. Qed.

Lemma write_record_zero_marks `{!Codec} opts ofp mst st rec :
  newstart rec = 0 -> newend rec = 0 ->
  exists n payload,
    written (ws_log (write_record opts ofp mst st rec))
    = written (ws_log st) ++ replicate n payload
    /\ forall f data,
        ws_files st !! flp rec = Some f ->
        fread (infilename f) (offset rec) (reclen rec) = Some data ->
        length data = Z.to_nat (reclen rec) ->
        payload = if Ascii.eqb (restampqind opts) NUL then data
                  else <[6%nat := byte_of_ascii (restampqind opts)]> data.
Proof.
  intros Hns Hne.
  assert (Hnone : forall st' : WState,
             written (ws_log st') = written (ws_log st) ->
             forall payload, 
             written (ws_log st') = written (ws_log st) ++ replicate 0 payload).
  { intros st' E payload. simpl. rewrite app_nil_r. exact E. }
  assert (Herr : forall fs b msg,
             written (ws_log (stop_with st fs b (ws_log st ++ [Stderr msg])))
             = written (ws_log st)).
  { intros fs b msg. cbn [ws_log stop_with]. rewrite written_app. simpl.
    apply app_nil_r. }
  unfold write_record.
  destruct (ws_files st !! flp rec) as [f|] eqn:Hf.
  2: { exists 0%nat, []. split.
       - apply Hnone.
         destruct (ws_stopflag st); [reflexivity|].
         destruct (reclen rec =? 0); [reflexivity|].
         destruct (to_size_t (reclen rec) >? recordbuf_size);
           [apply Herr | reflexivity].
       - intros f data [=]. }
  destruct (fread (infilename f) (offset rec) (reclen rec)) as [data|] eqn:Hr.
  2: { exists 0%nat, []. split.
       - apply Hnone.
         destruct (ws_stopflag st); [reflexivity|].
         destruct (reclen rec =? 0); [reflexivity|].
         destruct (to_size_t (reclen rec) >? recordbuf_size); [apply Herr|].
         destruct (negb (infp f || fopen_ok (infilename f) "rb"));
           [apply Herr|].
         destruct (negb (fseeko_ok (infilename f) (offset rec))); apply Herr.
       - intros f' data [= <-]. rewrite Hr. intros [=]. }
  rewrite Hns, Hne. cbn [Z.eqb negb orb].
  destruct (written_write_out opts ofp mst st rec f
              (alter open_infp (flp rec) (ws_files st))
              (record_handler (ws_recordbuf st) data) (ws_log st))
    as [n Hn].
  set (payload := take (Z.to_nat (reclen rec))
                    (if negb (Ascii.eqb (restampqind opts) NUL)
                     then <[6%nat := byte_of_ascii (restampqind opts)]>
                            (record_handler (ws_recordbuf st) data)
                     else record_handler (ws_recordbuf st) data)) in *.
  assert (Hpay : forall f' data',
             Some f = Some f' ->
             fread (infilename f') (offset rec) (reclen rec) = Some data' ->
             length data' = Z.to_nat (reclen rec) ->
             payload = if Ascii.eqb (restampqind opts) NUL then data'
                       else <[6%nat := byte_of_ascii (restampqind opts)]> data').
  { intros f' data' [= <-] Hr' Hlen. rewrite Hr in Hr'.
    injection Hr' as <-. subst payload.
    destruct (Ascii.eqb (restampqind opts) NUL); cbn [negb].
    - apply take_handler. exact Hlen.
    - apply take_insert_handler. exact Hlen. }
  destruct (ws_stopflag st);
    [exists 0%nat, payload; split; [apply Hnone; reflexivity | exact Hpay]|].
  destruct (reclen rec =? 0);
    [exists 0%nat, payload; split; [apply Hnone; reflexivity | exact Hpay]|].
  destruct (to_size_t (reclen rec) >? recordbuf_size);
    [exists 0%nat, payload; split; [apply Hnone, Herr | exact Hpay]|].
  destruct (negb (infp f || fopen_ok (infilename f) "rb"));
    [exists 0%nat, payload; split; [apply Hnone, Herr | exact Hpay]|].
  destruct (negb (fseeko_ok (infilename f) (offset rec)));
    [exists 0%nat, payload; split; [apply Hnone, Herr | exact Hpay]|].
  exists n, payload. split; [exact Hn | exact Hpay].
Qed.

(** For a record without adjustment the packer is never called: two
    codecs that unpack alike give the same run. *)
Lemma write_record_zero_marks_codec (c1 c2 : Codec) opts ofp mst st rec :
  newstart rec = 0 -> newend rec = 0 ->
  (forall buf len, @msr_unpack _ c1 buf len = @msr_unpack _ c2 buf len) ->
  @write_record _ c1 _ opts ofp mst st rec
  = @write_record _ c2 _ opts ofp mst st rec.
Proof.
  intros Hns Hne Hu. unfold write_record. rewrite Hns, Hne.
  cbn [Z.eqb negb orb].
  destruct (ws_stopflag st); [reflexivity|].
  destruct (reclen rec =? 0); [reflexivity|].
  destruct (to_size_t (reclen rec) >? recordbuf_size); [reflexivity|].
  destruct (ws_files st !! flp rec) as [f|]; [|reflexivity].
  destruct (negb (infp f || fopen_ok (infilename f) "rb")); [reflexivity|].
  destruct (negb (fseeko_ok (infilename f) (offset rec))); [reflexivity|].
  destruct (fread (infilename f) (offset rec) (reclen rec)); [|reflexivity].
  apply write_out_codec, Hu.
Qed.

End ZeroMarksEmitter.

Section ZeroMarksPruner.
Context `{Libmseed}.

(** The record at a position of the lower priority chain after
    [trimtraces] is that record after its comparisons, whatever was
    counted before. *)
Lemma trimtraces_lookup opts files lptrace hptrace i rec :
  private lptrace !! i = Some rec ->
  exists files1 m1,
    snd (fst (trimtraces opts files lptrace hptrace)) !! i
    = Some (snd (fst (trim_rec opts hptrace (hpdelta_of hptrace)
                        (coverage (hpdelta_of hptrace)
                           (hptimetol_of opts (hpdelta_of hptrace))
                           (private hptrace))
                        files1 rec m1))).
Proof.
  intros Hi. unfold trimtraces. cbv zeta.
  set (hpdelta := hpdelta_of hptrace).
  set (segs := coverage hpdelta (hptimetol_of opts hpdelta) (private hptrace)).
  rewrite <- (take_drop_middle _ _ _ Hi).
  rewrite trim_chain_app.
  pose proof (trim_chain_frame opts hptrace hpdelta segs
                (take i (private lptrace)) files 0) as Hpre.
  destruct (trim_chain opts hptrace hpdelta segs files
              (take i (private lptrace)) 0) as [[files1 pre'] m1].
  destruct Hpre as (_ & Hpre & _).
  exists files1, m1.
  destruct (trim_rec opts hptrace hpdelta segs files1 rec m1)
    as [[files2 rec2] m2].
  destruct (trim_chain opts hptrace hpdelta segs files2
              (drop (S i) (private lptrace)) m2) as [[files3 post'] m3].
  cbn [fst snd].
  assert (Hl : length pre' = i).
  { rewrite <- (Forall2_length _ _ _ Hpre), length_take.
    apply lookup_lt_Some in Hi. lia. }
  rewrite <- Hl. apply list_lookup_middle. reflexivity.
Qed.

(** The list of segments is empty only as long as the next record is to
    open one. *)
Lemma cover_fold_flag hpdelta hptimetol recs :
  forall segs flag,
    (segs = [] -> flag = true) ->
    let '(segs', flag') :=
      fold_left (cover_step hpdelta hptimetol) recs (segs, flag) in
    segs' = [] -> flag' = true.
Proof.
  induction recs as [|rec recs IH]; intros segs flag Hinv.
  - exact Hinv.
  - cbn [fold_left]. 
    destruct (cover_step hpdelta hptimetol (segs, flag) rec)
      as [segs1 flag1] eqn:Hstep.
    apply IH. intros ->. unfold cover_step in Hstep.
    destruct (reclen rec =? 0).
    + injection Hstep as -> ->. apply Hinv. reflexivity.
    + destruct segs as [|tsp rest].
      * rewrite (Hinv eq_refl) in Hstep. discriminate.
      * destruct (if Z.abs (ts_endtime tsp + hpdelta - effstarttime rec)
                       >? hptimetol then true else flag); discriminate.
Qed.

(** The coverage up to and with a live record ends at the effective end
    of that record. *)
Lemma coverage_snoc hpdelta hptimetol pre rec :
  reclen rec <> 0 ->
  exists segs s,
    coverage hpdelta hptimetol (pre ++ [rec])
    = segs ++ [mkTimeSegment s (effendtime rec)]
    /\ (pre = [] -> segs = [] /\ s = effstarttime rec).
Proof.
  intros Hlen. unfold coverage. rewrite fold_left_app. cbn [fold_left].
  pose proof (cover_fold_flag hpdelta hptimetol pre [] true (fun _ => eq_refl))
    as Hinv.
  assert (Hpre : pre = [] ->
                 fold_left (cover_step hpdelta hptimetol) pre ([], true)
                 = ([], true)) by (intros ->; reflexivity).
  destruct (fold_left (cover_step hpdelta hptimetol) pre ([], true))
    as [segs0 flag0].
  unfold cover_step.
  destruct (Z.eqb_spec (reclen rec) 0); [contradiction|].
  destruct segs0 as [|tsp rest].
  - rewrite (Hinv eq_refl). cbn [fst rev app].
    exists [], (effstarttime rec). split; [reflexivity | auto].
  - destruct (if Z.abs (ts_endtime tsp + hpdelta - effstarttime rec)
                   >? hptimetol then true else flag0).
    + cbn [fst rev]. eexists. eexists. split; [reflexivity|].
      intros Hnil. specialize (Hpre Hnil). discriminate.
    + cbn [fst rev]. eexists. eexists. split; [reflexivity|].
      intros Hnil. specialize (Hpre Hnil). discriminate.
Qed.

End ZeroMarksPruner.

Section ZeroMarksSplitter.
Context `{Libmseed}.

(** What the split loop returns is the chain it was given followed by
    at least one descriptor, and the first of them has the new start of
    the record. *)
Lemma split_loop_extends fuel code hpdelta :
  forall chain rec files chain' files',
    split_loop fuel code hpdelta chain rec files = Some (chain', files') ->
    exists first rest,
      chain' = chain ++ first :: rest /\ newstart first = newstart rec.
Proof.
  induction fuel as [|fuel IH]; intros chain rec files chain' files' Hrun.
  - discriminate.
  - cbn [split_loop] in Hrun.
    destruct (split_boundary code (effstarttime rec)) as [b|].
    + destruct (endtime rec >? b).
      * apply IH in Hrun. destruct Hrun as (first & rest & -> & _).
        exists (set_newend rec (b - hpdelta)), (first :: rest).
        rewrite <- app_assoc. split; reflexivity.
      * injection Hrun as <- <-. exists rec, []. split; reflexivity.
    + injection Hrun as <- <-. exists rec, []. split; reflexivity.
Qed.

(** For a record without a new start the first boundary is the one after
    its start time. *)
Lemma split_loop_zero_start fuel code hpdelta chain rec files chain' files' :
  newstart rec = 0 ->
  split_loop fuel code hpdelta chain rec files = Some (chain', files') ->
  forall b,
    split_boundary code (starttime rec) = Some b ->
    (endtime rec <= b /\ chain' = chain ++ [rec] /\ files' = files)
    \/ (endtime rec > b
        /\ exists second rest,
            chain' = chain ++ set_newend rec (b - hpdelta) :: second :: rest
            /\ newstart second = b).
Proof.
  intros Hns Hrun b Hb. destruct fuel as [|fuel]; [discriminate|].
  cbn [split_loop] in Hrun.
  rewrite (effstarttime_unset rec Hns), Hb in Hrun.
  destruct (Z.gtb_spec (endtime rec) b) as [Hgt|Hle].
  - right. split; [lia|].
    apply split_loop_extends in Hrun.
    destruct Hrun as (second & rest & -> & Hsec).
    exists second, rest. rewrite <- app_assoc. split; [reflexivity|].
    exact Hsec.
  - left. injection Hrun as <- <-. auto.
Qed.

End ZeroMarksSplitter.

Section ZeroMarks.
Context `{Libmseed} `{!Codec} `{FileSys}.

Lemma written_close_files opts ofp files :
  forall done log i,
    written (snd (fst (fold_left (close_file opts ofp) files (done, log, i))))
    = written log.
Proof.
  induction files as [|f files IH]; intros done log i; [reflexivity|].
  cbn [fold_left]. unfold close_file at 2. rewrite IH.
  destruct (infp f), (outfp f), (nobackups opts && negb (ofp_set ofp)),
    (unlink_ok (infilename f));
    rewrite ?written_app; simpl; rewrite ?app_nil_r; reflexivity.
Qed.

(** What [writetraces] writes for a group that holds one record without
    adjustment. *)
Lemma writetraces_single_zero_marks opts mst st rec :
  newstart rec = 0 -> newend rec = 0 -> private mst = [rec] ->
  exists n payload,
    written (ws_log (writetraces opts [mst] st))
    = written (ws_log st) ++ replicate n payload
    /\ forall f data,
        ws_files st !! flp rec = Some f ->
        fread (infilename f) (offset rec) (reclen rec) = Some data ->
        length data = Z.to_nat (reclen rec) ->
        payload = if Ascii.eqb (restampqind opts) NUL then data
                  else <[6%nat := byte_of_ascii (restampqind opts)]> data.
Proof.
  intros Hns Hne Hrec. unfold writetraces.
  set (st0 := mkWState (ws_files st) (ws_recordbuf st) (ws_log st) false
                       (ws_totalrecsout st) (ws_totalbytesout st)).
  assert (Hrun : forall ofp,
             exists n payload,
               written (ws_log (write_all opts ofp [mst] st0))
               = written (ws_log st) ++ replicate n payload
               /\ forall f data,
                   ws_files st !! flp rec = Some f ->
                   fread (infilename f) (offset rec) (reclen rec) = Some data ->
                   length data = Z.to_nat (reclen rec) ->
                   payload = if Ascii.eqb (restampqind opts) NUL then data
                             else <[6%nat := byte_of_ascii (restampqind opts)]>
                                    data).
  { intros ofp. unfold write_all. cbn [fold_left]. rewrite Hrec.
    cbn [fold_left].
    exact (write_record_zero_marks opts ofp mst st0 rec Hns Hne). }
  assert (Hclose : forall ofp,
             exists n payload,
               written (ws_log
                  (let st1 := write_all opts ofp [mst] st0 in
                   let '(files, log, _) :=
                     fold_left (close_file opts ofp) (ws_files st1)
                               ([], ws_log st1, O) in
                   let log := match ofp with
                              | Some s => log ++ [CloseOutput s]
                              | None => log
                              end in
                   mkWState files (ws_recordbuf st1) log (ws_stopflag st1)
                            (ws_totalrecsout st1) (ws_totalbytesout st1)))
               = written (ws_log st) ++ replicate n payload
               /\ forall f data,
                   ws_files st !! flp rec = Some f ->
                   fread (infilename f) (offset rec) (reclen rec) = Some data ->
                   length data = Z.to_nat (reclen rec) ->
                   payload = if Ascii.eqb (restampqind opts) NUL then data
                             else <[6%nat := byte_of_ascii (restampqind opts)]>
                                    data).
  { intros ofp. destruct (Hrun ofp) as (n & payload & Hn & Hp).
    exists n, payload. split; [|exact Hp]. cbv zeta.
    pose proof (written_close_files opts ofp
                  (ws_files (write_all opts ofp [mst] st0)) []
                  (ws_log (write_all opts ofp [mst] st0)) O) as Hc.
    destruct (fold_left (close_file opts ofp)
                (ws_files (write_all opts ofp [mst] st0))
                ([], ws_log (write_all opts ofp [mst] st0), O))
      as [[files log] k].
    cbn [fst snd] in Hc. cbn [ws_log].
    destruct ofp; rewrite ?written_app, Hc, Hn; simpl;
      rewrite ?app_nil_r; reflexivity. }
  destruct (outputfile opts) as [name|]; [|apply Hclose].
  destruct (String.eqb name "-"); [apply Hclose|].
  destruct (fopen_ok name (if ws_totalbytesout st =? 0 then "wb" else "ab"));
    [apply Hclose|].
  exists 0%nat.
  destruct (Hrun None) as (_ & payload & _ & Hp).
  exists payload. split; [|exact Hp].
  cbn [ws_log]. rewrite written_app. simpl. rewrite !app_nil_r. reflexivity.
Qed.

(** C10 (amended).  A record whose [newstart] and [newend] are both 0
    is handled as a record without adjustment.  Whatever [writetraces]
    writes for it, to the single output, the archives or the replaced
    file, and however far it gets, is the block read from its file, with
    the quality byte replaced when a restamp is asked for; the packer is
    never called for it.  [trimtraces] compares its start and end with
    the segments, and as a record of the higher priority trace it adds
    its start and end to the coverage.  A trim that [trimtraces] makes
    at tick 0 leaves the new end, or the new start, at 0.  The split
    loop takes the first boundary after its start time. *)
Theorem zero_marks_read_as_unset rec :
  newstart rec = 0 -> newend rec = 0 ->
  (forall opts mst st,
      private mst = [rec] ->
      exists n payload,
        written (ws_log (writetraces opts [mst] st))
        = written (ws_log st) ++ replicate n payload
        /\ forall f data,
            ws_files st !! flp rec = Some f ->
            fread (infilename f) (offset rec) (reclen rec) = Some data ->
            length data = Z.to_nat (reclen rec) ->
            payload = if Ascii.eqb (restampqind opts) NUL then data
                      else <[6%nat := byte_of_ascii (restampqind opts)]> data)
  /\ (forall opts ofp mst st,
        (exists n payload,
            written (ws_log (write_record opts ofp mst st rec))
            = written (ws_log st) ++ replicate n payload
            /\ forall f data,
                ws_files st !! flp rec = Some f ->
                fread (infilename f) (offset rec) (reclen rec) = Some data ->
                length data = Z.to_nat (reclen rec) ->
                payload = if Ascii.eqb (restampqind opts) NUL then data
                          else <[6%nat := byte_of_ascii (restampqind opts)]>
                                 data)
        /\ forall other : Codec,
            (forall buf len,
                msr_unpack buf len = @msr_unpack _ other buf len) ->
            write_record opts ofp mst st rec
            = @write_record _ other _ opts ofp mst st rec)
  /\ (forall opts files lptrace hptrace i,
        private lptrace !! i = Some rec ->
        let hpdelta := hpdelta_of hptrace in
        let segs := coverage hpdelta (hptimetol_of opts hpdelta)
                             (private hptrace) in
        let recs' := snd (fst (trimtraces opts files lptrace hptrace)) in
        (prunedata opts <> "s"%char ->
         recs' !! i
         = Some (if existsb (fun tsp =>
                               (starttime rec >=? ts_starttime tsp)
                               && (endtime rec <=? ts_endtime tsp)) segs
                 then set_reclen rec 0 else rec))
        /\ exists rec',
            recs' !! i = Some rec'
            /\ (mst_starttime hptrace - hpdelta = 0 -> newend rec' = 0)
            /\ (mst_endtime hptrace + hpdelta = 0 -> newstart rec' = 0))
  /\ (forall hpdelta hptimetol pre,
        reclen rec <> 0 ->
        exists segs s,
          coverage hpdelta hptimetol (pre ++ [rec])
          = segs ++ [mkTimeSegment s (endtime rec)]
          /\ (pre = [] -> segs = [] /\ s = starttime rec))
  /\ (forall fuel code hpdelta chain files chain' files' b,
        split_loop fuel code hpdelta chain rec files = Some (chain', files') ->
        split_boundary code (starttime rec) = Some b ->
        (endtime rec <= b /\ chain' = chain ++ [rec] /\ files' = files)
        \/ (endtime rec > b
            /\ exists second rest,
                chain' = chain ++ set_newend rec (b - hpdelta) :: second :: rest
                /\ newstart second = b)).
Proof.
  intros Hns Hne.
  split.
  { intros opts mst st Hrec.
    apply writetraces_single_zero_marks; assumption. }
  split.
  { intros opts ofp mst st. split.
    - apply write_record_zero_marks; assumption.
    - intros other Hu. apply write_record_zero_marks_codec; assumption. }
  split.
  { intros opts files lptrace hptrace i Hi hpdelta segs recs'. split.
    - intros Hm. subst recs'. unfold trimtraces. cbv zeta.
      rewrite (trim_chain_record_mode opts hptrace _ _ Hm).
      rewrite list_lookup_fmap, Hi. cbn [fmap option_fmap option_map].
      f_equal. fold hpdelta. fold segs.
      assert (Hex : existsb (fun tsp => covers tsp rec) segs
                    = existsb (fun tsp =>
                                 (starttime rec >=? ts_starttime tsp)
                                 && (endtime rec <=? ts_endtime tsp)) segs).
      { induction segs as [|tsp l IH]; [reflexivity|].
        cbn [existsb]. rewrite IH. unfold covers.
        rewrite (effstarttime_unset rec Hns), (effendtime_unset rec Hne).
        reflexivity. }
      rewrite Hex. reflexivity.
    - destruct (trimtraces_lookup opts files lptrace hptrace i rec Hi)
        as (files1 & m1 & Hlook).
      pose proof (trim_rec_anchors opts hptrace hpdelta segs files1 rec m1)
        as Hanch.
      fold hpdelta in Hlook. fold segs in Hlook.
      destruct (trim_rec opts hptrace hpdelta segs files1 rec m1)
        as [[files2 rec2] m2].
      cbn [fst snd] in Hlook.
      exists rec2. split; [exact Hlook|].
      destruct Hanch as [Ha Hb]. split.
      + intros Hz. rewrite Hz, Hne in Ha. destruct Ha; assumption.
      + intros Hz. rewrite Hz, Hns in Hb. destruct Hb; assumption. }
  split.
  { intros hpdelta hptimetol pre Hlen.
    destruct (coverage_snoc hpdelta hptimetol pre rec Hlen)
      as (segs & s & Hcov & Hfirst).
    rewrite (effendtime_unset rec Hne) in Hcov.
    rewrite (effstarttime_unset rec Hns) in Hfirst.
    exists segs, s. split; assumption. }
  intros fuel code hpdelta chain files chain' files' b Hrun Hb.
  exact (split_loop_zero_start fuel code hpdelta chain rec files chain' files'
           Hns Hrun b Hb).
Qed.

End ZeroMarks.

(** With a restamp to quality Q the record [plain_rec], which carries
    no adjustment, is not written as read: its seventh byte is replaced.
    The day boundary after the start of a record that begins one second
    before 1970 is tick 0, and such a record that ends after tick 0 is
    never indexed, whatever the number of turns allowed. *)
Lemma zero_marks_counterexample :
  (newstart plain_rec = 0 /\ newend plain_rec = 0)
  /\ @fread (ref_filesys ex_disk) "a.mseed" (offset plain_rec) (reclen plain_rec)
     = Some [x09; x0a; x0b; x0c; x0d; x0e; x0f; x10]
  /\ written
       (ws_log (@writetraces ref_libmseed ref_codec (ref_filesys ex_disk)
                  restamp_opts [ex_trace "D" 8000000 15000000 [plain_rec]]
                  (ex_wstate file_a)))
     = [[x09; x0a; x0b; x0c; x0d; x0e; x51; x10]]
  /\ @split_boundary ref_libmseed "d" (-1000000) = Some 0
  /\ forall fuel,
       index_record fuel (split_opts "d") ex_files 0
                    (ex_read (-1000000) 1000000) (new_trace (-1000000) 1000000)
       = None.
Proof.
  split; [split; reflexivity|].
  split; [reflexivity|]. split; [vm_compute; reflexivity|].
  split; [reflexivity|].
  intros fuel.
  assert (Hnul : splitboundary (split_opts "d") <> NUL) by discriminate.
  rewrite (@index_record_splits ref_libmseed fuel (split_opts "d") ex_files 0
             (ex_read (-1000000) 1000000) (new_trace (-1000000) 1000000) 0
             eq_refl eq_refl eq_refl eq_refl eq_refl Hnul).
  rewrite window_trim_fresh.
  change (match @split_loop ref_libmseed fuel "d" 1000000 [] epoch_rec ex_files
          with
          | Some (chain, files) => Some (Placed 0 chain files)
          | None => None
          end = None).
  rewrite epoch_rec_never_splits. reflexivity.
Qed.

(** [plain_rec] under a restamp, and the record of [epoch_lp], whose trim
    against [second_hp] falls on tick 0 and is counted. *)
Lemma zero_marks_read_as_unset_witness :
  (exists n payload,
      written (ws_log (@writetraces ref_libmseed ref_codec (ref_filesys ex_disk)
                         restamp_opts
                         [ex_trace "D" 8000000 15000000 [plain_rec]]
                         (ex_wstate file_a)))
      = [] ++ replicate n payload
      /\ payload = [x09; x0a; x0b; x0c; x0d; x0e; x51; x10])
  /\ exists rec',
      snd (fst (trimtraces (ex_opts "s") ex_files epoch_lp second_hp)) !! 0%nat
      = Some rec'
      /\ newend rec' = 0
      /\ trimtraces (ex_opts "s") ex_files epoch_lp second_hp
         = ([file_a; mkFilelink "b.mseed" false None false 0 0 0 1 0 0 0],
            private epoch_lp, 1).
Proof.
  destruct (@zero_marks_read_as_unset ref_libmseed ref_codec
              (ref_filesys ex_disk) plain_rec eq_refl eq_refl)
    as (Hw & _).
  destruct (Hw restamp_opts (ex_trace "D" 8000000 15000000 [plain_rec])
              (ex_wstate file_a) eq_refl) as (n & payload & Hn & Hp).
  split.
  - exists n, payload. split; [exact Hn|].
    exact (Hp file_a [x09; x0a; x0b; x0c; x0d; x0e; x0f; x10]
              eq_refl eq_refl eq_refl).
  - destruct (@zero_marks_read_as_unset ref_libmseed ref_codec
                (ref_filesys ex_disk)
                (mkRecord 1 0 512 (-5000000) 5000000 "R" 0 0)
                eq_refl eq_refl)
      as (_ & _ & Hp2 & _).
    destruct (Hp2 (ex_opts "s") ex_files epoch_lp second_hp 0%nat eq_refl)
      as (_ & rec' & Hrec & Hz & _).
    exists rec'. split; [exact Hrec|].
    split; [exact (Hz eq_refl) | reflexivity].
Defined.
